(** * MPoL: the image model (mpol/images.py) and the cross-validated
      training loop (docs/large-tutorials/HD143006_part_2.py)

    Python integers are [Z].  Python floats and double tensors are modelled
    in exact rational arithmetic ([Q]) in the image model: the rounding of a
    result to a neighbouring double is not represented.  What is
    represented is the one rounding that changes an outcome and not only a
    value: the underflow to [0.0] of the cell size in radians, which the
    divisions that follow then refuse.  The training loop is generic in the
    scalar type, so that it can be run on IEEE binary64 numbers
    ([PrimFloat]) where non-finite values matter. *)

From Stdlib Require Import ZArith QArith Qabs Qminmax String List Bool Lia Lqa.
From Stdlib Require Import PrimFloat.
Import ListNotations.

Set Implicit Arguments.
Local Open Scope Z_scope.

(** ** Python exceptions and the result of a call *)

Module Py.

Record exn : Type := mkExn { exn_class : string; exn_msg : string }.

Inductive result (A : Type) : Type :=
| Ok (a : A)
| Raise (e : exn).
Arguments Ok {A} a.
Arguments Raise {A} e.

Definition bind {A B} (r : result A) (k : A -> result B) : result B :=
  match r with
  | Ok a => k a
  | Raise e => Raise e
  end.

Definition is_ok {A} (r : result A) : bool :=
  match r with Ok _ => true | Raise _ => false end.

(** [assert c, msg] *)
Definition assert (c : bool) (msg : string) : result unit :=
  if c then Ok tt else Raise (mkExn "AssertionError" msg).

Definition ZeroDivisionError : exn := mkExn "ZeroDivisionError" "float division by zero".
Definition RuntimeError (msg : string) : exn := mkExn "RuntimeError" msg.
Definition ValueError (msg : string) : exn := mkExn "ValueError" msg.
Definition AttributeError (attr : string) : exn := mkExn "AttributeError" attr.
Definition UnboundLocalError (var : string) : exn := mkExn "UnboundLocalError" var.

(** [a / b] on Python floats: a zero divisor raises. *)
Definition truediv (a b : Q) : result Q :=
  if Qeq_bool b 0 then Raise ZeroDivisionError else Ok (a / b)%Q.

(** A binary64 result of magnitude at most [2^-1075], half the smallest
    positive double, rounds to zero. *)
Definition half_min_double : Q := 1 # (2 ^ 1075)%positive.

Definition underflows (x : Q) : bool := Qle_bool (Qabs x) half_min_double.

(** [a * b] on Python floats, where a product that underflows matters: it
    is [0.0]; any other product is kept exact. *)
Definition fmul (a b : Q) : Q :=
  if underflows (a * b) then 0%Q else (a * b)%Q.

End Py.
Import Py.

Declare Scope py_scope.
Delimit Scope py_scope with py.
Notation "x <- c ;; k" := (Py.bind c (fun x => k))
  (at level 61, c at next level, right associativity) : py_scope.
Notation "' p <- c ;; k" := (Py.bind c (fun p => k))
  (at level 61, p pattern, c at next level, right associativity) : py_scope.
Local Open Scope py_scope.

(** ** The numpy routines the image model calls *)

Module Np.

(** [range(n)] as integers [0, 1, ..., n-1]; empty when [n <= 0]. *)
Definition arange (n : Z) : list Z := map Z.of_nat (seq 0 (Z.to_nat n)).

(** [np.fft.rfftfreq(n, d)]: [val = 1.0/(n*d)], [N = n//2 + 1],
    [arange(0, N) * val]. *)
Definition rfftfreq (n : Z) (d : Q) : result (list Q) :=
  val <- truediv 1 (inject_Z n * d) ;;
  Ok (map (fun i => inject_Z i * val)%Q (arange (n / 2 + 1))).

(** [np.fft.fftfreq(n, d)]: [val = 1.0/(n*d)], [N = (n-1)//2 + 1], the
    integers [0 .. N-1] followed by [-(n//2) .. -1], times [val].  A negative
    [n] is refused when the result array is allocated. *)
Definition fftfreq (n : Z) (d : Q) : result (list Q) :=
  val <- truediv 1 (inject_Z n * d) ;;
  if n <? 0 then Raise (ValueError "negative dimensions are not allowed")
  else
    let N := (n - 1) / 2 + 1 in
    let p1 := arange N in
    let p2 := map (fun i => i - n / 2) (arange (n / 2)) in
    Ok (map (fun i => inject_Z i * val)%Q (p1 ++ p2)).

(** [np.fft.fftshift] on a 1-D array: rotate by [n//2]. *)
Definition fftshift {A} (l : list A) : list A :=
  let n := length l in
  let k := (n - Nat.div n 2)%nat in
  skipn k l ++ firstn k l.

(** [np.sum] of a 1-D array of doubles, that is [np.add.reduce]: the
    result starts at the identity [0.0] and is added the pairwise sum of
    the entries.  The pairwise sum ([pairwise_sum_DOUBLE] of numpy's
    [loops_utils.h.src]) adds fewer than 8 entries one after the other from
    [0.0]; 8 to 128 entries in eight running sums that are combined as a
    tree before the entries left over are added; more than 128 entries as
    the sum of the pairwise sums of two parts, the first of [n/2] entries
    rounded down to a multiple of 8. *)
Section Sum.

Variable A : Type.
Variable add : A -> A -> A.
Variable zero : A.

Fixpoint add_lanes (r xs : list A) : list A :=
  match r, xs with
  | a :: r', x :: xs' => add a x :: add_lanes r' xs'
  | _, _ => []
  end.

(** [groups] more groups of eight entries added to the eight running
    sums; with them, the entries not yet read *)
Fixpoint add_groups (groups : nat) (r xs : list A) : list A * list A :=
  match groups with
  | O => (r, xs)
  | S g => add_groups g (add_lanes r (firstn 8 xs)) (skipn 8 xs)
  end.

Definition tree8 (r : list A) : A :=
  match r with
  | [r0; r1; r2; r3; r4; r5; r6; r7] =>
      add (add (add r0 r1) (add r2 r3)) (add (add r4 r5) (add r6 r7))
  | _ => zero
  end.

Definition block_sum (xs : list A) : A :=
  let (r, rest) :=
    add_groups (Nat.div (length xs) 8 - 1) (firstn 8 xs) (skipn 8 xs) in
  fold_left add rest (tree8 r).

(** the recursion halves the array: [fuel] of the array's length is more
    than it uses *)
Fixpoint pairwise_sum (fuel : nat) (xs : list A) : A :=
  let n := length xs in
  if Nat.ltb n 8 then fold_left add xs zero
  else if Nat.leb n 128 then block_sum xs
  else
    match fuel with
    | O => block_sum xs
    | S fuel' =>
        let n2 := (Nat.div n 2 - Nat.modulo (Nat.div n 2) 8)%nat in
        add (pairwise_sum fuel' (firstn n2 xs)) (pairwise_sum fuel' (skipn n2 xs))
    end.

Definition sum (xs : list A) : A := add zero (pairwise_sum (length xs) xs).

End Sum.

End Np.

(** ** Dense and sparse tensors as torch has them *)

Module Torch.

Definition matrix := list (list Q).
Definition cplx := (Q * Q)%type.

(** [torch.ones(n, m)]; a negative size is refused. *)
Definition ones (n m : Z) : result matrix :=
  if (n <? 0) || (m <? 0)
  then Raise (RuntimeError "Trying to create tensor with negative dimension")
  else Ok (repeat (repeat 1%Q (Z.to_nat m)) (Z.to_nat n)).

(** Shape of a 2-D tensor whose rows all have [m] entries. *)
Definition has_shape (n m : nat) (x : matrix) : Prop :=
  length x = n /\ Forall (fun r => length r = m) x.

Fixpoint has_shapeb (n m : nat) (x : matrix) : bool :=
  match x, n with
  | [], O => true
  | r :: x', S n' => Nat.eqb (length r) m && has_shapeb n' m x'
  | _, _ => false
  end.

Fixpoint map2 {A B C} (f : A -> B -> C) (l : list A) (l' : list B) : list C :=
  match l, l' with
  | a :: t, b :: t' => f a b :: map2 f t t'
  | _, _ => []
  end.

(** The shape of a 2-D tensor, read off its rows; a tensor is a list of
    rows of one length. *)
Definition shape2 (x : matrix) : nat * nat := (length x, length (hd [] x)).

Definition is_tensor (x : matrix) : bool :=
  has_shapeb (fst (shape2 x)) (snd (shape2 x)) x.

(** Broadcasting of one dimension: equal sizes, or one of them is 1. *)
Definition broadcast_dim (a b : nat) : option nat :=
  if Nat.eqb a b then Some a
  else if Nat.eqb a 1 then Some b
  else if Nat.eqb b 1 then Some a
  else None.

(** A dimension of size 1 repeated [k] times; any other is left alone. *)
Definition expand_to {A} (k : nat) (l : list A) : list A :=
  match l with
  | [a] => repeat a k
  | _ => l
  end.

Definition expand (r c : nat) (x : matrix) : matrix :=
  map (expand_to c) (expand_to r x).

(** [x * y] on two 2-D tensors: the operands are broadcast to a common
    shape and multiplied entry by entry; shapes that do not broadcast are
    refused. *)
Definition mul (x y : matrix) : result matrix :=
  if is_tensor x && is_tensor y then
    match broadcast_dim (fst (shape2 x)) (fst (shape2 y)),
          broadcast_dim (snd (shape2 x)) (snd (shape2 y)) with
    | Some r, Some c => Ok (map2 (map2 Qmult) (expand r c x) (expand r c y))
    | _, _ =>
        Raise (RuntimeError "The size of tensor a must match the size of tensor b")
    end
  else Raise (RuntimeError "The size of tensor a must match the size of tensor b").

Definition cadd (a b : cplx) : cplx := (fst a + fst b, snd a + snd b)%Q.
Definition cmul (a b : cplx) : cplx :=
  (fst a * fst b - snd a * snd b, fst a * snd b + snd a * fst b)%Q.
Definition cscale (s : Q) (a : cplx) : cplx := (s * fst a, s * snd a)%Q.
Definition csum (l : list cplx) : cplx := fold_right cadd (0, 0)%Q l.

Definition enumerate {A} (l : list A) : list (Z * A) :=
  combine (Np.arange (Z.of_nat (length l))) l.

Section RFFT.

(** [twiddle k n] stands for [exp(-2 pi i k / n)], as (real, imaginary). *)
Variable twiddle : Z -> Z -> cplx.

(** One output bin of the two-dimensional transform of a real signal [x]
    of shape [(N1, N2)]: the sum over [n1], [n2] of
    [x[n1][n2] * exp(-2 pi i k1 n1 / N1) * exp(-2 pi i k2 n2 / N2)]. *)
Definition dft_bin (x : matrix) (N1 N2 k1 k2 : Z) : cplx :=
  csum (map (fun '(n1, row) =>
          csum (map (fun '(n2, v) =>
                  cscale v (cmul (twiddle (k1 * n1) N1) (twiddle (k2 * n2) N2)))
               (enumerate row)))
       (enumerate x)).

(** [torch.rfft(x, signal_ndim=2)]: one-sided in the last dimension, so
    the result has shape [(N1, N2//2 + 1, 2)]; the last axis holds the real
    and the imaginary part. *)
Definition rfft (x : matrix) : list (list cplx) :=
  let N1 := Z.of_nat (length x) in
  let N2 := Z.of_nat (length (hd [] x)) in
  map (fun k1 => map (fun k2 => dft_bin x N1 N2 k1 k2) (Np.arange (N2 / 2 + 1)))
      (Np.arange N1).

End RFFT.

(** A sparse tensor in coordinate format: [indices = [rows, cols]],
    [values], [size]. *)
Record sparse : Type := mkSparse {
  sp_rows : list Z;
  sp_cols : list Z;
  sp_values : list Q;
  sp_size : Z * Z
}.

Definition in_range (n : Z) (i : Z) : bool := (0 <=? i) && (i <? n).

(** [torch.sparse.DoubleTensor(torch.LongTensor([rows, cols]), values, size)]:
    the two index rows and the values have one length, and every index lies
    inside [size]. *)
Definition sparse_tensor (rows cols : list Z) (values : list Q) (size : Z * Z)
  : result sparse :=
  if negb (Nat.eqb (length rows) (length cols)) then
    Raise (ValueError "expected sequence of equal length")
  else if negb (Nat.eqb (length rows) (length values)) then
    Raise (RuntimeError "indices and values must have same nnz")
  else if negb (forallb (in_range (fst size)) rows && forallb (in_range (snd size)) cols)
  then Raise (RuntimeError "size is inconsistent with indices")
  else Ok (mkSparse rows cols values size).

Definition qsum (l : list Q) : Q := fold_right Qplus 0%Q l.

(** Row [r] of a sparse tensor applied to a dense vector: the stored
    entries of that row, each times the vector's entry at its column. *)
Definition row_dot (S : sparse) (v : list Q) (r : Z) : Q :=
  qsum (map (fun '(i, (c, x)) =>
               if i =? r then (x * nth (Z.to_nat c) v 0)%Q else 0%Q)
            (combine (sp_rows S) (combine (sp_cols S) (sp_values S)))).

(** [torch.sparse.mm(S, v)[:, 0]] for a dense column [v] of shape [(k, 1)]:
    the inner dimensions must agree; the result has one entry per row of [S]. *)
Definition sparse_mm (S : sparse) (v : list Q) : result (list Q) :=
  if snd (sp_size S) =? Z.of_nat (length v)
  then Ok (map (row_dot S v) (Np.arange (fst (sp_size S))))
  else Raise (RuntimeError "size mismatch in sparse.mm").

End Torch.

(** ** The gridding module and the constants the image model imports

    [mpol.gridding] and [mpol.constants] are used by [mpol/images.py] but are
    not part of the sources at hand: they are an interface here. *)

(** [scipy.sparse.coo_matrix] as [gridding.calc_matrices] returns it. *)
Record coo_matrix : Type := mkCoo {
  row : list Z;
  col : list Z;
  data : list Q;
  shape : Z * Z
}.

(** The dataset collaborator: sample coordinates, weights and values. *)
Record UVDataset : Type := mkUVDataset {
  uu : list Q;
  vv : list Q;
  weights : list Q;
  re : list Q;
  im : list Q
}.

Record Gridding : Type := mkGridding {
  (** [mpol.constants.arcsec]: radians per arcsecond *)
  arcsec : Q;
  (** the unit roots used by the Fourier transform *)
  twiddle : Z -> Z -> Torch.cplx;
  (** [gridding.fftspace(width, N)] *)
  fftspace : Q -> Z -> result (list Q);
  (** [gridding.corrfun_mat(alphas, etas)] *)
  corrfun_mat : list Q -> list Q -> result Torch.matrix;
  (** [gridding.calc_matrices(u_data, v_data, u_model, v_model)] *)
  calc_matrices : list Q -> list Q -> list Q -> list Q
                  -> result (coo_matrix * coo_matrix)
}.

(** ** Methods: state passing over the receiver, with exceptions *)

Module Meth.

Definition method (S A : Type) : Type := S -> result A * S.

Definition ret {S A} (a : A) : method S A := fun self => (Ok a, self).

Definition bind {S A B} (c : method S A) (k : A -> method S B) : method S B :=
  fun self =>
    match c self with
    | (Ok a, self') => k a self'
    | (Raise e, self') => (Raise e, self')
    end.

(** a call whose outcome does not touch the receiver *)
Definition lift {S A} (r : result A) : method S A := fun self => (r, self).

Definition get {S} : method S S := fun self => (Ok self, self).

Definition put {S} (s : S) : method S unit := fun _ => (Ok tt, s).

End Meth.

Declare Scope meth_scope.
Delimit Scope meth_scope with meth.
Notation "x <- c ;; k" := (Meth.bind c (fun x => k))
  (at level 61, c at next level, right associativity) : meth_scope.
Notation "' p <- c ;; k" := (Meth.bind c (fun p => k))
  (at level 61, p pattern, c at next level, right associativity) : meth_scope.
Notation "c ;;; k" := (Meth.bind c (fun _ => k))
  (at level 61, right associativity) : meth_scope.

(** ** mpol/images.py: class MpolImage *)

Module Images.

Import Torch.

Section WithGridding.

Variable G : Gridding.

(** The attributes of an instance.  [C_re] and [C_im] exist only once
    [precache_interpolation] has run. *)
Record MpolImage : Type := mkMpolImage {
  npix : Z;
  cell_size : Q;
  ll : list Q;
  dll : Q;
  us : list Q;
  vs : list Q;
  _image : matrix;
  corrfun : matrix;
  C_re : option sparse;
  C_im : option sparse
}.

Definition set_C_re (c : sparse) : Meth.method MpolImage unit :=
  fun self =>
    (Ok tt, mkMpolImage (npix self) (cell_size self) (ll self) (dll self)
                        (us self) (vs self) (_image self) (corrfun self)
                        (Some c) (C_im self)).

Definition set_C_im (c : sparse) : Meth.method MpolImage unit :=
  fun self =>
    (Ok tt, mkMpolImage (npix self) (cell_size self) (ll self) (dll self)
                        (us self) (vs self) (_image self) (corrfun self)
                        (C_re self) (Some c)).

(** Reading an attribute that was never assigned raises [AttributeError]. *)
Definition getattr {A} (name : string) (f : MpolImage -> option A)
  : Meth.method MpolImage A :=
  fun self =>
    match f self with
    | Some a => (Ok a, self)
    | None => (Raise (AttributeError name), self)
    end.

(** [precache_interpolation(self, dataset)] *)
Definition precache_interpolation (dataset : UVDataset)
  : Meth.method MpolImage unit :=
  (self <- Meth.get ;;
   ' (C_re, C_im) <- Meth.lift
       (calc_matrices G (uu dataset) (vv dataset) (us self) (vs self)) ;;
   let C_shape := shape C_re in
   s_re <- Meth.lift (sparse_tensor (row C_re) (col C_re) (data C_re) C_shape) ;;
   set_C_re s_re ;;;
   s_im <- Meth.lift (sparse_tensor (row C_im) (col C_im) (data C_im) C_shape) ;;
   set_C_im s_im)%meth.

(** [forward(self)] *)
Definition forward : Meth.method MpolImage (list Q * list Q) :=
  (self <- Meth.get ;;
   apod <- Meth.lift (mul (_image self) (corrfun self)) ;;
   let vis := map (map (cscale (dll self ^ 2))) (rfft (twiddle G) apod) in
   let vis_re := map (map fst) vis in
   let vis_im := map (map snd) vis in
   let vr := concat vis_re in
   let vi := concat vis_im in
   C_re <- getattr "C_re" C_re ;;
   re <- Meth.lift (sparse_mm C_re vr) ;;
   C_im <- getattr "C_im" C_im ;;
   im <- Meth.lift (sparse_mm C_im vi) ;;
   Meth.ret (re, im))%meth.

Definition precache_hint : string :=
  "Be sure to precalculate your interpolation matrices with your dataset before begining optimization.".

(** [__init__(self, npix, cell_size, dataset=None)]: the new instance and
    the lines printed to standard output. *)
Definition __init__ (npix : Z) (cell_size : Q) (dataset : option UVDataset)
  : result (MpolImage * list string) :=
  (_ <- assert (npix mod 2 =? 0) "npix must be even (for now)" ;;
   _ <- assert (negb (Qle_bool cell_size 0)) "cell_size must be positive (arcseconds)" ;;
   let cell_size := fmul cell_size (arcsec G) in
   let img_radius := (cell_size * inject_Z (npix / 2))%Q in
   ll <- fftspace G img_radius npix ;;
   dll <- truediv (inject_Z npix * cell_size) (inject_Z npix) ;;
   d <- truediv (2 * img_radius) (inject_Z npix) ;;
   f <- Np.rfftfreq npix d ;;
   let us := map (fun x => x * (1 # 1000))%Q f in
   d' <- truediv (2 * img_radius) (inject_Z npix) ;;
   f' <- Np.fftfreq npix d' ;;
   let vs := map (fun x => x * (1 # 1000))%Q f' in
   _image <- ones npix npix ;;
   corrfun <- corrfun_mat G (Np.fftshift ll) (Np.fftshift ll) ;;
   let self := mkMpolImage npix cell_size ll dll us vs _image corrfun None None in
   match dataset with
   | Some ds =>
       match precache_interpolation ds self with
       | (Ok _, self') => Ok (self', [])
       | (Raise e, _) => Raise e
       end
   | None => Ok (self, [precache_hint])
   end)%py.

End WithGridding.

End Images.

(** ** A small gridding module to run the image model on

    A stand-in for [mpol.gridding] on grids of 1, 2 or 4 pixels per side,
    where the unit roots are rational: the image axis is the evenly spaced
    one, the correction is the constant 2, and sample [k] reads grid cell
    [k] (modulo the grid size) with weight 1 (real) and -1 (imaginary). *)

Module Toy.

Definition twiddle4 (k n : Z) : Torch.cplx :=
  match n with
  | 1 => (1, 0)%Q
  | 2 => if k mod 2 =? 0 then (1, 0)%Q else (-1, 0)%Q
  | 4 => match k mod 4 with
         | 0 => (1, 0)%Q
         | 1 => (0, -1)%Q
         | 2 => (-1, 0)%Q
         | _ => (0, 1)%Q
         end
  | _ => (0, 0)%Q
  end.

Definition fftspace (width : Q) (N : Z) : result (list Q) :=
  _ <- assert (N mod 2 =? 0) "N must be even." ;;
  dx <- truediv (width * 2) (inject_Z N) ;;
  Ok (map (fun i => (- width + inject_Z i * dx)%Q) (Np.arange N)).

Definition corrfun_mat (alphas etas : list Q) : result Torch.matrix :=
  Ok (map (fun _ => map (fun _ => 2%Q) etas) alphas).

Definition pick (w : Q) (u : list Q) (k : Z) : coo_matrix :=
  let n := Z.of_nat (length u) in
  mkCoo (Np.arange n) (map (fun i => i mod k) (Np.arange n))
        (map (fun _ => w) u) (n, k).

Definition calc_matrices (u_data v_data u_model v_model : list Q)
  : result (coo_matrix * coo_matrix) :=
  let k := Z.of_nat (length v_model * length u_model) in
  if k =? 0 then Raise (ValueError "empty model grid")
  else Ok (pick 1 u_data k, pick (-1) u_data k).

Definition gridding : Gridding :=
  mkGridding (4848137 # 1000000000000) twiddle4 fftspace corrfun_mat calc_matrices.

Definition dataset3 : UVDataset :=
  mkUVDataset [10; 20; 30]%Q [5; -5; 15]%Q [1; 1; 1]%Q [0; 0; 0]%Q [0; 0; 0]%Q.

(** [MpolImage(npix, cell_size, dataset)] when it returns an instance. *)
Definition new (npix : Z) (cell_size : Q) (dataset : option UVDataset)
  : option Images.MpolImage :=
  match Images.__init__ gridding npix cell_size dataset with
  | Ok (m, _) => Some m
  | Raise _ => None
  end.

End Toy.

(** ** The prediction as the specification words it

    [forward_spec] follows the four steps in the order the specification
    gives them, on plain values: (1) the pixel array times the apodization
    correction, entry by entry; (2) its two-dimensional transform, scaled by
    the square of [dll]; (3) the real and the imaginary plane; (4) each
    interpolation operator applied to its flattened plane, one entry per
    operator row. *)

Module Spec.

Import Torch.

Definition apodize (image correction : matrix) : matrix :=
  map2 (map2 Qmult) image correction.

Definition scaled_transform (tw : Z -> Z -> cplx) (area : Q) (x : matrix)
  : list (list cplx) :=
  map (map (cscale (area * area))) (rfft tw x).

Definition real_plane (ft : list (list cplx)) : list (list Q) := map (map fst) ft.
Definition imag_plane (ft : list (list cplx)) : list (list Q) := map (map snd) ft.

Definition interpolate (C : sparse) (plane : list (list Q)) : list Q :=
  map (row_dot C (concat plane)) (Np.arange (fst (sp_size C))).

Definition forward_spec (tw : Z -> Z -> cplx) (image correction : matrix)
  (area : Q) (C_re C_im : sparse) : list Q * list Q :=
  let ft := scaled_transform tw area (apodize image correction) in
  (interpolate C_re (real_plane ft), interpolate C_im (imag_plane ft)).

End Spec.

(** Modelled from the spec: the contract of [mpol.gridding], whose source
    is not at hand, as far as the image model relies on it: the angle of an
    arcsecond is positive; the image axis of an even, positive number [N]
    of pixels has [N] entries; the correction matrix has one row per entry
    of its first argument and one column per entry of its second; the
    interpolation matrices have one row per sample and one column per cell
    of the dense Fourier grid. *)
Record GriddingLaws (G : Gridding) : Prop := mkGriddingLaws {
  arcsec_pos : (0 < arcsec G)%Q;
  fftspace_length : forall w N, 0 < N -> N mod 2 = 0 ->
    exists l, fftspace G w N = Ok l /\ length l = Z.to_nat N;
  corrfun_mat_shape : forall a b,
    exists c, corrfun_mat G a b = Ok c /\ Torch.has_shape (length a) (length b) c;
  calc_matrices_shape : forall u v us vs Cre Cim,
    calc_matrices G u v us vs = Ok (Cre, Cim) ->
    shape Cre = (Z.of_nat (length u), Z.of_nat (length vs * length us))
}.

(** An image model that is ready to predict for [dataset]: an [n] by [n]
    pixel array and correction, and both operators cached with one row per
    sample and one column per cell of the [n] by [n/2 + 1] half plane. *)
Definition precached (dataset : UVDataset) (m : Images.MpolImage) : Prop :=
  exists n Cre Cim,
    (0 < n)%nat /\
    Torch.has_shape n n (Images._image m) /\
    Torch.has_shape n n (Images.corrfun m) /\
    Images.C_re m = Some Cre /\ Images.C_im m = Some Cim /\
    Torch.sp_size Cre = (Z.of_nat (length (uu dataset)),
                         Z.of_nat (n * Z.to_nat (Z.of_nat n / 2 + 1))) /\
    Torch.sp_size Cim = Torch.sp_size Cre.

(** The instance [__init__] has built when it reaches its last statement,
    given the image axis [ll] and the correction [corrfun] that the two
    gridding calls returned. *)
Definition constructed (G : Gridding) (npix : Z) (cell_size : Q)
  (ll : list Q) (corrfun : Torch.matrix) : Images.MpolImage :=
  let cell_size := (cell_size * arcsec G)%Q in
  let img_radius := (cell_size * inject_Z (npix / 2))%Q in
  let d := (2 * img_radius / inject_Z npix)%Q in
  let val := (1 / (inject_Z npix * d))%Q in
  Images.mkMpolImage npix cell_size ll
    (inject_Z npix * cell_size / inject_Z npix)%Q
    (map (fun x => x * (1 # 1000))%Q
         (map (fun i => inject_Z i * val)%Q (Np.arange (npix / 2 + 1))))
    (map (fun x => x * (1 # 1000))%Q
         (map (fun i => inject_Z i * val)%Q
              (Np.arange ((npix - 1) / 2 + 1)
               ++ map (fun i => i - npix / 2) (Np.arange (npix / 2)))))
    (repeat (repeat 1%Q (Z.to_nat npix)) (Z.to_nat npix))
    corrfun None None.

(** ** docs/large-tutorials/HD143006_part_2.py: [train], [test],
       [cross_validate]

    The tutorial drives objects of packages that are not among the sources
    at hand ([mpol.precomposed.SimpleNet], [mpol.losses],
    [mpol.connectors], [torch.optim.Adam], matplotlib): they are an
    interface here, each call either returning or raising. *)

Module Tutorial.

Record Collab : Type := mkCollab {
  (** Python floats, zero-dimensional tensors with their graph, image
      cubes, predicted visibilities *)
  Scalar : Type;
  Tensor : Type;
  Cube : Type;
  Vis : Type;
  (** a [SimpleNet] (parameters, gradients, mode, cached cubes), an
      optimizer, a gridded dataset, a saved [state_dict], a residual
      connector, a matplotlib figure *)
  Model : Type;
  Optim : Type;
  Dataset : Type;
  StateDict : Type;
  Connector : Type;
  Figure : Type;
  (** [model.train()], [model.eval()], [model.forward()],
      [model.icube.sky_cube], [model.load_state_dict(sd)] *)
  model_train : Model -> Model;
  model_eval : Model -> Model;
  model_forward : Model -> result (Vis * Model);
  sky_cube : Model -> Cube;
  load_state_dict : Model -> StateDict -> result Model;
  (** [torch.load(path)], [torch.optim.Adam(model.parameters(), lr=lr)],
      [optimizer.zero_grad()], [optimizer.step()], [loss.backward()],
      [loss.item()], [t1 + t2], [x * t] *)
  torch_load : string -> result StateDict;
  Adam : Model -> Scalar -> Optim;
  zero_grad : Optim -> Model -> Model;
  step : Optim -> Model -> result (Optim * Model);
  backward : Tensor -> Model -> result Model;
  item : Tensor -> Scalar;
  tensor_add : Tensor -> Tensor -> Tensor;
  scalar_mul : Scalar -> Tensor -> Tensor;
  (** [mpol.losses] *)
  nll_gridded : Vis -> Dataset -> result Tensor;
  sparsity : Cube -> result Tensor;
  TV_image : Cube -> result Tensor;
  entropy : Cube -> Scalar -> result Tensor;
  TSV : Cube -> result Tensor;
  (** [connectors.GriddedResidualConnector(model.fcube, dataset)] and a
      call [residuals()] of the connector *)
  GriddedResidualConnector : Model -> Dataset -> result Connector;
  residuals_call : Connector -> Model -> result Connector;
  (** the four panels [log_figure] draws from the model and the connector *)
  render : Model -> Connector -> result Figure;
  (** [0.0] and [x + y] on floats, for [np.sum] *)
  float_zero : Scalar;
  float_add : Scalar -> Scalar -> Scalar
}.

(** The [config] dictionary, with the seven keys the tutorial gives it. *)
Module Config.
Record t (S : Type) : Type := mk {
  lr : S;
  lambda_sparsity : S;
  lambda_TV : S;
  entropy : S;
  prior_intensity : S;
  TSV : S;
  epochs : Z
}.
End Config.

(** The steps of the optimizer loop, in the words of the specification,
    and the steps of the cross-validation driver around it. *)
Inductive phase : Type :=
| ZeroGrad | ForwardEval | LossCompute | Log | Backward | Step
| Reset | NewOptimizer | Evaluate.

Section WithCollab.

Variable K : Collab.

(** What the observability sink has received. *)
Inductive record : Type :=
| add_scalar (tag : string) (scalar_value : Scalar K) (global_step : option Z)
| add_figure (tag : string) (figure : Figure K) (global_step : option Z).

(** The objects the tutorial functions share and update in place: the
    model, the optimizer bound to the name [optimizer], and the writer
    ([None], or what it has received so far); with them, the steps taken so
    far, in program order. *)
Record State : Type := mkState {
  model : Model K;
  optimizer : Optim K;
  writer : option (list record);
  trace : list phase
}.

Definition method := Meth.method State.

Definition set_model (m : Model K) : method unit :=
  fun s => (Ok tt, mkState m (optimizer s) (writer s) (trace s)).

Definition set_optimizer (o : Optim K) : method unit :=
  fun s => (Ok tt, mkState (model s) o (writer s) (trace s)).

(** a method of the writer appends to what it has received (callers test
    [writer is not None] first) *)
Definition emit (r : record) : method unit :=
  fun s => (Ok tt, mkState (model s) (optimizer s)
                           (option_map (fun w => w ++ [r]) (writer s)) (trace s)).

Definition enter (p : phase) : method unit :=
  fun s => (Ok tt, mkState (model s) (optimizer s) (writer s) (trace s ++ [p])).

Definition gets {A} (f : State -> A) : method A := fun s => (Ok (f s), s).

Definition raise {A} (e : exn) : method A := fun s => (Raise e, s).

(** [a % b] on Python integers *)
Definition mod_ (a b : Z) : result Z :=
  if b =? 0 then Raise (mkExn "ZeroDivisionError" "integer division or modulo by zero")
  else Ok (a mod b).

(** [for x in xs: body], the body updating the local variables [L] *)
Fixpoint for_each {A L} (xs : list A) (body : A -> L -> method L) (locals : L)
  : method L :=
  match xs with
  | [] => Meth.ret locals
  | x :: xs' => (locals' <- body x locals ;; for_each xs' body locals')%meth
  end.

(** [log_figure(model, residuals)]: populate the residual connector, draw
    the four panels, return the figure. *)
Definition log_figure (residuals : Connector K) : method (Figure K * Connector K) :=
  (m <- gets model ;;
   residuals <- Meth.lift (residuals_call K residuals m) ;;
   fig <- Meth.lift (render K m residuals) ;;
   Meth.ret (fig, residuals))%meth.

(** The body of the loop of [train]; the local variables it assigns are
    [loss] (unbound before the first iteration) and the connector. *)
Definition train_body (dataset : Dataset K) (config : Config.t (Scalar K))
  (logevery : Z) (iteration : Z) (locals : option (Tensor K) * Connector K)
  : method (option (Tensor K) * Connector K) :=
  (let residuals := snd locals in
   enter ZeroGrad ;;;
   o <- gets optimizer ;; m <- gets model ;; set_model (zero_grad K o m) ;;;
   enter ForwardEval ;;;
   m <- gets model ;;
   ' (vis, m) <- Meth.lift (model_forward K m) ;;
   set_model m ;;;
   sky_cube <- gets (fun s => sky_cube K (model s)) ;;
   enter LossCompute ;;;
   l_nll <- Meth.lift (nll_gridded K vis dataset) ;;
   l_sparsity <- Meth.lift (sparsity K sky_cube) ;;
   l_TV <- Meth.lift (TV_image K sky_cube) ;;
   l_entropy <- Meth.lift (entropy K sky_cube (Config.prior_intensity config)) ;;
   l_TSV <- Meth.lift (TSV K sky_cube) ;;
   let loss :=
     tensor_add K
       (tensor_add K
          (tensor_add K
             (tensor_add K l_nll
                (scalar_mul K (Config.lambda_sparsity config) l_sparsity))
             (scalar_mul K (Config.lambda_TV config) l_TV))
          (scalar_mul K (Config.entropy config) l_entropy))
       (scalar_mul K (Config.TSV config) l_TSV) in
   r <- Meth.lift (mod_ iteration logevery) ;;
   w <- gets writer ;;
   residuals <-
     (if (r =? 0) && (match w with Some _ => true | None => false end) then
        enter Log ;;;
        emit (add_scalar "loss" (item K loss) (Some iteration)) ;;;
        ' (fig, residuals) <- log_figure residuals ;;
        emit (add_figure "image" fig (Some iteration)) ;;;
        Meth.ret residuals
      else Meth.ret residuals) ;;
   enter Backward ;;;
   m <- gets model ;; m <- Meth.lift (backward K loss m) ;; set_model m ;;;
   enter Step ;;;
   o <- gets optimizer ;; m <- gets model ;;
   ' (o, m) <- Meth.lift (step K o m) ;;
   set_optimizer o ;;; set_model m ;;;
   Meth.ret (Some loss, residuals))%meth.

(** [train(model, dataset, optimizer, config, writer=None, logevery=50)] *)
Definition train (dataset : Dataset K) (config : Config.t (Scalar K))
  (logevery : Z) : method (Scalar K) :=
  (m <- gets model ;; set_model (model_train K m) ;;;
   m <- gets model ;;
   residuals <- Meth.lift (GriddedResidualConnector K m dataset) ;;
   locals <- for_each (Np.arange (Config.epochs config))
               (train_body dataset config logevery) (None, residuals) ;;
   match fst locals with
   | Some loss => Meth.ret (item K loss)
   | None => raise (UnboundLocalError "loss")
   end)%meth.

(** [test(model, dataset)] *)
Definition test (dataset : Dataset K) : method (Scalar K) :=
  (enter Evaluate ;;;
   m <- gets model ;; set_model (model_eval K m) ;;;
   m <- gets model ;;
   ' (vis, m) <- Meth.lift (model_forward K m) ;;
   set_model m ;;;
   loss <- Meth.lift (nll_gridded K vis dataset) ;;
   Meth.ret (item K loss))%meth.

(** [np.sum(np.array(xs))] on the list of scores *)
Definition np_sum (xs : list (Scalar K)) : Scalar K :=
  Np.sum (float_add K) (float_zero K) xs.

(** The body of the loop of [cross_validate]; the local variable it
    updates is the list [test_scores]. *)
Definition cross_validate_body (config : Config.t (Scalar K)) (MODEL_PATH : string)
  (fold : Dataset K * Dataset K) (test_scores : list (Scalar K))
  : method (list (Scalar K)) :=
  (let (train_dset, test_dset) := fold in
   enter Reset ;;;
   sd <- Meth.lift (torch_load K MODEL_PATH) ;;
   m <- gets model ;; m <- Meth.lift (load_state_dict K m sd) ;; set_model m ;;;
   enter NewOptimizer ;;;
   m <- gets model ;; set_optimizer (Adam K m (Config.lr config)) ;;;
   _ <- train train_dset config 50 ;;
   score <- test test_dset ;;
   Meth.ret (test_scores ++ [score]))%meth.

(** [cross_validate(model, config, k_fold_datasets, MODEL_PATH, writer=None)] *)
Definition cross_validate (config : Config.t (Scalar K))
  (k_fold_datasets : list (Dataset K * Dataset K)) (MODEL_PATH : string)
  : method (Scalar K) :=
  (test_scores <- for_each k_fold_datasets
                    (cross_validate_body config MODEL_PATH) [] ;;
   let test_score := np_sum test_scores in
   w <- gets writer ;;
   match w with
   | Some _ => emit (add_scalar "Cross Validation" test_score None)
   | None => Meth.ret tt
   end ;;;
   Meth.ret test_score)%meth.

End WithCollab.

End Tutorial.

(** ** The optimizer loop and the cross-validation driver as the
       specification words them *)

Module LoopSpec.

Import Tutorial.

Section WithCollab.

Variable K : Collab.


(** Every call made to draw a figure for the sink returns. *)
Record SinkReturns : Prop := mkSinkReturns {
  residuals_returns : forall r m, exists r', residuals_call K r m = Ok r';
  render_returns : forall m r, exists fig, render K m r = Ok fig
}.

(** The loss of an iteration: the negative log-likelihood plus the four
    regularizer terms, each times its configured weight. *)
Definition weighted_sum (config : Config.t (Scalar K))
  (nll l_sparsity l_TV l_entropy l_TSV : Tensor K) : Tensor K :=
  tensor_add K
    (tensor_add K
       (tensor_add K
          (tensor_add K nll
             (scalar_mul K (Config.lambda_sparsity config) l_sparsity))
          (scalar_mul K (Config.lambda_TV config) l_TV))
       (scalar_mul K (Config.entropy config) l_entropy))
    (scalar_mul K (Config.TSV config) l_TSV).

(** A tensor is a loss of [dataset] under [config] when it is such a sum
    of what the five loss functions returned. *)
Definition is_loss (dataset : Dataset K) (config : Config.t (Scalar K))
  (loss : Tensor K) : Prop :=
  exists vis cube nll l_sparsity l_TV l_entropy l_TSV,
    nll_gridded K vis dataset = Ok nll /\
    sparsity K cube = Ok l_sparsity /\
    TV_image K cube = Ok l_TV /\
    entropy K cube (Config.prior_intensity config) = Ok l_entropy /\
    TSV K cube = Ok l_TSV /\
    loss = weighted_sum config nll l_sparsity l_TV l_entropy l_TSV.

(** Does iteration [i] write to the sink? *)
Definition logs (w : option (list (record K))) (logevery i : Z) : bool :=
  (i mod logevery =? 0) && (match w with Some _ => true | None => false end).

(** The steps of one iteration, and of [n] iterations in a row. *)
Definition iteration_phases (logging : bool) : list phase :=
  [ZeroGrad; ForwardEval; LossCompute]
  ++ (if logging then [Log] else []) ++ [Backward; Step].

Definition train_phases (w : option (list (record K))) (logevery : Z)
  (iterations : list Z) : list phase :=
  flat_map (fun i => iteration_phases (logs w logevery i)) iterations.

(** A score is a held-out negative log-likelihood of [held_out] when it
    is the value of what [nll_gridded] returned on that dataset. *)
Definition is_held_out_nll (held_out : Dataset K) (score : Scalar K) : Prop :=
  exists vis nll, nll_gridded K vis held_out = Ok nll /\ score = item K nll.






(** One iteration of the optimizer loop, by the calls it is made of, each
    on what the one before returned.  From the model [m] and the optimizer
    [o]: the forward evaluation of the model (its gradients zeroed) returns
    a prediction and the model [forwarded]; the loss is the weighted sum of
    what the five loss functions return on that prediction and on the cube
    of that model; the gradient computation of that loss returns the model
    [graded]; the update of the optimizer on that model returns [o'] and
    [m']. *)
Definition iteration (dataset : Dataset K) (config : Config.t (Scalar K))
  (m : Model K) (o : Optim K) (loss : Tensor K) (forwarded m' : Model K)
  (o' : Optim K) : Prop :=
  exists vis nll l_sparsity l_TV l_entropy l_TSV graded,
    model_forward K (zero_grad K o m) = Ok (vis, forwarded) /\
    nll_gridded K vis dataset = Ok nll /\
    sparsity K (sky_cube K forwarded) = Ok l_sparsity /\
    TV_image K (sky_cube K forwarded) = Ok l_TV /\
    entropy K (sky_cube K forwarded) (Config.prior_intensity config) = Ok l_entropy /\
    TSV K (sky_cube K forwarded) = Ok l_TSV /\
    loss = weighted_sum config nll l_sparsity l_TV l_entropy l_TSV /\
    backward K loss forwarded = Ok graded /\
    step K o graded = Ok (o', m').

(** What an iteration leaves behind for the caller and for the sink: its
    index, its loss, and the model its forward evaluation returned. *)
Record pass : Type := mkPass {
  pass_index : Z;
  pass_loss : Tensor K;
  pass_forwarded : Model K
}.

(** A run of iterations, one per index, each from the model and the
    optimizer the one before has left. *)
Inductive iterations (dataset : Dataset K) (config : Config.t (Scalar K))
  : list Z -> Model K -> Optim K -> list pass -> Model K -> Optim K -> Prop :=
| iterations_nil (m : Model K) (o : Optim K) :
    iterations dataset config [] m o [] m o
| iterations_cons (i : Z) (rest : list Z) (m : Model K) (o : Optim K)
    (loss : Tensor K) (forwarded m1 : Model K) (o1 : Optim K)
    (passes : list pass) (m' : Model K) (o' : Optim K) :
    iteration dataset config m o loss forwarded m1 o1 ->
    iterations dataset config rest m1 o1 passes m' o' ->
    iterations dataset config (i :: rest) m o
      (mkPass i loss forwarded :: passes) m' o'.

(** What a writer receives along a run: at each pass whose index is a
    multiple of [logevery], the value of the loss as a scalar tagged loss,
    and then, tagged image, the figure drawn from the model of that pass
    with the residual connector, which each drawing updates. *)
Inductive drawn (logevery : Z)
  : Connector K -> list pass -> list (record K) -> Prop :=
| drawn_nil (r : Connector K) : drawn logevery r [] []
| drawn_skip (r : Connector K) (p : pass) (passes : list pass)
    (records : list (record K)) :
    pass_index p mod logevery <> 0 ->
    drawn logevery r passes records ->
    drawn logevery r (p :: passes) records
| drawn_log (r r' : Connector K) (p : pass) (fig : Figure K)
    (passes : list pass) (records : list (record K)) :
    pass_index p mod logevery = 0 ->
    residuals_call K r (pass_forwarded p) = Ok r' ->
    render K (pass_forwarded p) r' = Ok fig ->
    drawn logevery r' passes records ->
    drawn logevery r (p :: passes)
      (add_scalar K "loss" (item K (pass_loss p)) (Some (pass_index p))
       :: add_figure K "image" fig (Some (pass_index p)) :: records).

(** What the writer of a run holds at its end: nothing if there was
    none; else what it held, and then what the run has drawn. *)
Definition sink_receives (logevery : Z) (r : Connector K) (passes : list pass)
  (before after : option (list (record K))) : Prop :=
  match before with
  | None => after = None
  | Some w =>
      exists records, drawn logevery r passes records /\ after = Some (w ++ records)
  end.

(** Every figure of the run can be drawn, where there is a writer. *)
Definition can_draw (logevery : Z) (r : Connector K) (passes : list pass)
  (w : option (list (record K))) : Prop :=
  match w with
  | None => True
  | Some _ => exists records, drawn logevery r passes records
  end.

(** An exception that a call made to draw a figure raises. *)
Definition drawing_raises (e : exn) : Prop :=
  exists r m,
    residuals_call K r m = Raise e \/
    exists r', residuals_call K r m = Ok r' /\ render K m r' = Raise e.


(** What the model and the optimizer are: the part of the state that
    the computation reads. *)
Definition core (s : State K) : Model K * Optim K := (model s, optimizer s).

End WithCollab.

End LoopSpec.

(** ** A one-pixel model to run the loop on

    Stand-ins for the collaborators, on IEEE binary64 numbers: the model is
    one pixel with its gradient, a tensor carries its value and its
    derivative in the pixel, the optimizer is plain gradient descent with
    its learning rate, a dataset is one observed value. *)

Module ToyLoop.

Import Tutorial.

Local Open Scope float_scope.

Record pixel : Type := mkPixel { value : float; grad : float; training : bool }.

Definition collab : Collab := {|
  Scalar := float;
  Tensor := float * float;
  Cube := float;
  Vis := float;
  Model := pixel;
  Optim := float;
  Dataset := float;
  StateDict := float;
  Connector := float * float;
  Figure := float * float;
  model_train := fun m => mkPixel (value m) (grad m) true;
  model_eval := fun m => mkPixel (value m) (grad m) false;
  model_forward := fun m => Ok (value m, m);
  sky_cube := value;
  load_state_dict := fun m sd => Ok (mkPixel sd (grad m) (training m));
  torch_load := fun path => Ok (if String.eqb path "model.pt" then 3 else 0);
  Adam := fun _ lr => lr;
  zero_grad := fun _ m => mkPixel (value m) 0 (training m);
  step := fun o m => Ok (o, mkPixel (value m - o * grad m) (grad m) (training m));
  backward := fun t m => Ok (mkPixel (value m) (grad m + snd t) (training m));
  item := fst;
  tensor_add := fun a b => (fst a + fst b, snd a + snd b);
  scalar_mul := fun x t => (x * fst t, x * snd t);
  nll_gridded := fun vis d => Ok ((vis - d) * (vis - d), 2 * (vis - d));
  sparsity := fun c => Ok (abs c, if c <? 0 then -1 else 1);
  TV_image := fun _ => Ok (0, 0);
  entropy := fun c p => Ok (c * c / p, 2 * c / p);
  TSV := fun c => Ok (c * c, 2 * c);
  GriddedResidualConnector := fun m d => Ok (d, d - value m);
  residuals_call := fun r m => Ok (fst r, fst r - value m);
  render := fun m r => Ok (value m, snd r);
  float_zero := 0;
  float_add := PrimFloat.add
|}.

Definition config (epochs : Z) : Config.t float :=
  Config.mk 0.25 0.5 0 0.125 1 0 epochs.

(** a pixel of intensity [v], an optimizer at the configured rate, and the
    writer given *)
Definition start (v : float) (w : option (list (record collab))) : State collab :=
  @mkState collab (mkPixel v 0 false) 0.25 w [].

(** two folds of one observed value each *)
Definition folds : list (float * float) := [(1, 2); (2, 1)].

(** The same stand-ins with a model that refuses to predict from a pixel
    that is not finite. *)
Definition strict : Collab := {|
  Scalar := float;
  Tensor := float * float;
  Cube := float;
  Vis := float;
  Model := pixel;
  Optim := float;
  Dataset := float;
  StateDict := float;
  Connector := float * float;
  Figure := float * float;
  model_train := fun m => mkPixel (value m) (grad m) true;
  model_eval := fun m => mkPixel (value m) (grad m) false;
  model_forward := fun m =>
    if is_finite (value m) then Ok (value m, m)
    else Raise (RuntimeError "pixel is not finite");
  sky_cube := value;
  load_state_dict := fun m sd => Ok (mkPixel sd (grad m) (training m));
  torch_load := fun path => Ok (if String.eqb path "model.pt" then 3 else 0);
  Adam := fun _ lr => lr;
  zero_grad := fun _ m => mkPixel (value m) 0 (training m);
  step := fun o m => Ok (o, mkPixel (value m - o * grad m) (grad m) (training m));
  backward := fun t m => Ok (mkPixel (value m) (grad m + snd t) (training m));
  item := fst;
  tensor_add := fun a b => (fst a + fst b, snd a + snd b);
  scalar_mul := fun x t => (x * fst t, x * snd t);
  nll_gridded := fun vis d => Ok ((vis - d) * (vis - d), 2 * (vis - d));
  sparsity := fun c => Ok (abs c, if c <? 0 then -1 else 1);
  TV_image := fun _ => Ok (0, 0);
  entropy := fun c p => Ok (c * c / p, 2 * c / p);
  TSV := fun c => Ok (c * c, 2 * c);
  GriddedResidualConnector := fun m d => Ok (d, d - value m);
  residuals_call := fun r m => Ok (fst r, fst r - value m);
  render := fun m r => Ok (value m, snd r);
  float_zero := 0;
  float_add := PrimFloat.add
|}.

(** The same stand-ins where no figure can be drawn. *)
Definition headless : Collab := {|
  Scalar := float;
  Tensor := float * float;
  Cube := float;
  Vis := float;
  Model := pixel;
  Optim := float;
  Dataset := float;
  StateDict := float;
  Connector := float * float;
  Figure := float * float;
  model_train := fun m => mkPixel (value m) (grad m) true;
  model_eval := fun m => mkPixel (value m) (grad m) false;
  model_forward := fun m => Ok (value m, m);
  sky_cube := value;
  load_state_dict := fun m sd => Ok (mkPixel sd (grad m) (training m));
  torch_load := fun path => Ok (if String.eqb path "model.pt" then 3 else 0);
  Adam := fun _ lr => lr;
  zero_grad := fun _ m => mkPixel (value m) 0 (training m);
  step := fun o m => Ok (o, mkPixel (value m - o * grad m) (grad m) (training m));
  backward := fun t m => Ok (mkPixel (value m) (grad m + snd t) (training m));
  item := fst;
  tensor_add := fun a b => (fst a + fst b, snd a + snd b);
  scalar_mul := fun x t => (x * fst t, x * snd t);
  nll_gridded := fun vis d => Ok ((vis - d) * (vis - d), 2 * (vis - d));
  sparsity := fun c => Ok (abs c, if c <? 0 then -1 else 1);
  TV_image := fun _ => Ok (0, 0);
  entropy := fun c p => Ok (c * c / p, 2 * c / p);
  TSV := fun c => Ok (c * c, 2 * c);
  GriddedResidualConnector := fun m d => Ok (d, d - value m);
  residuals_call := fun r m => Ok (fst r, fst r - value m);
  render := fun _ _ => Raise (RuntimeError "no display");
  float_zero := 0;
  float_add := PrimFloat.add
|}.

End ToyLoop.

(** ** Reasoning about methods

    [follows R c1 c2] compares a run without a writer, [c1], with a run
    [c2] from a state that has the same model and the same optimizer, and
    any writer.  Either the two end alike (both return, with values related
    by [R], or both raise the same exception), in states that again have the
    same model and optimizer, the first still without a writer; or the
    second ends with an exception that a call made to draw a figure
    raises. *)

Module MethLogic.

Import Tutorial LoopSpec.

Section WithCollab.

Variable K : Collab.

Definition alike {A B} (R : A -> B -> Prop) (r1 : result A) (r2 : result B) : Prop :=
  match r1, r2 with
  | Ok a, Ok b => R a b
  | Raise e1, Raise e2 => e1 = e2
  | _, _ => False
  end.

Definition follows {A B} (R : A -> B -> Prop) (c1 : method K A) (c2 : method K B)
  : Prop :=
  forall s1 s2, writer s1 = None -> core s1 = core s2 ->
    (alike R (fst (c1 s1)) (fst (c2 s2)) /\
     core (snd (c1 s1)) = core (snd (c2 s2)) /\ writer (snd (c1 s1)) = None)
    \/ exists e, fst (c2 s2) = Raise e /\ drawing_raises K e.

End WithCollab.

End MethLogic.

(** ** mpol/images.py: the accessors [image] and [extent] *)

Module Accessors.

(** [np.fft.ifftshift] on a 1-D array: rotate by [-(n//2)]. *)
Definition ifftshift {A} (l : list A) : list A :=
  let k := Nat.div (length l) 2 in
  skipn k l ++ firstn k l.

(** [np.fft.ifftshift] on a 2-D array: every axis is rotated. *)
Definition ifftshift2 {A} (x : list (list A)) : list (list A) :=
  ifftshift (map ifftshift x).

(** [np.fliplr]: the columns in reverse order. *)
Definition fliplr {A} (x : list (list A)) : list (list A) := map (@rev A) x.

(** [np.min] and [np.max] of a 1-D array; an empty array is refused. *)
Definition np_min (l : list Q) : result Q :=
  match l with
  | [] => Raise (ValueError "zero-size array to reduction operation minimum which has no identity")
  | x :: t => Ok (fold_left Qmin t x)
  end.

Definition np_max (l : list Q) : result Q :=
  match l with
  | [] => Raise (ValueError "zero-size array to reduction operation maximum which has no identity")
  | x :: t => Ok (fold_left Qmax t x)
  end.

(** [image]: the pixel array in viewing order, a new array. *)
Definition image (self : Images.MpolImage) : Torch.matrix :=
  fliplr (ifftshift2 (Images._image self)).

(** [extent]: [[high, low, low, high]] in arcseconds.  ([arcsec] is a
    constant different from zero.) *)
Definition extent (G : Gridding) (self : Images.MpolImage) : result (list Q) :=
  lo <- np_min (Images.ll self) ;;
  hi <- np_max (Images.ll self) ;;
  let low := (lo / arcsec G)%Q in
  let high := (hi / arcsec G)%Q in
  Ok [high; low; low; high].

(** The instance after its parameter [_image] has been given new values
    (what an optimizer step does, in place). *)
Definition with_image (x : Torch.matrix) (self : Images.MpolImage) : Images.MpolImage :=
  Images.mkMpolImage (Images.npix self) (Images.cell_size self) (Images.ll self)
    (Images.dll self) (Images.us self) (Images.vs self) x (Images.corrfun self)
    (Images.C_re self) (Images.C_im self).

(** every pixel times [a] *)
Definition brighten (a : Q) (x : Torch.matrix) : Torch.matrix :=
  map (map (Qmult a)) x.

(** [u] is [a] times [v], for numbers and for (real, imaginary) pairs *)
Definition scaled (a u v : Q) : Prop := (u == a * v)%Q.
Definition cscaled (a : Q) (u v : Torch.cplx) : Prop :=
  scaled a (fst u) (fst v) /\ scaled a (snd u) (snd v).

(** the pixel-wise sum of two pixel arrays *)
Definition superpose (x y : Torch.matrix) : Torch.matrix :=
  Torch.map2 (Torch.map2 Qplus) x y.

(** three lists of one length, related entry by entry *)
Inductive Forall3 {A B C} (R : A -> B -> C -> Prop)
  : list A -> list B -> list C -> Prop :=
| Forall3_nil : Forall3 R [] [] []
| Forall3_cons (a : A) (b : B) (c : C) (la : list A) (lb : list B) (lc : list C) :
    R a b c -> Forall3 R la lb lc -> Forall3 R (a :: la) (b :: lb) (c :: lc).

(** [u] is [v + w], for numbers and for (real, imaginary) pairs *)
Definition sum_of (u v w : Q) : Prop := (u == v + w)%Q.
Definition csum_of (u v w : Torch.cplx) : Prop :=
  sum_of (fst u) (fst v) (fst w) /\ sum_of (snd u) (snd v) (snd w).

End Accessors.

(** ** What the sink has received, by tag and step *)

Module SinkLog.

Import Tutorial.

Section WithCollab.

Variable K : Collab.

(** the tag and the [global_step] of a record *)
Definition label (r : record K) : string * option Z :=
  match r with
  | add_scalar _ tag _ global_step => (tag, global_step)
  | add_figure _ tag _ global_step => (tag, global_step)
  end.

(** the labels of what the writer of a state has received, in order;
    [None] without a writer *)
Definition received (s : State K) : option (list (string * option Z)) :=
  option_map (map label) (writer s).

(** the labels [train] writes over the iterations given: at each multiple
    of [logevery], the loss and then the image *)
Definition stride_labels (logevery : Z) (iterations : list Z)
  : list (string * option Z) :=
  flat_map (fun i => if i mod logevery =? 0
                     then [("loss"%string, Some i); ("image"%string, Some i)]
                     else []) iterations.

(** the labels [cross_validate] writes: those of the training run of
    each fold, then the score *)
Definition cross_validation_labels (epochs : Z) (folds : nat)
  : list (string * option Z) :=
  concat (repeat (stride_labels 50 (Np.arange epochs)) folds)
  ++ [("Cross Validation"%string, None)].

End WithCollab.

End SinkLog.

(** * Properties of the image model *)

Import Torch Images.

Lemma arange_length (n : Z) : length (Np.arange n) = Z.to_nat n.
Proof. unfold Np.arange. now rewrite length_map, length_seq. Qed.

Lemma arange_nth (n : Z) (i : nat) (d : Z) :
  (i < Z.to_nat n)%nat -> nth i (Np.arange n) d = Z.of_nat i.
Proof.
  intros Hi. unfold Np.arange.
  rewrite nth_indep with (d' := Z.of_nat 0) by now rewrite length_map, length_seq.
  rewrite map_nth, seq_nth by assumption. reflexivity.
Qed.

Lemma map_arange_nth {A} (f : Z -> A) (n : Z) (i : nat) (d : A) :
  (i < Z.to_nat n)%nat -> nth i (map f (Np.arange n)) d = f (Z.of_nat i).
Proof.
  intros Hi.
  rewrite nth_indep with (d' := f 0) by now rewrite length_map, arange_length.
  rewrite map_nth. f_equal. now apply arange_nth.
Qed.

(** *** [forward] does not write to the receiver *)

Ltac meth_step :=
  match goal with
  | |- context [Meth.lift ?r _] => unfold Meth.lift at 1
  | |- context [match ?r with Ok _ => _ | Raise _ => _ end] => destruct r; simpl
  | |- context [match ?o with Some _ => _ | None => _ end] => destruct o; simpl
  end.

Lemma forward_state (G : Gridding) (m : MpolImage) :
  snd (forward G m) = m.
Proof.
  unfold forward, Meth.bind, Meth.get, Meth.lift, Meth.ret, getattr.
  repeat meth_step; reflexivity.
Qed.

(** ** C8 *)

(** C8. Evaluating [forward] twice in a row, from any state of the model,
    gives the same outcome both times (the same pair of prediction vectors,
    or the same exception), and neither evaluation changes the receiver:
    the pixel array, the apodization matrix and the cached operators are
    the ones it started with. *)
Theorem forward_twice_identical (G : Gridding) (m : MpolImage) :
  let (r1, m1) := forward G m in
  let (r2, m2) := forward G m1 in
  r1 = r2 /\ m1 = m /\ m2 = m /\
  _image m2 = _image m /\ corrfun m2 = corrfun m /\
  C_re m2 = C_re m /\ C_im m2 = C_im m.
Proof.
  pose proof (forward_state G m) as H1.
  destruct (forward G m) as [r1 m1] eqn:E1. simpl in H1. subst m1.
  rewrite E1. repeat split; reflexivity.
Qed.

(** *** Shapes through the pipeline *)

Lemma has_shapeb_true (n c : nat) (x : matrix) :
  has_shape n c x -> has_shapeb n c x = true.
Proof.
  revert n. induction x as [|r x IH]; intros n [Hl Hf]; simpl in *.
  - now subst n.
  - destruct n as [|n]; [discriminate|]. inversion Hf as [|? ? Hr Hx].
    simpl. rewrite Hr, Nat.eqb_refl. simpl. apply IH. split; [lia|assumption].
Qed.

Lemma has_shape_first_row (n c : nat) (x : matrix) :
  (0 < n)%nat -> has_shape n c x ->
  length x = n /\ length (hd [] x) = c /\
  match x with [] => O | r :: _ => length r end = c.
Proof.
  intros Hn [Hl Hf]. destruct x as [|r x]; simpl in *; [lia|].
  inversion Hf as [|? ? Hr Hx]. auto.
Qed.

Lemma map2_length {A B C} (f : A -> B -> C) (l : list A) (l' : list B) :
  length l = length l' -> length (map2 f l l') = length l.
Proof.
  revert l'. induction l as [|a l IH]; intros [|b l'] H; simpl in *;
    try reflexivity; try discriminate. f_equal. apply IH. lia.
Qed.

Lemma apodize_shape (n c : nat) (x y : matrix) :
  has_shape n c x -> has_shape n c y -> has_shape n c (Spec.apodize x y).
Proof.
  unfold Spec.apodize. revert n y.
  induction x as [|r x IH]; intros n y [Hl Hf] [Hl' Hf']; simpl in *.
  - split; [assumption|constructor].
  - destruct y as [|r' y]; simpl in *; [subst n; discriminate|].
    inversion Hf as [|? ? Hr Hx]; inversion Hf' as [|? ? Hr' Hy].
    destruct (IH (length x) y) as [IHl IHf].
    + split; [reflexivity|assumption].
    + split; [lia|assumption].
    + split; simpl; [now rewrite IHl|].
      constructor; [|assumption]. rewrite map2_length; congruence.
Qed.

Lemma shape2_of (n c : nat) (x : matrix) :
  (0 < n)%nat -> has_shape n c x -> shape2 x = (n, c).
Proof.
  intros Hn Hx. destruct (has_shape_first_row Hn Hx) as (Hl & Hh & _).
  unfold shape2. now rewrite Hl, Hh.
Qed.

Lemma is_tensor_of (n c : nat) (x : matrix) :
  (0 < n)%nat -> has_shape n c x -> is_tensor x = true.
Proof.
  intros Hn Hx. unfold is_tensor. rewrite (shape2_of Hn Hx). simpl.
  now apply has_shapeb_true.
Qed.

Lemma expand_to_length {A} (l : list A) : expand_to (length l) l = l.
Proof. destruct l as [|a [|b l]]; reflexivity. Qed.

(** Expanding a tensor to its own shape changes nothing. *)
Lemma expand_same (n c : nat) (x : matrix) :
  has_shape n c x -> expand n c x = x.
Proof.
  intros [Hl Hf]. unfold expand. rewrite <- Hl, expand_to_length.
  clear Hl. induction Hf as [|r x Hr _ IH]; [reflexivity|].
  simpl. now rewrite <- Hr, expand_to_length, Hr, IH.
Qed.

Lemma mul_ok (n : nat) (x y : matrix) :
  (0 < n)%nat -> has_shape n n x -> has_shape n n y ->
  mul x y = Ok (Spec.apodize x y).
Proof.
  intros Hn Hx Hy. unfold mul.
  rewrite (is_tensor_of Hn Hx), (is_tensor_of Hn Hy).
  rewrite (shape2_of Hn Hx), (shape2_of Hn Hy). simpl.
  unfold broadcast_dim. rewrite Nat.eqb_refl.
  now rewrite (expand_same Hx), (expand_same Hy).
Qed.

Lemma concat_length_rows {A} (c : nat) (x : list (list A)) :
  Forall (fun r => length r = c) x -> length (concat x) = (length x * c)%nat.
Proof.
  induction 1 as [|r x Hr _ IH]; simpl; [reflexivity|].
  rewrite length_app, IH, Hr. reflexivity.
Qed.

Lemma rfft_rows (tw : Z -> Z -> cplx) (x : matrix) :
  length (rfft tw x) = length x /\
  Forall (fun r => length r = Z.to_nat (Z.of_nat (length (hd [] x)) / 2 + 1))
         (rfft tw x).
Proof.
  unfold rfft. split.
  - rewrite length_map, arange_length. apply Nat2Z.id.
  - apply Forall_forall. intros r Hr. apply in_map_iff in Hr.
    destruct Hr as (k & <- & _). now rewrite length_map, arange_length.
Qed.

Lemma plane_length {A} (f : cplx -> A) (s : Q) (tw : Z -> Z -> cplx)
  (n : nat) (x : matrix) :
  (0 < n)%nat -> has_shape n n x ->
  length (concat (map (map f) (map (map (cscale s)) (rfft tw x))))
  = (n * Z.to_nat (Z.of_nat n / 2 + 1))%nat.
Proof.
  intros Hn Hx. destruct (has_shape_first_row Hn Hx) as (Hl & Hh & _).
  destruct (rfft_rows tw x) as [Hr Hf]. rewrite Hh in Hf.
  rewrite concat_length_rows with (c := Z.to_nat (Z.of_nat n / 2 + 1)).
  - now rewrite !length_map, Hr, Hl.
  - apply Forall_forall. intros r Hin.
    apply in_map_iff in Hin. destruct Hin as (r1 & <- & Hin).
    apply in_map_iff in Hin. destruct Hin as (r2 & <- & Hin).
    rewrite !length_map. rewrite Forall_forall in Hf. now apply Hf.
Qed.

Lemma sparse_mm_ok (C : sparse) (v : list Q) :
  snd (sp_size C) = Z.of_nat (length v) ->
  sparse_mm C v = Ok (map (row_dot C v) (Np.arange (fst (sp_size C)))).
Proof. intros H. unfold sparse_mm. now rewrite H, Z.eqb_refl. Qed.

(** [forward] on a model that is ready for a dataset. *)
Lemma forward_precached (G : Gridding) (m : MpolImage)
  (n : nat) (Cre Cim : sparse) :
  (0 < n)%nat -> has_shape n n (_image m) -> has_shape n n (corrfun m) ->
  C_re m = Some Cre -> C_im m = Some Cim ->
  snd (sp_size Cre) = Z.of_nat (n * Z.to_nat (Z.of_nat n / 2 + 1)) ->
  sp_size Cim = sp_size Cre ->
  forward G m =
  (Ok (Spec.forward_spec (twiddle G) (_image m) (corrfun m) (dll m) Cre Cim), m).
Proof.
  intros Hn Hi Hc Ere Eim Hs Hs'.
  unfold forward, Meth.bind, Meth.get, Meth.lift, Meth.ret, getattr.
  rewrite (mul_ok Hn Hi Hc), Ere, Eim.
  pose proof (apodize_shape Hi Hc) as Ha.
  rewrite sparse_mm_ok by (rewrite Hs; symmetry; f_equal; exact (plane_length fst _ _ Hn Ha)).
  rewrite sparse_mm_ok by (rewrite Hs', Hs; symmetry; f_equal; exact (plane_length snd _ _ Hn Ha)).
  reflexivity.
Qed.

(** *** What a successful construction has done *)

Ltac bind_inv H :=
  match type of H with
  | Py.bind ?c _ = Ok _ =>
      let E := fresh "E" in
      destruct c eqn:E; simpl in H; [|discriminate H]
  end.

Lemma truediv_inv (a b q : Q) :
  truediv a b = Ok q -> ~ (b == 0)%Q /\ q = (a / b)%Q.
Proof.
  unfold truediv. destruct (Qeq_bool b 0) eqn:E; [discriminate|].
  intros [= <-]. split; [|reflexivity].
  intros Hb. apply Qeq_bool_iff in Hb. congruence.
Qed.

(** A cell size whose value in radians underflows: the assertions apart,
    and unless [gridding.fftspace] raises on the zero radius, the division
    in [np.fft.rfftfreq] (or the one by [npix = 0] before it) is by zero. *)
Lemma init_underflow (G : Gridding) (npix : Z) (cs : Q) (ds : option UVDataset) :
  underflows (cs * arcsec G) = true ->
  exists e,
    __init__ G npix cs ds = Raise e /\
    (exn_class e = "AssertionError"%string \/
     fftspace G 0 npix = Raise e \/ e = ZeroDivisionError).
Proof.
  intros Eu. unfold __init__, fmul. rewrite Eu.
  destruct (assert (npix mod 2 =? 0) _) as [[]|e] eqn:E1;
    [|exists e; unfold assert in E1; destruct (_ =? _); [discriminate E1|];
      injection E1 as <-; simpl; auto].
  simpl.
  destruct (assert (negb (Qle_bool cs 0)) _) as [[]|e] eqn:E2;
    [|exists e; unfold assert in E2; destruct (negb _); [discriminate E2|];
      injection E2 as <-; simpl; auto].
  simpl. change (0 * inject_Z (npix / 2))%Q with 0%Q.
  destruct (fftspace G 0 npix) as [l|e]; [|exists e; simpl; auto].
  simpl. exists ZeroDivisionError. split; [|auto].
  unfold truediv at 1.
  destruct (Qeq_bool (inject_Z npix) 0) eqn:EN; [reflexivity|]. simpl.
  unfold truediv at 1. rewrite EN. simpl.
  unfold Np.rfftfreq, truediv.
  assert (Qeq_bool (inject_Z npix * (2 * 0 / inject_Z npix)) 0 = true) as ->.
  { apply Qeq_bool_iff. unfold Qdiv. ring. }
  reflexivity.
Qed.

Lemma init_inv (G : Gridding) (npix : Z) (cs : Q) (ds : option UVDataset)
  (m : MpolImage) (out : list string) :
  __init__ G npix cs ds = Ok (m, out) ->
  npix mod 2 = 0 /\ (0 < cs)%Q /\ 0 < npix /\
  exists ll0 cf,
    fftspace G (cs * arcsec G * inject_Z (npix / 2))%Q npix = Ok ll0 /\
    corrfun_mat G (Np.fftshift ll0) (Np.fftshift ll0) = Ok cf /\
    match ds with
    | None => m = constructed G npix cs ll0 cf /\ out = [precache_hint]
    | Some d =>
        precache_interpolation G d (constructed G npix cs ll0 cf) = (Ok tt, m)
        /\ out = []
    end.
Proof.
  intros H.
  destruct (underflows (cs * arcsec G)) eqn:Eu.
  { destruct (init_underflow G npix cs ds Eu) as (e & He & _).
    rewrite He in H. discriminate H. }
  unfold __init__, fmul in H. rewrite Eu in H. repeat bind_inv H.
  repeat match goal with
  | E : assert ?c _ = Ok _ |- _ =>
      unfold assert in E; destruct c eqn:?; [clear E|discriminate E]
  | E : truediv _ _ = Ok _ |- _ =>
      apply truediv_inv in E; destruct E as [? ->]
  | E : ones _ _ = Ok _ |- _ =>
      unfold ones in E; destruct (_ || _) eqn:?; [discriminate E|];
      injection E as <-
  | E : Np.rfftfreq _ _ = Ok _ |- _ =>
      unfold Np.rfftfreq in E; bind_inv E; injection E as <-
  | E : Np.fftfreq _ _ = Ok _ |- _ =>
      unfold Np.fftfreq in E; bind_inv E;
      destruct (npix <? 0) eqn:?; [discriminate E|]; injection E as <-
  end.
  match goal with E : (_ =? 0) = true |- _ => apply Z.eqb_eq in E; rename E into Hev end.
  match goal with E : negb _ = true |- _ =>
    apply negb_true_iff in E; rename E into Hc end.
  match goal with E : (npix <? 0) = false |- _ => apply Z.ltb_ge in E; rename E into Hge end.
  assert (Hcs : (0 < cs)%Q).
  { apply Qnot_le_lt. intros Hle. apply Qle_bool_iff in Hle. congruence. }
  assert (Hpos : 0 < npix).
  { destruct (Z.eq_dec npix 0) as [->|]; [|lia].
    match goal with Hn : ~ (inject_Z 0 == 0)%Q |- _ => exfalso; apply Hn; reflexivity end. }
  repeat split; try assumption.
  match goal with
  | E1 : fftspace G _ _ = Ok ?l, E2 : corrfun_mat G _ _ = Ok ?c |- _ =>
      exists l, c; repeat split; try assumption;
      fold (constructed G npix cs l c) in H
  end.
  destruct ds as [d|].
  - match type of H with
    | context [precache_interpolation G d ?m0] =>
        destruct (precache_interpolation G d m0) as [[[]|e] m']; [|discriminate]
    end.
    injection H as <- <-. split; reflexivity.
  - injection H as <- <-. split; reflexivity.
Qed.

Lemma sparse_tensor_inv (r c : list Z) (v : list Q) (sz : Z * Z) (s : sparse) :
  sparse_tensor r c v sz = Ok s -> s = mkSparse r c v sz.
Proof.
  unfold sparse_tensor.
  repeat match goal with |- context [if ?b then _ else _] => destruct b end;
    try discriminate.
  now intros [= <-].
Qed.

Lemma precache_inv (G : Gridding) (d : UVDataset) (m0 m : MpolImage) :
  precache_interpolation G d m0 = (Ok tt, m) ->
  exists Cre Cim,
    calc_matrices G (uu d) (vv d) (us m0) (vs m0) = Ok (Cre, Cim) /\
    m = mkMpolImage (npix m0) (cell_size m0) (ll m0) (dll m0) (us m0) (vs m0)
          (_image m0) (corrfun m0)
          (Some (mkSparse (row Cre) (col Cre) (data Cre) (shape Cre)))
          (Some (mkSparse (row Cim) (col Cim) (data Cim) (shape Cre))).
Proof.
  unfold precache_interpolation, Meth.bind, Meth.get, Meth.lift, set_C_re, set_C_im.
  destruct (calc_matrices G (uu d) (vv d) (us m0) (vs m0)) as [[Cre Cim]|e];
    [|discriminate].
  destruct (sparse_tensor (row Cre) (col Cre) (data Cre) (shape Cre)) as [sre|e] eqn:Ere;
    [|discriminate].
  destruct (sparse_tensor (row Cim) (col Cim) (data Cim) (shape Cre)) as [sim|e] eqn:Eim;
    [|discriminate].
  apply sparse_tensor_inv in Ere, Eim. subst sre sim. simpl.
  intros [= <-]. exists Cre, Cim. split; reflexivity.
Qed.

Lemma fftshift_length {A} (l : list A) : length (Np.fftshift l) = length l.
Proof.
  unfold Np.fftshift. rewrite length_app, length_skipn, length_firstn.
  assert (Nat.div (length l) 2 <= length l)%nat
    by (apply Nat.Div0.div_le_upper_bound; lia).
  lia.
Qed.

Lemma ones_shape (n : nat) : has_shape n n (repeat (repeat 1%Q n) n).
Proof.
  split; [apply repeat_length|]. apply Forall_forall. intros r Hr.
  apply repeat_spec in Hr. subst r. apply repeat_length.
Qed.

Lemma constructed_axes (G : Gridding) (npix : Z) (cs : Q) (l : list Q) (c : matrix) :
  0 < npix -> npix mod 2 = 0 ->
  length (us (constructed G npix cs l c)) = Z.to_nat (npix / 2 + 1) /\
  length (vs (constructed G npix cs l c)) = Z.to_nat npix.
Proof.
  intros Hp He. unfold constructed; simpl.
  rewrite !length_map, length_app, length_map, !arange_length.
  split; [reflexivity|].
  assert (npix = 2 * (npix / 2)) by (apply Z.div_exact in He; lia).
  assert ((npix - 1) / 2 = npix / 2 - 1).
  { symmetry. apply Z.div_unique with (r := 1); lia. }
  lia.
Qed.

Lemma constructed_precached (G : Gridding) (L : GriddingLaws G) (npix : Z) (cs : Q)
  (l : list Q) (c : matrix) (d : UVDataset) (m : MpolImage) :
  0 < npix -> npix mod 2 = 0 ->
  fftspace G (cs * arcsec G * inject_Z (npix / 2))%Q npix = Ok l ->
  corrfun_mat G (Np.fftshift l) (Np.fftshift l) = Ok c ->
  precache_interpolation G d (constructed G npix cs l c) = (Ok tt, m) ->
  precached d m.
Proof.
  intros Hpos Hev El Ec Hp.
  apply precache_inv in Hp. destruct Hp as (Cre & Cim & Ecm & ->).
  destruct (fftspace_length L (cs * arcsec G * inject_Z (npix / 2))%Q Hpos Hev)
    as (l' & El' & Hlen).
  rewrite El in El'. injection El' as <-.
  destruct (corrfun_mat_shape L (Np.fftshift l) (Np.fftshift l)) as (c' & Ec' & Hc).
  rewrite Ec in Ec'. injection Ec' as <-.
  rewrite fftshift_length, Hlen in Hc.
  pose proof (calc_matrices_shape L _ _ _ _ Ecm) as Hs.
  destruct (constructed_axes G cs l c Hpos Hev) as [Hu Hv].
  rewrite Hu, Hv in Hs.
  exists (Z.to_nat npix), (mkSparse (row Cre) (col Cre) (data Cre) (shape Cre)),
         (mkSparse (row Cim) (col Cim) (data Cim) (shape Cre)).
  simpl. repeat split; try reflexivity; try (apply ones_shape); try apply Hc; try lia.
  rewrite Hs, Z2Nat.id by lia. reflexivity.
Qed.

(** Construction with a dataset leaves the model ready for it. *)
Lemma init_precached (G : Gridding) (L : GriddingLaws G) (npix : Z) (cs : Q)
  (d : UVDataset) (m : MpolImage) (out : list string) :
  __init__ G npix cs (Some d) = Ok (m, out) -> precached d m.
Proof.
  intros H. apply init_inv in H.
  destruct H as (Hev & Hcs & Hpos & l & c & El & Ec & Hp & _).
  eapply constructed_precached; eassumption.
Qed.

(** So does an explicit call of [precache_interpolation] on a model that
    was constructed without a dataset. *)
Lemma late_precached (G : Gridding) (L : GriddingLaws G) (npix : Z) (cs : Q)
  (d : UVDataset) (m0 m : MpolImage) (out : list string) :
  __init__ G npix cs None = Ok (m0, out) ->
  precache_interpolation G d m0 = (Ok tt, m) -> precached d m.
Proof.
  intros H Hp. apply init_inv in H.
  destruct H as (Hev & Hcs & Hpos & l & c & El & Ec & -> & _).
  eapply constructed_precached; eassumption.
Qed.

(** ** C1 *)

(** C1. On an image model with precached interpolation operators,
    [forward] returns the pair computed in four steps: the pixel array
    times the cached apodization correction, entry by entry; the
    two-dimensional real-input transform of the product, scaled by the
    square of [dll] (the quantity the specification calls the pixel
    differential area); its real and imaginary planes; and the cached sparse
    operators applied to the flattened planes.  Each vector has one entry
    per visibility sample of the bound dataset, and entry [k] is row [k] of
    the operator applied to the plane: the order of the dataset. *)
Theorem forward_computes_prediction (G : Gridding) (dataset : UVDataset)
  (m : MpolImage) :
  precached dataset m ->
  exists Cre Cim,
    C_re m = Some Cre /\ C_im m = Some Cim /\
    let ft := Spec.scaled_transform (twiddle G) (dll m)
                (Spec.apodize (_image m) (corrfun m)) in
    let re := Spec.interpolate Cre (Spec.real_plane ft) in
    let im := Spec.interpolate Cim (Spec.imag_plane ft) in
    forward G m = (Ok (re, im), m) /\
    length re = length (uu dataset) /\ length im = length (uu dataset) /\
    forall k, (k < length (uu dataset))%nat ->
      nth k re 0%Q = row_dot Cre (concat (Spec.real_plane ft)) (Z.of_nat k) /\
      nth k im 0%Q = row_dot Cim (concat (Spec.imag_plane ft)) (Z.of_nat k).
Proof.
  intros (n & Cre & Cim & Hn & Hi & Hc & Ere & Eim & Hs & Hs').
  exists Cre, Cim. split; [assumption|]. split; [assumption|]. cbv zeta.
  split.
  - apply (@forward_precached G m n Cre Cim); try assumption.
    now rewrite Hs.
  - unfold Spec.interpolate. rewrite !length_map, !arange_length, Hs', Hs. simpl.
    rewrite Nat2Z.id. repeat split;
      apply map_arange_nth; now rewrite Nat2Z.id.
Qed.

(** The stand-in gridding module keeps the promises of [GriddingLaws]. *)
Lemma toy_gridding_laws : GriddingLaws Toy.gridding.
Proof.
  constructor.
  - reflexivity.
  - intros w N HN Hev. unfold fftspace; simpl. unfold Toy.fftspace, assert.
    apply Z.eqb_eq in Hev. rewrite Hev. simpl. unfold truediv.
    destruct (Qeq_bool (inject_Z N) 0) eqn:E.
    + apply Qeq_bool_iff in E. unfold Qeq, inject_Z in E. simpl in E. lia.
    + simpl. eexists. split; [reflexivity|]. now rewrite length_map, arange_length.
  - intros a b. eexists. split; [reflexivity|]. split; [apply length_map|].
    apply Forall_forall. intros r Hr. apply in_map_iff in Hr.
    destruct Hr as (x & <- & _). apply length_map.
  - intros u v us vs Cre Cim. simpl. unfold Toy.calc_matrices.
    destruct (_ =? 0); [discriminate|]. intros [= <- <-]. reflexivity.
Qed.

Lemma forward_computes_prediction_witness :
  exists m,
    Toy.new 4 1 (Some Toy.dataset3) = Some m /\
    precached Toy.dataset3 m /\
    exists Cre Cim,
      C_re m = Some Cre /\ C_im m = Some Cim /\
      let ft := Spec.scaled_transform (twiddle Toy.gridding) (dll m)
                  (Spec.apodize (_image m) (corrfun m)) in
      let re := Spec.interpolate Cre (Spec.real_plane ft) in
      let im := Spec.interpolate Cim (Spec.imag_plane ft) in
      forward Toy.gridding m = (Ok (re, im), m) /\
      length re = length (uu Toy.dataset3) /\ length im = length (uu Toy.dataset3) /\
      forall k, (k < length (uu Toy.dataset3))%nat ->
        nth k re 0%Q = row_dot Cre (concat (Spec.real_plane ft)) (Z.of_nat k) /\
        nth k im 0%Q = row_dot Cim (concat (Spec.imag_plane ft)) (Z.of_nat k).
Proof.
  destruct (Toy.new 4 1 (Some Toy.dataset3)) as [m|] eqn:E; [|discriminate E].
  exists m. split; [reflexivity|].
  assert (P : precached Toy.dataset3 m).
  { unfold Toy.new in E.
    destruct (__init__ Toy.gridding 4 1 (Some Toy.dataset3)) as [[m' out]|e] eqn:Ei;
      [|discriminate E].
    injection E as ->. eapply init_precached; [exact toy_gridding_laws|exact Ei]. }
  split; [exact P|].
  exact (forward_computes_prediction Toy.gridding P).
Defined.

(** *** Construction on a valid grid *)


Lemma truediv_ok (a b : Q) : (0 < b)%Q -> truediv a b = Ok (a / b)%Q.
Proof.
  intros Hb. unfold truediv. destruct (Qeq_bool b 0) eqn:E; [|reflexivity].
  apply Qeq_bool_iff in E. rewrite E in Hb. now apply Qlt_irrefl in Hb.
Qed.


Lemma truediv_nz (a b : Q) : ~ (b == 0)%Q -> truediv a b = Ok (a / b)%Q.
Proof.
  intros Hb. unfold truediv. destruct (Qeq_bool b 0) eqn:E; [|reflexivity].
  apply Qeq_bool_iff in E. contradiction.
Qed.

Lemma underflows_nonzero (x : Q) : underflows x = false -> ~ (x == 0)%Q.
Proof.
  intros Hu Hx. assert (H : underflows x = true); [|congruence].
  unfold underflows. apply Qle_bool_iff. rewrite Hx. vm_compute. discriminate.
Qed.

Lemma sample_spacing_nonzero (N h a : Q) :
  ~ (N == 0)%Q -> ~ (h == 0)%Q -> ~ (a == 0)%Q ->
  ~ (N * (2 * (a * h) / N) == 0)%Q.
Proof.
  intros HN Hh Ha E. apply Ha.
  transitivity (N * (2 * (a * h) / N) / (2 * h))%Q.
  - field. split; assumption.
  - rewrite E. unfold Qdiv. ring.
Qed.

Lemma inject_Z_nonzero (z : Z) : z <> 0 -> ~ (inject_Z z == 0)%Q.
Proof. intros H. unfold Qeq, inject_Z; simpl. lia. Qed.

(** On an even positive [npix] and a positive [cell_size] whose value in
    radians does not underflow, [__init__] is the two calls into
    [mpol.gridding] followed by the precaching, when a dataset is given;
    everything else returns. *)
Lemma init_exact (G : Gridding) (npix : Z) (cs : Q) :
  0 < npix -> npix mod 2 = 0 -> (0 < cs)%Q -> underflows (cs * arcsec G) = false ->
  forall ds,
    __init__ G npix cs ds =
    (l <- fftspace G (cs * arcsec G * inject_Z (npix / 2))%Q npix ;;
     c <- corrfun_mat G (Np.fftshift l) (Np.fftshift l) ;;
     match ds with
     | None => Ok (constructed G npix cs l c, [precache_hint])
     | Some d =>
         match precache_interpolation G d (constructed G npix cs l c) with
         | (Ok _, m) => Ok (m, [])
         | (Raise e, _) => Raise e
         end
     end)%py.
Proof.
  intros Hp He Hc Hu ds.
  unfold __init__, fmul, assert. rewrite Hu.
  apply Z.eqb_eq in He. rewrite He. simpl.
  assert (Qle_bool cs 0 = false) as ->.
  { destruct (Qle_bool cs 0) eqn:E; [|reflexivity].
    apply Qle_bool_iff in E. exfalso. eapply Qlt_not_le; eassumption. }
  simpl.
  destruct (fftspace G (cs * arcsec G * inject_Z (npix / 2))%Q npix) as [l|e];
    [|reflexivity].
  simpl. apply Z.eqb_eq in He.
  assert (HN : ~ (inject_Z npix == 0)%Q) by (apply inject_Z_nonzero; lia).
  assert (Hh : ~ (inject_Z (npix / 2) == 0)%Q).
  { apply inject_Z_nonzero. apply Z.div_exact in He; lia. }
  pose proof (sample_spacing_nonzero HN Hh (underflows_nonzero Hu)) as Hd.
  rewrite !(truediv_nz _ HN). simpl.
  unfold Np.rfftfreq, Np.fftfreq.
  rewrite !(truediv_nz _ Hd). simpl.
  assert ((npix <? 0) = false) as -> by (apply Z.ltb_ge; lia). simpl.
  unfold ones. assert ((npix <? 0) = false) as -> by (apply Z.ltb_ge; lia). simpl.
  destruct (corrfun_mat G (Np.fftshift l) (Np.fftshift l)) as [c|e]; [|reflexivity].
  simpl. destruct ds; reflexivity.
Qed.

Lemma init_constructed (G : Gridding) (L : GriddingLaws G) (npix : Z) (cs : Q) :
  0 < npix -> npix mod 2 = 0 -> (0 < cs)%Q -> underflows (cs * arcsec G) = false ->
  exists l c,
    fftspace G (cs * arcsec G * inject_Z (npix / 2))%Q npix = Ok l /\
    corrfun_mat G (Np.fftshift l) (Np.fftshift l) = Ok c /\
    forall ds,
      __init__ G npix cs ds =
      match ds with
      | None => Ok (constructed G npix cs l c, [precache_hint])
      | Some d =>
          match precache_interpolation G d (constructed G npix cs l c) with
          | (Ok _, m) => Ok (m, [])
          | (Raise e, _) => Raise e
          end
      end.
Proof.
  intros Hp He Hc Hu.
  destruct (fftspace_length L (cs * arcsec G * inject_Z (npix / 2))%Q Hp He)
    as (l & El & _).
  destruct (corrfun_mat_shape L (Np.fftshift l) (Np.fftshift l)) as (c & Ec & _).
  exists l, c. split; [assumption|]. split; [assumption|]. intros ds.
  rewrite (init_exact G Hp He Hc Hu ds), El. simpl. rewrite Ec. reflexivity.
Qed.

Lemma init_odd (G : Gridding) (npix : Z) (cs : Q) (ds : option UVDataset) :
  npix mod 2 <> 0 ->
  __init__ G npix cs ds = Raise (mkExn "AssertionError" "npix must be even (for now)").
Proof.
  intros H. unfold __init__, assert.
  destruct (npix mod 2 =? 0) eqn:E; [apply Z.eqb_eq in E; contradiction|reflexivity].
Qed.

Lemma init_cell_size (G : Gridding) (npix : Z) (cs : Q) (ds : option UVDataset) :
  npix mod 2 = 0 -> (cs <= 0)%Q ->
  __init__ G npix cs ds
  = Raise (mkExn "AssertionError" "cell_size must be positive (arcseconds)").
Proof.
  intros He Hc. unfold __init__, assert.
  apply Z.eqb_eq in He. rewrite He. simpl.
  apply Qle_bool_iff in Hc. rewrite Hc. reflexivity.
Qed.

Lemma init_nonpositive (G : Gridding) (npix : Z) (cs : Q) (ds : option UVDataset) :
  npix <= 0 -> exists e, __init__ G npix cs ds = Raise e.
Proof.
  intros Hn.
  destruct (__init__ G npix cs ds) as [[m out]|e] eqn:E; [|now exists e].
  apply init_inv in E. lia.
Qed.

(** A positive cell size that underflows passes both assertions. *)
Lemma init_tiny_cell_size (G : Gridding) (npix : Z) (cs : Q) (ds : option UVDataset) :
  npix mod 2 = 0 -> (0 < cs)%Q -> underflows (cs * arcsec G) = true ->
  exists e,
    __init__ G npix cs ds = Raise e /\
    (fftspace G 0 npix = Raise e \/ e = ZeroDivisionError).
Proof.
  intros He Hc Hu. unfold __init__, fmul, assert. rewrite Hu.
  apply Z.eqb_eq in He. rewrite He. simpl.
  assert (Qle_bool cs 0 = false) as ->.
  { destruct (Qle_bool cs 0) eqn:E; [|reflexivity].
    apply Qle_bool_iff in E. exfalso. eapply Qlt_not_le; eassumption. }
  simpl. change (0 * inject_Z (npix / 2))%Q with 0%Q.
  destruct (fftspace G 0 npix) as [l|e]; [|exists e; split; [reflexivity|now left]].
  simpl. exists ZeroDivisionError. split; [|now right].
  unfold truediv at 1.
  destruct (Qeq_bool (inject_Z npix) 0) eqn:EN; [reflexivity|]. simpl.
  unfold truediv at 1. rewrite EN. simpl.
  unfold Np.rfftfreq, truediv.
  assert (Qeq_bool (inject_Z npix * (2 * 0 / inject_Z npix)) 0 = true) as ->.
  { apply Qeq_bool_iff. unfold Qdiv. ring. }
  reflexivity.
Qed.

(** ** C4 *)

(** C4 (amended). Construction fails whenever [npix] is odd or not
    positive, or [cell_size] is at most zero: with an [AssertionError] (no
    [ConfigurationError] exists) when [npix] is odd, and when [npix] is even
    and [cell_size <= 0]; with the exception of whichever later statement
    fails when [npix] is even and not positive.  A positive [cell_size] is
    not enough for success: one so small that its value in radians rounds
    to zero passes the assertion and ends in a [ZeroDivisionError] (unless
    [gridding.fftspace] has raised on the zero radius first).  For an even
    positive [npix] and a positive [cell_size] that does not underflow,
    construction returns exactly when the two calls into [mpol.gridding]
    return (and, with a dataset, [precache_interpolation] on the instance
    built so far); it then returns that instance, with the precaching hint
    printed when no dataset is given.  A gridding module that keeps its
    contract does return. *)
Theorem construction_guards (G : Gridding) (npix : Z) (cs : Q) :
  (npix mod 2 <> 0 ->
   forall ds, exists msg,
     __init__ G npix cs ds = Raise (mkExn "AssertionError" msg)) /\
  (npix mod 2 = 0 -> (cs <= 0)%Q ->
   forall ds, exists msg,
     __init__ G npix cs ds = Raise (mkExn "AssertionError" msg)) /\
  (npix <= 0 -> forall ds, exists e, __init__ G npix cs ds = Raise e) /\
  (npix mod 2 = 0 -> (0 < cs)%Q -> underflows (cs * arcsec G) = true ->
   forall ds, exists e,
     __init__ G npix cs ds = Raise e /\
     (fftspace G 0 npix = Raise e \/ e = ZeroDivisionError)) /\
  (0 < npix -> npix mod 2 = 0 -> (0 < cs)%Q -> underflows (cs * arcsec G) = false ->
   (forall ds m out,
      __init__ G npix cs ds = Ok (m, out) <->
      exists l c,
        fftspace G (cs * arcsec G * inject_Z (npix / 2))%Q npix = Ok l /\
        corrfun_mat G (Np.fftshift l) (Np.fftshift l) = Ok c /\
        match ds with
        | None => m = constructed G npix cs l c /\ out = [precache_hint]
        | Some d =>
            precache_interpolation G d (constructed G npix cs l c) = (Ok tt, m)
            /\ out = []
        end) /\
   (GriddingLaws G ->
    (exists m, __init__ G npix cs None = Ok (m, [precache_hint])) /\
    (forall d m0 out0 m,
       __init__ G npix cs None = Ok (m0, out0) ->
       precache_interpolation G d m0 = (Ok tt, m) ->
       __init__ G npix cs (Some d) = Ok (m, [])))).
Proof.
  split; [|split; [|split; [|split]]].
  - intros H ds. eexists. now apply init_odd.
  - intros He Hc ds. eexists. now apply init_cell_size.
  - intros H ds. now apply init_nonpositive.
  - intros He Hc Hu ds. now apply init_tiny_cell_size.
  - intros Hp He Hc Hu. split.
    + intros ds m out. split.
      * intros H. apply init_inv in H.
        destruct H as (_ & _ & _ & l & c & El & Ec & H). now exists l, c.
      * intros (l & c & El & Ec & H).
        rewrite (init_exact G Hp He Hc Hu ds), El. simpl. rewrite Ec. simpl.
        destruct ds as [d|].
        -- destruct H as [-> ->]. reflexivity.
        -- destruct H as [-> ->]. reflexivity.
    + intros L.
      destruct (init_constructed L Hp He Hc Hu) as (l & c & _ & _ & Hi). split.
      * eexists. apply (Hi None).
      * intros d m0 out0 m Hn Hq.
        rewrite (Hi None) in Hn. injection Hn as <- <-.
        rewrite (Hi (Some d)), Hq. reflexivity.
Qed.

Lemma construction_guards_witness :
  (3 mod 2 <> 0 /\
   forall ds, exists msg,
     __init__ Toy.gridding 3 1 ds = Raise (mkExn "AssertionError" msg)) /\
  (4 mod 2 = 0 /\ (0 < 1 # 2 ^ 1074)%Q /\
   underflows ((1 # 2 ^ 1074) * arcsec Toy.gridding) = true /\
   __init__ Toy.gridding 4 (1 # 2 ^ 1074) None = Raise ZeroDivisionError) /\
  (0 < 2 /\ 2 mod 2 = 0 /\ (0 < 1)%Q /\
   underflows (1 * arcsec Toy.gridding) = false /\ GriddingLaws Toy.gridding /\
   exists m, __init__ Toy.gridding 2 1 None = Ok (m, [precache_hint])).
Proof.
  split; [|split].
  - split; [discriminate|].
    apply (proj1 (construction_guards Toy.gridding 3 1)). discriminate.
  - split; [reflexivity|]. split; [reflexivity|]. split; [vm_compute; reflexivity|].
    destruct (proj1 (proj2 (proj2 (proj2
                (construction_guards Toy.gridding 4 (1 # 2 ^ 1074)))))
              eq_refl eq_refl ltac:(vm_compute; reflexivity) None)
      as (e & E & [H|H]).
    + vm_compute in H. discriminate H.
    + now rewrite <- H.
  - split; [reflexivity|]. split; [reflexivity|]. split; [reflexivity|].
    split; [vm_compute; reflexivity|]. split; [exact toy_gridding_laws|].
    destruct (construction_guards Toy.gridding 2 1) as (_ & _ & _ & _ & H5).
    destruct (H5 eq_refl eq_refl eq_refl ltac:(vm_compute; reflexivity)) as [_ H6].
    exact (proj1 (H6 toy_gridding_laws)).
Defined.

(** C4, as stated, fails: an odd [npix] is refused by an assertion, and
    the exception is an [AssertionError], not a [ConfigurationError]. *)
Lemma construction_error_is_assertion :
  exists e,
    __init__ Toy.gridding 3 1 None = Raise e /\
    exn_class e = "AssertionError"%string /\
    exn_class e <> "ConfigurationError"%string.
Proof.
  eexists. split; [reflexivity|]. split; [reflexivity|]. discriminate.
Qed.

(** Nor does every even positive [npix] with a positive [cell_size]
    succeed: four pixels of the smallest positive double, [2^-1074]
    arcseconds, pass both assertions and stop at the division by zero in
    [np.fft.rfftfreq]. *)
Example tiny_cell_size_divides_by_zero :
  (0 < 1 # 2 ^ 1074)%Q /\
  __init__ Toy.gridding 4 (1 # 2 ^ 1074) None = Raise ZeroDivisionError.
Proof. split; [reflexivity|]. vm_compute. reflexivity. Qed.

(** *** The attributes a constructed instance starts with *)

Lemma init_attributes (G : Gridding) (npix : Z) (cs : Q) (ds : option UVDataset)
  (m : MpolImage) (out : list string) :
  __init__ G npix cs ds = Ok (m, out) ->
  exists l c,
    let m0 := constructed G npix cs l c in
    fftspace G (cs * arcsec G * inject_Z (npix / 2))%Q npix = Ok l /\
    corrfun_mat G (Np.fftshift l) (Np.fftshift l) = Ok c /\
    Images.npix m = npix /\ cell_size m = cell_size m0 /\ ll m = l /\
    dll m = dll m0 /\ us m = us m0 /\ vs m = vs m0 /\
    _image m = _image m0 /\ corrfun m = c.
Proof.
  intros H. apply init_inv in H.
  destruct H as (_ & _ & _ & l & c & El & Ec & H).
  exists l, c. cbv zeta. split; [assumption|]. split; [assumption|].
  destruct ds as [d|].
  - destruct H as [H _]. apply precache_inv in H.
    destruct H as (Cre & Cim & _ & ->). simpl. repeat split.
  - destruct H as [-> _]. simpl. repeat split.
Qed.

(** ** C10 *)

(** C10. Right after a successful construction the trainable pixel array
    is [npix] by [npix] with every entry equal to 1, whatever the dataset;
    so on a model that is ready for its dataset the first [forward] returns
    the prediction for the uniform image of intensity 1. *)
Theorem initial_image_is_ones (G : Gridding) (npix : Z) (cs : Q)
  (ds : option UVDataset) (m : MpolImage) (out : list string) :
  __init__ G npix cs ds = Ok (m, out) ->
  let n := Z.to_nat npix in
  let unit_image := repeat (repeat 1%Q n) n in
  0 < npix /\ _image m = unit_image /\ has_shape n n (_image m) /\
  (forall i j, (i < n)%nat -> (j < n)%nat -> nth j (nth i (_image m) []) 0%Q = 1%Q) /\
  (forall d, precached d m ->
     exists Cre Cim,
       C_re m = Some Cre /\ C_im m = Some Cim /\
       forward G m
       = (Ok (Spec.forward_spec (twiddle G) unit_image (corrfun m) (dll m) Cre Cim), m)).
Proof.
  intros H n unit_image.
  pose proof (init_inv _ _ _ _ H) as (_ & _ & Hpos & _).
  apply init_attributes in H. destruct H as (l & c & H). cbv zeta in H.
  destruct H as (_ & _ & _ & _ & _ & _ & _ & _ & Himg & _). simpl in Himg.
  fold n in Himg. fold unit_image in Himg.
  split; [assumption|]. split; [assumption|]. rewrite Himg.
  split; [apply ones_shape|]. split.
  - intros i j Hi Hj. unfold unit_image.
    rewrite (nth_repeat_lt (repeat 1%Q n) [] Hi). now apply nth_repeat_lt.
  - intros d P. destruct (forward_computes_prediction G P) as (Cre & Cim & E1 & E2 & E & _).
    exists Cre, Cim. split; [assumption|]. split; [assumption|].
    rewrite E, Himg. reflexivity.
Qed.

Lemma initial_image_is_ones_witness :
  exists m out,
    __init__ Toy.gridding 4 1 (Some Toy.dataset3) = Ok (m, out) /\
    _image m = [[1; 1; 1; 1]; [1; 1; 1; 1]; [1; 1; 1; 1]; [1; 1; 1; 1]]%Q.
Proof.
  destruct (__init__ Toy.gridding 4 1 (Some Toy.dataset3)) as [[m out]|e] eqn:E;
    [|vm_compute in E; discriminate E].
  exists m, out. split; [reflexivity|].
  exact (proj1 (proj2 (initial_image_is_ones Toy.gridding 4 1 (Some Toy.dataset3) E))).
Defined.

(** The first prediction of that model: sample 0 reads the zero-frequency
    bin, sixteen unit pixels times the correction 2 times [dll] squared;
    the other bins of a uniform image vanish. *)
Example first_prediction_unit_image :
  match Toy.new 4 1 (Some Toy.dataset3) with
  | Some m =>
      match fst (forward Toy.gridding m) with
      | Ok (re, im) =>
          map Qred re = [Qred (32 * dll m * dll m); 0; 0]%Q /\
          map Qred im = [0; 0; 0]%Q
      | Raise _ => False
      end
  | None => False
  end.
Proof. vm_compute. split; reflexivity. Qed.

(** *** [forward] before the operators exist *)

Lemma forward_not_precached (G : Gridding) (m : MpolImage) (n : nat) :
  (0 < n)%nat -> has_shape n n (_image m) -> has_shape n n (corrfun m) ->
  C_re m = None ->
  forward G m = (Raise (AttributeError "C_re"), m).
Proof.
  intros Hn Hi Hc E.
  unfold forward, Meth.bind, Meth.get, Meth.lift, Meth.ret, getattr.
  now rewrite (mul_ok Hn Hi Hc), E.
Qed.

(** ** C5 *)

(** C5 (amended). Constructed without a dataset, the model prints one
    line on standard output that tells the caller to precalculate the
    interpolation matrices, has neither operator, and [forward] fails with
    the [AttributeError] of the missing attribute [C_re]; constructed with a
    dataset, it prints nothing, has both operators cached, and [forward]
    returns a prediction. *)
Theorem precaching_lifecycle (G : Gridding) (L : GriddingLaws G)
  (npix : Z) (cs : Q) :
  (forall m out,
     __init__ G npix cs None = Ok (m, out) ->
     out = [precache_hint] /\ C_re m = None /\ C_im m = None /\
     forward G m = (Raise (AttributeError "C_re"), m)) /\
  (forall d m out,
     __init__ G npix cs (Some d) = Ok (m, out) ->
     out = [] /\
     (exists Cre Cim, C_re m = Some Cre /\ C_im m = Some Cim) /\
     exists r, forward G m = (Ok r, m)).
Proof.
  split.
  - intros m out H. pose proof (init_inv _ _ _ _ H) as (Hev & _ & Hpos & l & c & El & Ec & -> & ->).
    split; [reflexivity|]. split; [reflexivity|]. split; [reflexivity|].
    destruct (fftspace_length L (cs * arcsec G * inject_Z (npix / 2))%Q Hpos Hev)
      as (l' & El' & Hlen).
    rewrite El in El'. injection El' as <-.
    destruct (corrfun_mat_shape L (Np.fftshift l) (Np.fftshift l)) as (c' & Ec' & Hc).
    rewrite Ec in Ec'. injection Ec' as <-.
    rewrite fftshift_length, Hlen in Hc.
    apply forward_not_precached with (n := Z.to_nat npix);
      simpl; try assumption; try reflexivity; try lia. apply ones_shape.
  - intros d m out H.
    pose proof (@init_precached G L npix cs d m out H) as P.
    pose proof (init_inv _ _ _ _ H) as (_ & _ & _ & _ & _ & _ & _ & _ & ->).
    split; [reflexivity|].
    destruct (forward_computes_prediction G P) as (Cre & Cim & E1 & E2 & E & _).
    split; [now exists Cre, Cim|]. eexists. exact E.
Qed.

Lemma precaching_lifecycle_witness :
  GriddingLaws Toy.gridding /\
  (exists m out,
     __init__ Toy.gridding 2 1 None = Ok (m, out) /\
     out = [precache_hint] /\
     forward Toy.gridding m = (Raise (AttributeError "C_re"), m)) /\
  (exists m out,
     __init__ Toy.gridding 2 1 (Some Toy.dataset3) = Ok (m, out) /\
     out = [] /\ exists r, forward Toy.gridding m = (Ok r, m)).
Proof.
  split; [exact toy_gridding_laws|].
  destruct (precaching_lifecycle toy_gridding_laws 2 1) as [H1 H2]. split.
  - destruct (__init__ Toy.gridding 2 1 None) as [[m out]|e] eqn:E;
      [|vm_compute in E; discriminate E].
    exists m, out. split; [reflexivity|].
    destruct (H1 m out eq_refl) as (Ho & _ & _ & Hf). split; assumption.
  - destruct (__init__ Toy.gridding 2 1 (Some Toy.dataset3)) as [[m out]|e] eqn:E;
      [|vm_compute in E; discriminate E].
    exists m, out. split; [reflexivity|].
    destruct (H2 Toy.dataset3 m out E) as (Ho & _ & Hf). split; assumption.
Defined.

(** C5, as stated, fails: before precaching, [forward] raises an
    [AttributeError], not a [NotPrecachedError]. *)
Lemma forward_before_precaching_error :
  exists m out e,
    __init__ Toy.gridding 2 1 None = Ok (m, out) /\
    fst (forward Toy.gridding m) = Raise e /\
    exn_class e = "AttributeError"%string /\
    exn_class e <> "NotPrecachedError"%string.
Proof.
  do 3 eexists. split; [vm_compute; reflexivity|].
  split; [vm_compute; reflexivity|]. split; [reflexivity|]. discriminate.
Qed.

(** *** The Fourier axes *)






(** ** C3 *)




(** * Properties of the training loop and of cross-validation *)

Import Tutorial LoopSpec MethLogic.

(** *** Loops and ranges *)

Section Propagation.

Variable K : Collab.

Lemma for_each_app {A L} (body : A -> L -> method K L) (xs ys : list A)
  (l : L) (s : State K) :
  for_each (xs ++ ys) body l s
  = match for_each xs body l s with
    | (Ok l', s') => for_each ys body l' s'
    | (Raise e, s') => (Raise e, s')
    end.
Proof.
  revert l s. induction xs as [|x xs IH]; intros l s; [reflexivity|].
  simpl. unfold Meth.bind. destruct (body x l s) as [[l'|e] s']; [apply IH|reflexivity].
Qed.

Lemma arange_split (n i : Z) :
  0 <= i < n -> exists rest, Np.arange n = Np.arange i ++ i :: rest.
Proof.
  intros Hi. unfold Np.arange.
  replace (Z.to_nat n) with (Z.to_nat i + S (Z.to_nat n - Z.to_nat i - 1))%nat by lia.
  rewrite seq_app, map_app. simpl. rewrite Z2Nat.id by lia. eauto.
Qed.

Lemma arange_empty (n : Z) : n <= 0 -> Np.arange n = [].
Proof. intros H. unfold Np.arange. now replace (Z.to_nat n) with O by lia. Qed.

Lemma arange_nonempty (n : Z) : 0 < n -> Np.arange n <> [].
Proof.
  intros H E. apply (f_equal (@length Z)) in E. rewrite arange_length in E.
  simpl in E. lia.
Qed.

(** An exception raised in an iteration leaves [train] as it was raised,
    from the state the iteration left. *)
Lemma train_raises (dataset : Dataset K) (config : Config.t (Scalar K))
  (logevery i : Z) (s s1 s2 : State K) (residuals : Connector K)
  (locals : option (Tensor K) * Connector K) (e : exn) :
  0 <= i < Config.epochs config ->
  GriddedResidualConnector K (model_train K (model s)) dataset = Ok residuals ->
  for_each (Np.arange i) (@train_body K dataset config logevery) (None, residuals)
    (mkState (model_train K (model s)) (optimizer s) (writer s) (trace s))
  = (Ok locals, s1) ->
  @train_body K dataset config logevery i locals s1 = (Raise e, s2) ->
  @train K dataset config logevery s = (Raise e, s2).
Proof.
  intros Hi Er Hdone Hraise.
  destruct (arange_split Hi) as (rest & Hsplit).
  unfold train, Meth.bind, gets, set_model, Meth.lift.
  cbn [model optimizer writer trace]. rewrite Er, Hsplit, for_each_app, Hdone.
  simpl. unfold Meth.bind. now rewrite Hraise.
Qed.

Lemma train_phases_ext (w w' : option (list (record K))) (logevery : Z)
  (iterations : list Z) :
  (forall j, @logs K w' logevery j = @logs K w logevery j) ->
  @train_phases K w' logevery iterations = @train_phases K w logevery iterations.
Proof.
  intros H. unfold train_phases. induction iterations as [|i l IH]; [reflexivity|].
  simpl. now rewrite H, IH.
Qed.


End Propagation.

(** *** The runs of [train], call by call *)

Section Runs.

Variable K : Collab.

Ltac split_call H :=
  match type of H with
  | context [if ?b then _ else _] =>
      let E := fresh "Eif" in destruct b eqn:E; try discriminate H
  | context [match ?r with Ok _ => _ | Raise _ => _ end] =>
      let E := fresh "E" in destruct r eqn:E; try discriminate H
  | context [let (_, _) := ?p in _] => destruct p
  end;
  cbv beta iota in H; cbn [model optimizer writer trace fst snd option_map andb] in H.

Lemma mod_ok (a b : Z) : b <> 0 -> mod_ a b = Ok (a mod b).
Proof. intros H. unfold mod_. now apply Z.eqb_neq in H as ->. Qed.

(** An iteration that returns is an [iteration]; with a writer, and at a
    multiple of [logevery], it has drawn the figure from the model its
    forward evaluation returned and has written the two records. *)
Lemma train_body_run (dataset : Dataset K) (config : Config.t (Scalar K))
  (logevery i : Z) (lo lo' : option (Tensor K)) (r r' : Connector K)
  (s s' : State K) :
  @train_body K dataset config logevery i (lo, r) s = (Ok (lo', r'), s') ->
  logevery <> 0 /\
  exists loss forwarded,
    @iteration K dataset config (model s) (optimizer s) loss forwarded
      (model s') (optimizer s') /\
    lo' = Some loss /\
    trace s' = trace s ++ iteration_phases (@logs K (writer s) logevery i) /\
    match writer s with
    | None => writer s' = None /\ r' = r
    | Some w =>
        if i mod logevery =? 0 then
          exists fig,
            residuals_call K r forwarded = Ok r' /\
            render K forwarded r' = Ok fig /\
            writer s'
            = Some (w ++ [add_scalar K "loss" (item K loss) (Some i);
                          add_figure K "image" fig (Some i)])
        else writer s' = Some w /\ r' = r
    end.
Proof.
  intros H. unfold train_body, log_figure in H. cbv zeta in H.
  unfold Meth.bind, enter, gets, set_model, set_optimizer, emit, Meth.lift,
    Meth.ret, mod_ in H.
  cbn [model optimizer writer trace fst snd] in H.
  repeat split_call H.
  all: injection H as <- <- <-.
  all: split; [intros Hz; rewrite Hz in Eif; discriminate Eif|].
  all: eexists _, _; split;
    [do 7 eexists; repeat split; eassumption|].
  all: split; [reflexivity|].
  all: unfold logs; cbn [model optimizer writer trace fst snd]; rewrite Eif0;
    (split; [simpl; rewrite <- ?app_assoc; reflexivity|]).
  all: destruct (i mod logevery =? 0), (writer s);
    simpl in Eif0 |- *; try discriminate Eif0; auto.
  rewrite <- app_assoc. eexists. repeat split; eassumption.
Qed.


Ltac run_iteration H :=
  destruct H as (vis & nll & l_sparsity & l_TV & l_entropy & l_TSV & graded
                 & Ef & Enll & Esp & Etv & Eent & Etsv & -> & Eb & Est);
  unfold weighted_sum in *; unfold train_body, log_figure; cbv zeta;
  unfold Meth.bind, enter, gets, set_model, set_optimizer, emit, Meth.lift, Meth.ret;
  cbn [model optimizer writer trace fst snd];
  rewrite Ef; cbv beta iota; cbn [model optimizer writer trace fst snd];
  rewrite Enll, Esp, Etv, Eent, Etsv; cbv beta iota.

(** An [iteration] at which nothing is written to the sink. *)
Lemma train_body_quiet (dataset : Dataset K) (config : Config.t (Scalar K))
  (logevery i : Z) (lo : option (Tensor K)) (r : Connector K) (s : State K)
  (loss : Tensor K) (forwarded m' : Model K) (o' : Optim K) :
  logevery <> 0 -> @logs K (writer s) logevery i = false ->
  @iteration K dataset config (model s) (optimizer s) loss forwarded m' o' ->
  @train_body K dataset config logevery i (lo, r) s
  = (Ok (Some loss, r),
     mkState m' o' (writer s)
       (trace s ++ [ZeroGrad; ForwardEval; LossCompute; Backward; Step])).
Proof.
  intros Hl Hq H. run_iteration H.
  rewrite (mod_ok i Hl). cbv beta iota. unfold logs in Hq. rewrite Hq.
  cbv beta iota. cbn [model optimizer writer trace fst snd].
  rewrite Eb. cbv beta iota. cbn [model optimizer writer trace fst snd].
  rewrite Est. cbv beta iota. cbn [model optimizer writer trace fst snd].
  now rewrite <- !app_assoc.
Qed.

(** An [iteration] at which the loss and the figure are written. *)
Lemma train_body_logging (dataset : Dataset K) (config : Config.t (Scalar K))
  (logevery i : Z) (lo : option (Tensor K)) (r r' : Connector K) (s : State K)
  (w : list (record K)) (fig : Figure K)
  (loss : Tensor K) (forwarded m' : Model K) (o' : Optim K) :
  logevery <> 0 -> writer s = Some w -> i mod logevery = 0 ->
  @iteration K dataset config (model s) (optimizer s) loss forwarded m' o' ->
  residuals_call K r forwarded = Ok r' -> render K forwarded r' = Ok fig ->
  @train_body K dataset config logevery i (lo, r) s
  = (Ok (Some loss, r'),
     mkState m' o'
       (Some (w ++ [add_scalar K "loss" (item K loss) (Some i);
                    add_figure K "image" fig (Some i)]))
       (trace s ++ [ZeroGrad; ForwardEval; LossCompute; Log; Backward; Step])).
Proof.
  intros Hl Hw Hi H Er Eg. run_iteration H.
  rewrite (mod_ok i Hl). cbv beta iota. rewrite Hw, Hi.
  cbv beta iota. cbn [model optimizer writer trace fst snd Z.eqb andb option_map].
  rewrite Er. cbv beta iota. rewrite Eg. cbv beta iota.
  cbn [model optimizer writer trace fst snd option_map].
  rewrite Eb. cbv beta iota. cbn [model optimizer writer trace fst snd].
  rewrite Est. cbv beta iota. cbn [model optimizer writer trace fst snd].
  now rewrite <- !app_assoc.
Qed.

Lemma last_cons {A} (a d : A) (l : list A) : last (a :: l) d = last l a.
Proof.
  revert a d. induction l as [|b l IH]; intros a d; [reflexivity|].
  change (last (a :: b :: l) d) with (last (b :: l) d). now rewrite !IH.
Qed.

(** The loss variable after some passes: that of the last one. *)
Lemma last_loss_snoc (passes : list (pass K)) (final : pass K)
  (lo : option (Tensor K)) :
  last (map (fun p => Some (pass_loss p)) (passes ++ [final])) lo
  = Some (pass_loss final).
Proof. rewrite map_app. simpl. apply last_last. Qed.

(** The loop of [train], when it returns. *)
Lemma train_loop_run (dataset : Dataset K) (config : Config.t (Scalar K))
  (logevery : Z) (indices : list Z) :
  forall (lo lo' : option (Tensor K)) (r r' : Connector K) (s s' : State K),
    for_each indices (@train_body K dataset config logevery) (lo, r) s
    = (Ok (lo', r'), s') ->
    exists passes,
      @iterations K dataset config indices (model s) (optimizer s) passes
        (model s') (optimizer s') /\
      lo' = last (map (fun p => Some (pass_loss p)) passes) lo /\
      (indices <> [] -> logevery <> 0) /\
      @sink_receives K logevery r passes (writer s) (writer s').
Proof.
  induction indices as [|i rest IH]; intros lo lo' r r' s s' H.
  - injection H as <- <- <-. exists []. split; [constructor|].
    split; [reflexivity|]. split; [intros N; now elim N|].
    unfold sink_receives. destruct (writer s) as [w|]; [|reflexivity].
    exists []. split; [constructor|now rewrite app_nil_r].
  - cbn [for_each] in H. unfold Meth.bind in H.
    destruct (@train_body K dataset config logevery i (lo, r) s)
      as [[[lo1 r1]|e] s1] eqn:Eb; [|discriminate H].
    destruct (@train_body_run _ _ _ _ _ _ _ _ _ _ Eb)
      as (Hl & loss & fwd & Hit & -> & _ & Hw).
    destruct (IH _ _ _ _ _ _ H) as (passes & Hits & -> & _ & Hs).
    exists (mkPass K i loss fwd :: passes).
    split; [econstructor; eassumption|].
    split; [cbn [map]; now rewrite last_cons|].
    split; [intros _; exact Hl|].
    unfold sink_receives in *. destruct (writer s) as [w|].
    + destruct (i mod logevery =? 0) eqn:Em.
      * destruct Hw as (fig & Er & Eg & Hw). rewrite Hw in Hs.
        destruct Hs as (records & Hd & ->).
        eexists. split; [|now rewrite <- app_assoc].
        apply Z.eqb_eq in Em.
        apply (@drawn_log K logevery r r1 (mkPass K i loss fwd) fig);
          assumption.
      * destruct Hw as [Hw ->]. rewrite Hw in Hs.
        destruct Hs as (records & Hd & ->).
        exists records. split; [|reflexivity].
        apply Z.eqb_neq in Em. now apply drawn_skip.
    + destruct Hw as [Hw ->]. now rewrite Hw in Hs.
Qed.

(** The loop of [train] along a run of iterations whose figures can be
    drawn. *)
Lemma train_loop_runs (dataset : Dataset K) (config : Config.t (Scalar K))
  (logevery : Z) (indices : list Z) (m m' : Model K) (o o' : Optim K)
  (passes : list (pass K)) :
  logevery <> 0 ->
  @iterations K dataset config indices m o passes m' o' ->
  forall (lo : option (Tensor K)) (r : Connector K) (s : State K),
    model s = m -> optimizer s = o ->
    @can_draw K logevery r passes (writer s) ->
    exists r' s',
      for_each indices (@train_body K dataset config logevery) (lo, r) s
      = (Ok (last (map (fun p => Some (pass_loss p)) passes) lo, r'), s') /\
      model s' = m' /\ optimizer s' = o' /\
      @sink_receives K logevery r passes (writer s) (writer s').
Proof.
  intros Hl Hits.
  induction Hits as [m o|i rest m o loss fwd m1 o1 passes m' o' Hit Hits IH];
    intros lo r s Hm Ho Hd.
  - exists r, s. split; [reflexivity|]. split; [exact Hm|]. split; [exact Ho|].
    unfold sink_receives. destruct (writer s) as [w|]; [|reflexivity].
    exists []. split; [constructor|now rewrite app_nil_r].
  - subst m o. cbn [for_each]. unfold Meth.bind.
    cbn [map]. rewrite last_cons.
    unfold can_draw, sink_receives in *.
    destruct (writer s) as [w|] eqn:Ew.
    + destruct Hd as (records & Hd).
      inversion Hd as [|? p ? ? Hne Hd'|? r1 p fig ? records' He Er Eg Hd']; subst.
      * cbn [pass_index] in Hne.
        rewrite (@train_body_quiet dataset config logevery i lo r s loss fwd m1 o1 Hl);
          [|unfold logs; apply Z.eqb_neq in Hne; now rewrite Hne|exact Hit].
        match goal with |- context [for_each rest _ (_, ?rr) ?st] =>
          destruct (IH (Some loss) rr st eq_refl eq_refl)
            as (r' & s' & E & Hm' & Ho' & Hs);
            [cbn [writer]; rewrite Ew; exists records; exact Hd'|] end.
        exists r', s'. split; [exact E|]. split; [exact Hm'|]. split; [exact Ho'|].
        cbn [writer] in Hs. rewrite Ew in Hs. destruct Hs as (recs & Hd2 & Hs).
        exists recs. split; [now apply drawn_skip|exact Hs].
      * cbn [pass_index pass_forwarded pass_loss] in He, Er, Eg.
        rewrite (@train_body_logging dataset config logevery i lo r r1 s w fig
                   loss fwd m1 o1 Hl Ew He Hit Er Eg).
        match goal with |- context [for_each rest _ (_, ?rr) ?st] =>
          destruct (IH (Some loss) rr st eq_refl eq_refl)
            as (r' & s' & E & Hm' & Ho' & Hs);
            [cbn [writer]; exists records'; exact Hd'|] end.
        exists r', s'. split; [exact E|]. split; [exact Hm'|]. split; [exact Ho'|].
        cbn [writer] in Hs. destruct Hs as (recs & Hd2 & Hs).
        eexists. split; [|rewrite Hs, <- app_assoc; reflexivity].
        apply (@drawn_log K logevery r r1 (mkPass K i loss fwd) fig); assumption.
    + rewrite (@train_body_quiet dataset config logevery i lo r s loss fwd m1 o1 Hl);
        [|unfold logs; rewrite Ew; apply andb_false_r|exact Hit].
      match goal with |- context [for_each rest _ (_, ?rr) ?st] =>
        destruct (IH (Some loss) rr st eq_refl eq_refl)
          as (r' & s' & E & Hm' & Ho' & Hs);
          [cbn [writer]; rewrite Ew; exact I|] end.
      exists r', s'. split; [exact E|]. split; [exact Hm'|]. split; [exact Ho'|].
      cbn [writer] in Hs. now rewrite Ew in Hs.
Qed.


(** [train], when it returns: a positive number of iterations, a stride
    that is not zero, the connector built, and a run of one [iteration] for
    each index of [range(epochs)]; the value returned is the one of the
    loss of the final pass. *)
Lemma train_run (dataset : Dataset K) (config : Config.t (Scalar K))
  (logevery : Z) (s s' : State K) (l : Scalar K) :
  @train K dataset config logevery s = (Ok l, s') ->
  0 < Config.epochs config /\ logevery <> 0 /\
  exists r0 passes final,
    GriddedResidualConnector K (model_train K (model s)) dataset = Ok r0 /\
    @iterations K dataset config (Np.arange (Config.epochs config))
      (model_train K (model s)) (optimizer s) (passes ++ [final])
      (model s') (optimizer s') /\
    l = item K (pass_loss final) /\
    @sink_receives K logevery r0 (passes ++ [final]) (writer s) (writer s').
Proof.
  intros H. unfold train in H.
  unfold Meth.bind at 1 2 3 4, gets, set_model, Meth.lift in H.
  cbn [model optimizer writer trace] in H.
  destruct (GriddedResidualConnector K (model_train K (model s)) dataset) as [r0|e];
    [|discriminate H].
  cbv beta iota in H. unfold Meth.bind in H.
  match type of H with context [for_each ?xs ?b ?l ?st] =>
    destruct (for_each xs b l st) as [[[lo r'] | e] s1] eqn:Ef; [|discriminate H] end.
  cbn [fst] in H. destruct lo as [loss|]; [|discriminate H].
  injection H as <- <-.
  destruct (@train_loop_run _ _ _ _ _ _ _ _ _ _ Ef) as (passes & Hits & Hlo & Hne & Hs).
  cbn [model optimizer writer] in Hits, Hs.
  destruct passes as [|p0 passes0] using rev_ind; [discriminate Hlo|].
  clear IHpasses0. rewrite last_loss_snoc in Hlo. injection Hlo as ->.
  assert (Hn : 0 < Config.epochs config).
  { destruct (Z_lt_le_dec 0 (Config.epochs config)) as [Hn|Hn]; [exact Hn|].
    exfalso. rewrite (arange_empty Hn) in Hits. inversion Hits.
    match goal with E : [] = _ ++ [_] |- _ => exact (app_cons_not_nil _ _ _ E) end. }
  split; [exact Hn|]. split; [apply Hne; now apply arange_nonempty|].
  exists r0, passes0, p0. repeat split; assumption.
Qed.

(** Conversely, along such a run [train] returns, whatever the values of
    the losses and of the parameters are. *)
Lemma train_runs (dataset : Dataset K) (config : Config.t (Scalar K))
  (logevery : Z) (s : State K) (r0 : Connector K) (passes : list (pass K))
  (final : pass K) (m' : Model K) (o' : Optim K) :
  GriddedResidualConnector K (model_train K (model s)) dataset = Ok r0 ->
  logevery <> 0 ->
  @iterations K dataset config (Np.arange (Config.epochs config))
    (model_train K (model s)) (optimizer s) (passes ++ [final]) m' o' ->
  @can_draw K logevery r0 (passes ++ [final]) (writer s) ->
  exists s',
    @train K dataset config logevery s = (Ok (item K (pass_loss final)), s') /\
    model s' = m' /\ optimizer s' = o' /\
    @sink_receives K logevery r0 (passes ++ [final]) (writer s) (writer s').
Proof.
  intros Er Hl Hits Hd. unfold train.
  unfold Meth.bind at 1 2 3 4, gets, set_model, Meth.lift.
  cbn [model optimizer writer trace]. rewrite Er. cbv beta iota.
  destruct (@train_loop_runs dataset config logevery _ _ _ _ _ _ Hl Hits None r0
              (mkState (model_train K (model s)) (optimizer s) (writer s) (trace s))
              eq_refl eq_refl Hd)
    as (r' & s' & E & Hm & Ho & Hs).
  unfold Meth.bind. rewrite E, last_loss_snoc. cbn [fst].
  exists s'. repeat split; assumption.
Qed.







End Runs.

(** *** Runs without and with a writer *)

Section Follows.

Variable K : Collab.

Lemma follows_ret {A B} (R : A -> B -> Prop) (a : A) (b : B) :
  R a b -> follows R (@Meth.ret (State K) A a) (Meth.ret b).
Proof. intros H s1 s2 Hw Hc. left. split; [exact H|]. split; assumption. Qed.

Lemma follows_bind {A A' B B'} (R : A -> A' -> Prop) (R' : B -> B' -> Prop)
  (c1 : method K A) (c2 : method K A') (k1 : A -> method K B) (k2 : A' -> method K B') :
  follows R c1 c2 ->
  (forall a a', R a a' -> follows R' (k1 a) (k2 a')) ->
  follows R' (Meth.bind c1 k1) (Meth.bind c2 k2).
Proof.
  intros Hc Hk s1 s2 Hw Hs. unfold Meth.bind.
  destruct (Hc s1 s2 Hw Hs) as [(Hr & Hs' & Hw')|(e & He & Hd)].
  - destruct (c1 s1) as [[a|e] s1'], (c2 s2) as [[a'|e'] s2']; simpl in *;
      try contradiction.
    + now apply Hk.
    + left. now repeat split.
  - right. exists e. split; [|exact Hd].
    destruct (c2 s2) as [[a'|e'] s2']; simpl in *; [discriminate He|].
    injection He as ->. reflexivity.
Qed.

Lemma follows_lift {A} (r : result A) :
  follows eq (@Meth.lift (State K) A r) (Meth.lift r).
Proof.
  intros s1 s2 Hw Hs. left. split; [|split; assumption].
  simpl. destruct r; reflexivity.
Qed.

Lemma follows_gets {A} (f : State K -> A) :
  (forall s1 s2, core s1 = core s2 -> f s1 = f s2) ->
  follows eq (gets f) (gets f).
Proof. intros Hf s1 s2 Hw Hs. left. split; [now apply Hf|]. split; assumption. Qed.

Lemma follows_set_model (m : Model K) : follows eq (set_model m) (set_model m).
Proof.
  intros s1 s2 Hw Hs. left. split; [reflexivity|]. split; [|exact Hw].
  unfold core in *. simpl. congruence.
Qed.

Lemma follows_set_optimizer (o : Optim K) :
  follows eq (set_optimizer o) (set_optimizer o).
Proof.
  intros s1 s2 Hw Hs. left. split; [reflexivity|]. split; [|exact Hw].
  unfold core in *. simpl. congruence.
Qed.

Lemma follows_enter (p : phase) : follows eq (@enter K p) (enter p).
Proof. intros s1 s2 Hw Hs. left. split; [reflexivity|]. split; assumption. Qed.

(** The writer is read on both sides; the first side has none. *)
Lemma follows_writer {A B} (R : A -> B -> Prop)
  (k1 : option (list (record K)) -> method K A)
  (k2 : option (list (record K)) -> method K B) :
  (forall w, follows R (k1 None) (k2 w)) ->
  follows R (Meth.bind (gets (@writer K)) k1) (Meth.bind (gets (@writer K)) k2).
Proof.
  intros Hk s1 s2 Hw Hs. unfold Meth.bind, gets. rewrite Hw.
  now apply Hk.
Qed.

Lemma follows_for_each {A L L'} (R : L -> L' -> Prop)
  (body1 : A -> L -> method K L) (body2 : A -> L' -> method K L') (xs : list A) :
  (forall x l l', R l l' -> follows R (body1 x l) (body2 x l')) ->
  forall l l', R l l' -> follows R (for_each xs body1 l) (for_each xs body2 l').
Proof.
  intros Hb. induction xs as [|x xs IH]; intros l l' Hl; simpl.
  - now apply follows_ret.
  - eapply follows_bind; [now apply Hb|]. intros a a' Ha. now apply IH.
Qed.

(** The write to the sink: nothing on the side without a writer; on the
    other side it leaves the model and the optimizer alone, unless a
    drawing call raises. *)
Lemma follows_logging (b : bool) (res1 res2 : Connector K) (loss : Tensor K)
  (i : Z) :
  follows (fun _ _ => True)
    (@Meth.ret (State K) _ res1)
    (if b then
       (enter Log ;;;
        emit (add_scalar K "loss" (item K loss) (Some i)) ;;;
        ' (fig, residuals) <- log_figure res2 ;;
        emit (add_figure K "image" fig (Some i)) ;;;
        Meth.ret residuals)%meth
     else Meth.ret res2).
Proof.
  intros s1 s2 Hw Hs. destruct b; [|left; split; [exact I|split; assumption]].
  unfold log_figure, Meth.bind, enter, emit, gets, Meth.lift, Meth.ret.
  cbn [model optimizer writer trace].
  destruct (residuals_call K res2 (model s2)) as [r'|e] eqn:Er.
  - cbv beta iota. destruct (render K (model s2) r') as [fig|e] eqn:Eg.
    + left. split; [exact I|]. split; [exact Hs|exact Hw].
    + right. exists e. split; [reflexivity|].
      exists res2, (model s2). right. now exists r'.
  - right. exists e. split; [reflexivity|].
    exists res2, (model s2). now left.
Qed.

Ltac core_eq :=
  let Hc := fresh "Hc" in
  intros ? ? Hc; unfold core in Hc; injection Hc as ? ?; simpl; congruence.

Ltac follows_prim :=
  first [ apply follows_lift | apply follows_set_model | apply follows_set_optimizer
        | apply follows_enter | apply follows_gets; core_eq ].

Ltac follows_step :=
  lazymatch goal with
  | |- follows _ (Meth.bind (gets (@writer _)) _) (Meth.bind (gets (@writer _)) _) =>
      apply follows_writer; intros ?
  | |- follows _ (Meth.bind (if (_ && _) then _ else _) _)
                 (Meth.bind (if (_ && _) then _ else _) _) =>
      rewrite andb_false_r;
      eapply follows_bind with (R := fun _ _ => True);
      [apply follows_logging|intros ? ? _]
  | |- follows _ (Meth.bind _ _) (Meth.bind _ _) =>
      eapply follows_bind with (R := eq); [follows_prim|intros ? ? <-]
  | |- follows _ (let (_, _) := ?p in _) _ => destruct p
  end.

Lemma train_body_follows (dataset : Dataset K) (config : Config.t (Scalar K))
  (logevery iteration : Z) (l1 l2 : option (Tensor K) * Connector K) :
  follows (fun a b => fst a = fst b)
    (@train_body K dataset config logevery iteration l1)
    (@train_body K dataset config logevery iteration l2).
Proof.
  unfold train_body. cbv zeta. repeat follows_step.
  now apply follows_ret.
Qed.

Lemma train_follows (dataset : Dataset K) (config : Config.t (Scalar K))
  (logevery : Z) :
  follows eq (@train K dataset config logevery) (@train K dataset config logevery).
Proof.
  unfold train. repeat follows_step.
  eapply follows_bind with (R := fun a b => fst a = fst b).
  - apply follows_for_each; [|reflexivity]. intros x l l' _. apply train_body_follows.
  - intros [loss1 r1] [loss2 r2] E. simpl in E. subst loss2. simpl.
    destruct loss1; [now apply follows_ret|].
    intros s1 s2 Hw Hs. left. split; [reflexivity|]. split; assumption.
Qed.

Lemma test_follows (dataset : Dataset K) :
  follows eq (@test K dataset) (@test K dataset).
Proof. unfold test. repeat follows_step. now apply follows_ret. Qed.

Lemma cross_validate_follows (config : Config.t (Scalar K))
  (folds : list (Dataset K * Dataset K)) (MODEL_PATH : string) :
  follows eq (@cross_validate K config folds MODEL_PATH)
             (@cross_validate K config folds MODEL_PATH).
Proof.
  unfold cross_validate.
  eapply follows_bind with (R := eq).
  - apply follows_for_each; [|reflexivity]. intros [tr te] l l' <-.
    unfold cross_validate_body. repeat follows_step.
    eapply follows_bind with (R := eq); [apply train_follows|intros ? ? _].
    eapply follows_bind with (R := eq); [apply test_follows|intros ? ? <-].
    now apply follows_ret.
  - intros scores ? <-. apply follows_writer. intros w.
    eapply follows_bind with (R := fun _ _ => True); [|intros ? ? _; now apply follows_ret].
    intros s1 s2 Hw Hs. left. split; [|split; [|exact Hw]].
    + destruct w; exact I.
    + destruct w; exact Hs.
Qed.

(** When the calls that draw return, no exception comes from them. *)
Lemma sink_returns_no_exception (S : SinkReturns K) (e : exn) :
  ~ drawing_raises K e.
Proof.
  intros (r & m & [H|(r' & _ & H)]).
  - destruct (residuals_returns S r m) as (x & E). congruence.
  - destruct (render_returns S m r') as (x & E). congruence.
Qed.

End Follows.

Lemma alike_eq {A} (r1 r2 : result A) : alike eq r1 r2 -> r1 = r2.
Proof. destruct r1, r2; simpl; intros H; congruence || contradiction. Qed.


Lemma toy_sink_returns : SinkReturns ToyLoop.collab.
Proof. constructor; intros; simpl; eauto. Qed.

(** *** The sum that [np.sum] computes *)

Section Summation.

Variable A : Type.
Variable add : A -> A -> A.
Variable zero : A.



(** Up to 128 entries are one block. *)
Lemma pairwise_sum_block (fuel : nat) (xs : list A) :
  (8 <= length xs <= 128)%nat ->
  Np.pairwise_sum add zero fuel xs = Np.block_sum add zero xs.
Proof.
  intros [H1 H2]. apply Nat.ltb_ge in H1. apply Nat.leb_le in H2.
  destruct fuel; simpl; now rewrite H1, H2.
Qed.

Lemma pairwise_sum_S (fuel : nat) (xs : list A) :
  Np.pairwise_sum add zero (S fuel) xs =
  if Nat.ltb (length xs) 8 then fold_left add xs zero
  else if Nat.leb (length xs) 128 then Np.block_sum add zero xs
  else
    let n2 := (Nat.div (length xs) 2 - Nat.modulo (Nat.div (length xs) 2) 8)%nat in
    add (Np.pairwise_sum add zero fuel (firstn n2 xs))
        (Np.pairwise_sum add zero fuel (skipn n2 xs)).
Proof. reflexivity. Qed.

(** The recursion has the fuel it needs: more changes nothing. *)
Lemma pairwise_sum_fuel (fuel fuel' : nat) (xs : list A) :
  (length xs <= fuel)%nat -> (length xs <= fuel')%nat ->
  Np.pairwise_sum add zero fuel xs = Np.pairwise_sum add zero fuel' xs.
Proof.
  revert fuel' xs. induction fuel as [|fuel IH]; intros fuel' xs H H'.
  - destruct xs; [|simpl in H; lia]. destruct fuel'; reflexivity.
  - destruct fuel' as [|fuel'].
    + destruct xs; [|simpl in H'; lia]. reflexivity.
    + rewrite !pairwise_sum_S.
      destruct (Nat.ltb (length xs) 8) eqn:E8; [reflexivity|].
      destruct (Nat.leb (length xs) 128) eqn:E128; [reflexivity|].
      apply Nat.ltb_ge in E8. apply Nat.leb_gt in E128. cbv zeta.
      set (n2 := (Nat.div (length xs) 2 - Nat.modulo (Nat.div (length xs) 2) 8)%nat).
      assert (Hd : (Nat.div (length xs) 2 < length xs)%nat)
        by (apply Nat.div_lt; lia).
      assert (Hd' : (64 <= Nat.div (length xs) 2)%nat).
      { change 64%nat with (Nat.div 128 2). apply Nat.Div0.div_le_mono. lia. }
      assert (Hm : (Nat.modulo (Nat.div (length xs) 2) 8 < 8)%nat)
        by (apply Nat.mod_upper_bound; lia).
      assert (Hn2 : (0 < n2 < length xs)%nat) by (unfold n2; lia).
      f_equal; apply IH;
        rewrite ?length_firstn, ?length_skipn; lia.
Qed.

Hypothesis add_assoc : forall a b c, add a (add b c) = add (add a b) c.
Hypothesis add_comm : forall a b, add a b = add b a.
Hypothesis add_zero : forall a, add zero a = a.













End Summation.

(** *** What a run of iterations is made of *)

Section Chains.

Variable K : Collab.

Lemma iterations_indices (dataset : Dataset K) (config : Config.t (Scalar K))
  (indices : list Z) (m m' : Model K) (o o' : Optim K) (passes : list (pass K)) :
  @iterations K dataset config indices m o passes m' o' ->
  map (@pass_index K) passes = indices.
Proof. induction 1; simpl; congruence. Qed.

Lemma iterations_count (dataset : Dataset K) (config : Config.t (Scalar K))
  (m m' : Model K) (o o' : Optim K) (passes : list (pass K)) :
  @iterations K dataset config (Np.arange (Config.epochs config)) m o passes m' o' ->
  length passes = Z.to_nat (Config.epochs config).
Proof.
  intros H. apply iterations_indices in H.
  apply (f_equal (@length Z)) in H. now rewrite length_map, arange_length in H.
Qed.

(** With no iteration to run, [train] ends on the unbound [loss], once
    the residual connector is built. *)
Lemma train_no_pass (dataset : Dataset K) (config : Config.t (Scalar K))
  (logevery : Z) (s : State K) (r0 : Connector K) :
  Config.epochs config <= 0 ->
  GriddedResidualConnector K (model_train K (model s)) dataset = Ok r0 ->
  @train K dataset config logevery s
  = (Raise (UnboundLocalError "loss"),
     mkState (model_train K (model s)) (optimizer s) (writer s) (trace s)).
Proof.
  intros Hn Er. unfold train, Meth.bind, gets, set_model, Meth.lift, raise.
  cbn [model optimizer writer trace]. rewrite Er, (arange_empty Hn). reflexivity.
Qed.

End Chains.

(** ** C2 *)



(** The run behind the witness: two folds, two iterations each; the
    score is the sum of the two held-out values. *)
Example cross_validate_two_folds :
  fst (@cross_validate ToyLoop.collab (ToyLoop.config 2) ToyLoop.folds "model.pt"
         (ToyLoop.start 7 None))
  = Ok (0 + 0.7862701416015625 + 0.6922760009765625)%float.
Proof. vm_compute. reflexivity. Qed.

(** In floating point the order of [np.sum] shows from eight entries on:
    after [2^54], seven ones added one after the other are all lost, while
    the eight running sums keep four of them. *)
Example np_sum_is_pairwise :
  let xs := [0x1p54; 1; 1; 1; 1; 1; 1; 1]%float in
  np_sum ToyLoop.collab xs = 0x1.0000000000001p54%float /\
  fold_left PrimFloat.add xs 0%float = 0x1p54%float.
Proof. vm_compute. split; reflexivity. Qed.

(** ** C6 *)

(** C6 (amended). When [train] returns, it has run exactly one iteration
    per index of [range(epochs)], with [epochs] positive, each from the
    model and the optimizer the one before has left: the forward evaluation
    (gradients zeroed), the loss as the negative log-likelihood plus the
    weighted regularizer terms, the gradient computation of that loss and
    the update of the optimizer, in that order; it returns the value of the
    loss of the last iteration, leaves the model and the optimizer of the
    last update, and a writer has received the loss and the figure of the
    iterations whose index is a multiple of [logevery].  Conversely,
    whenever the calls of these iterations return, [logevery] is not zero
    and the figures for a writer can be drawn, [train] returns so: no value
    of a parameter or of a loss ends the loop before.  The loop ends before
    only by an exception raised in an iteration, which leaves [train] as it
    was raised; and with no iteration to run, the return raises
    [UnboundLocalError]. *)
Theorem train_runs_every_iteration (K : Collab) (dataset : Dataset K)
  (config : Config.t (Scalar K)) (logevery : Z) (s : State K) :
  (forall l s',
     @train K dataset config logevery s = (Ok l, s') ->
     0 < Config.epochs config /\ logevery <> 0 /\
     exists r0 passes final,
       GriddedResidualConnector K (model_train K (model s)) dataset = Ok r0 /\
       @iterations K dataset config (Np.arange (Config.epochs config))
         (model_train K (model s)) (optimizer s) (passes ++ [final])
         (model s') (optimizer s') /\
       length (passes ++ [final]) = Z.to_nat (Config.epochs config) /\
       map (@pass_index K) (passes ++ [final]) = Np.arange (Config.epochs config) /\
       l = item K (pass_loss final) /\
       @sink_receives K logevery r0 (passes ++ [final]) (writer s) (writer s')) /\
  (forall r0 passes final m' o',
     GriddedResidualConnector K (model_train K (model s)) dataset = Ok r0 ->
     logevery <> 0 ->
     @iterations K dataset config (Np.arange (Config.epochs config))
       (model_train K (model s)) (optimizer s) (passes ++ [final]) m' o' ->
     @can_draw K logevery r0 (passes ++ [final]) (writer s) ->
     exists s',
       @train K dataset config logevery s = (Ok (item K (pass_loss final)), s') /\
       model s' = m' /\ optimizer s' = o' /\
       @sink_receives K logevery r0 (passes ++ [final]) (writer s) (writer s')) /\
  (forall i residuals locals s1 s2 e,
     0 <= i < Config.epochs config ->
     GriddedResidualConnector K (model_train K (model s)) dataset = Ok residuals ->
     for_each (Np.arange i) (@train_body K dataset config logevery) (None, residuals)
       (mkState (model_train K (model s)) (optimizer s) (writer s) (trace s))
     = (Ok locals, s1) ->
     @train_body K dataset config logevery i locals s1 = (Raise e, s2) ->
     @train K dataset config logevery s = (Raise e, s2)) /\
  (forall r0,
     Config.epochs config <= 0 ->
     GriddedResidualConnector K (model_train K (model s)) dataset = Ok r0 ->
     @train K dataset config logevery s
     = (Raise (UnboundLocalError "loss"),
        mkState (model_train K (model s)) (optimizer s) (writer s) (trace s))).
Proof.
  split; [|split; [|split]].
  - intros l s' E.
    destruct (@train_run K dataset config logevery s s' l E)
      as (Hn & Hl & r0 & passes & final & Er & Hits & -> & Hw).
    split; [exact Hn|]. split; [exact Hl|].
    exists r0, passes, final. repeat split; try assumption.
    + eapply iterations_count; eassumption.
    + eapply iterations_indices; eassumption.
  - intros r0 passes final m' o'. apply train_runs.
  - intros i residuals locals s1 s2 e. apply train_raises.
  - intros r0 Hn Er. eapply train_no_pass; eassumption.
Qed.

Lemma train_runs_every_iteration_witness :
  exists passes final s',
    @train ToyLoop.collab 1%float (ToyLoop.config 3) 2 (ToyLoop.start 3 (Some []))
    = (Ok (item ToyLoop.collab (pass_loss final)), s') /\
    @iterations ToyLoop.collab 1%float (ToyLoop.config 3) [0; 1; 2]
      (ToyLoop.mkPixel 3 0 true) 0.25%float (passes ++ [final])
      (model s') (optimizer s') /\
    length (passes ++ [final]) = 3%nat /\
    map (@pass_index ToyLoop.collab) (passes ++ [final]) = [0; 1; 2] /\
    exists records,
      @drawn ToyLoop.collab 2 (1, -2)%float (passes ++ [final]) records /\
      writer s' = Some records.
Proof.
  pose (run := @train ToyLoop.collab 1%float (ToyLoop.config 3) 2
                 (ToyLoop.start 3 (Some []))).
  destruct (proj1 (@train_runs_every_iteration ToyLoop.collab 1%float
                     (ToyLoop.config 3) 2 (ToyLoop.start 3 (Some [])))
                  (match fst run with Ok l => l | Raise _ => 0%float end)
                  (snd run))
    as (_ & _ & r0 & passes & final & Er & Hits & Hl & Hi & Hloss & Hw);
    [vm_compute; reflexivity|].
  exists passes, final, (snd run). split; [|split; [exact Hits|]].
  - rewrite <- Hloss. vm_compute. reflexivity.
  - split; [exact Hl|]. split; [exact Hi|].
    injection Er as <-. exact Hw.
Defined.

(** C6, as stated, fails: with [logevery = 0] and three iterations
    configured, the remainder of the first index by [logevery] raises
    [ZeroDivisionError] after the forward evaluation and the loss of the
    first iteration: no gradient is computed and no update made, with or
    without a writer.  And where the forward evaluation refuses a pixel
    that is not finite, the run of three iterations ends in the second. *)
Lemma train_stops_on_zero_stride :
  (forall w,
     @train ToyLoop.collab 1%float (ToyLoop.config 3) 0 (ToyLoop.start 3 w)
     = (Raise (mkExn "ZeroDivisionError" "integer division or modulo by zero"),
        @mkState ToyLoop.collab (ToyLoop.mkPixel 3 0 true) 0.25%float w
          [ZeroGrad; ForwardEval; LossCompute])) /\
  fst (@train ToyLoop.strict 0%float (ToyLoop.config 3) 50
         (@mkState ToyLoop.strict (ToyLoop.mkPixel 0x1p1023 0 false) 0.25%float None []))
  = Raise (RuntimeError "pixel is not finite") /\
  trace (snd (@train ToyLoop.strict 0%float (ToyLoop.config 3) 50
                (@mkState ToyLoop.strict (ToyLoop.mkPixel 0x1p1023 0 false)
                   0.25%float None [])))
  = [ZeroGrad; ForwardEval; LossCompute; Backward; Step; ZeroGrad; ForwardEval].
Proof.
  split; [|split].
  - intros [w|]; vm_compute; reflexivity.
  - vm_compute. reflexivity.
  - vm_compute. reflexivity.
Qed.

(** ** C7 *)

(** C7 (amended). The loop does not look at the loss.  When the loss of
    an iteration is not finite, under whatever test of finiteness, and the
    calls of the iterations return all the same, [train] returns normally,
    with the value of the loss of the last iteration, finite or not, and
    with the model and the optimizer of the last update: no exception is
    raised for it and no iteration index is reported.  The value [train]
    returns is always that of the loss of the last iteration.  What is not
    caught inside the loop is an exception raised by a call: it ends the
    run at that iteration and reaches the caller as it was raised. *)
Theorem nonfinite_loss_is_not_detected (K : Collab) (dataset : Dataset K)
  (config : Config.t (Scalar K)) (logevery : Z) (s : State K) :
  (forall (finite : Scalar K -> bool) r0 passes final m' o' p,
     GriddedResidualConnector K (model_train K (model s)) dataset = Ok r0 ->
     logevery <> 0 ->
     @iterations K dataset config (Np.arange (Config.epochs config))
       (model_train K (model s)) (optimizer s) (passes ++ [final]) m' o' ->
     @can_draw K logevery r0 (passes ++ [final]) (writer s) ->
     In p (passes ++ [final]) ->
     finite (item K (pass_loss p)) = false ->
     exists s',
       @train K dataset config logevery s = (Ok (item K (pass_loss final)), s') /\
       model s' = m' /\ optimizer s' = o') /\
  (forall l s',
     @train K dataset config logevery s = (Ok l, s') ->
     exists r0 passes final,
       GriddedResidualConnector K (model_train K (model s)) dataset = Ok r0 /\
       @iterations K dataset config (Np.arange (Config.epochs config))
         (model_train K (model s)) (optimizer s) (passes ++ [final])
         (model s') (optimizer s') /\
       l = item K (pass_loss final)) /\
  (forall i residuals locals s1 s2 e,
     0 <= i < Config.epochs config ->
     GriddedResidualConnector K (model_train K (model s)) dataset = Ok residuals ->
     for_each (Np.arange i) (@train_body K dataset config logevery) (None, residuals)
       (mkState (model_train K (model s)) (optimizer s) (writer s) (trace s))
     = (Ok locals, s1) ->
     @train_body K dataset config logevery i locals s1 = (Raise e, s2) ->
     @train K dataset config logevery s = (Raise e, s2)).
Proof.
  split; [|split].
  - intros finite r0 passes final m' o' p Er Hl Hits Hd _ _.
    destruct (@train_runs K dataset config logevery s r0 passes final m' o'
                Er Hl Hits Hd) as (s' & E & Hm & Ho & _).
    now exists s'.
  - intros l s' E.
    destruct (@train_run K dataset config logevery s s' l E)
      as (_ & _ & r0 & passes & final & Er & Hits & Hloss & _).
    now exists r0, passes, final.
  - intros i residuals locals s1 s2 e. apply train_raises.
Qed.

Lemma nonfinite_loss_is_not_detected_witness :
  exists passes final s',
    @iterations ToyLoop.collab 0%float (ToyLoop.config 3) [0; 1; 2]
      (ToyLoop.mkPixel 0x1p600 0 true) 0.25%float (passes ++ [final])
      (model s') (optimizer s') /\
    PrimFloat.is_finite (item ToyLoop.collab (pass_loss final)) = false /\
    @train ToyLoop.collab 0%float (ToyLoop.config 3) 50 (ToyLoop.start 0x1p600 None)
    = (Ok (item ToyLoop.collab (pass_loss final)), s').
Proof.
  pose (run := @train ToyLoop.collab 0%float (ToyLoop.config 3) 50
                 (ToyLoop.start 0x1p600 None)).
  destruct (@nonfinite_loss_is_not_detected ToyLoop.collab 0%float
              (ToyLoop.config 3) 50 (ToyLoop.start 0x1p600 None))
    as (Hgoes & Hlast & _).
  destruct (Hlast (match fst run with Ok l => l | Raise _ => 0%float end) (snd run))
    as (r0 & passes & final & Er & Hits & Hloss); [vm_compute; reflexivity|].
  assert (Hf : PrimFloat.is_finite (item ToyLoop.collab (pass_loss final)) = false)
    by (rewrite <- Hloss; vm_compute; reflexivity).
  destruct (Hgoes PrimFloat.is_finite r0 passes final _ _ final Er
              ltac:(discriminate) Hits I
              ltac:(apply in_or_app; right; left; reflexivity) Hf)
    as (s' & E & Hm & Ho).
  exists passes, final, s'. split; [|split; [exact Hf|exact E]].
  rewrite Hm, Ho. exact Hits.
Defined.

(** C7, as stated, fails: from a pixel of intensity [2^600] the loss of
    iteration 0 is already not finite, and the run of three iterations
    neither stops there nor raises: it goes through all three iterations and
    returns the non-finite value. *)
Lemma nonfinite_loss_returns_normally :
  let one := @train ToyLoop.collab 0%float (ToyLoop.config 1) 50
               (ToyLoop.start 0x1p600 None) in
  let three := @train ToyLoop.collab 0%float (ToyLoop.config 3) 50
                 (ToyLoop.start 0x1p600 None) in
  (exists l, fst one = Ok l /\ PrimFloat.is_finite l = false) /\
  (exists l, fst three = Ok l /\ PrimFloat.is_finite l = false) /\
  (forall e, fst three <> Raise e) /\
  trace (snd three)
  = [ZeroGrad; ForwardEval; LossCompute; Backward; Step;
     ZeroGrad; ForwardEval; LossCompute; Backward; Step;
     ZeroGrad; ForwardEval; LossCompute; Backward; Step].
Proof.
  cbv zeta. split; [|split; [|split]].
  - eexists. split; vm_compute; reflexivity.
  - eexists. split; vm_compute; reflexivity.
  - intros e. vm_compute. discriminate.
  - vm_compute. reflexivity.
Qed.

(** ** C9 *)

(** C9 (amended). The sink does not feed back.  From the same model and
    optimizer, a run of [train], and of [cross_validate], with a writer
    either ends as the run without one does (the same value returned or
    the same exception raised, with the same model and the same optimizer),
    or is ended by an exception that a call made to draw a figure raises;
    the run without a writer makes no such call.  So whenever the run with
    a writer returns, the run without one returns the same loss, or the
    same score; and when the calls that draw return, the two runs end
    alike.  Neither run need succeed. *)
Theorem sink_does_not_feed_back (K : Collab)
  (dataset : Dataset K) (config : Config.t (Scalar K)) (logevery : Z)
  (folds : list (Dataset K * Dataset K)) (MODEL_PATH : string)
  (s : State K) (received : list (record K)) :
  let absent := mkState (model s) (optimizer s) None (trace s) in
  let attached := mkState (model s) (optimizer s) (Some received) (trace s) in
  ((fst (@train K dataset config logevery absent)
    = fst (@train K dataset config logevery attached) /\
    core (snd (@train K dataset config logevery absent))
    = core (snd (@train K dataset config logevery attached))) \/
   exists e, fst (@train K dataset config logevery attached) = Raise e /\
             drawing_raises K e) /\
  ((fst (@cross_validate K config folds MODEL_PATH absent)
    = fst (@cross_validate K config folds MODEL_PATH attached) /\
    core (snd (@cross_validate K config folds MODEL_PATH absent))
    = core (snd (@cross_validate K config folds MODEL_PATH attached))) \/
   exists e, fst (@cross_validate K config folds MODEL_PATH attached) = Raise e /\
             drawing_raises K e) /\
  (forall loss,
     fst (@train K dataset config logevery attached) = Ok loss ->
     fst (@train K dataset config logevery absent) = Ok loss /\
     core (snd (@train K dataset config logevery absent))
     = core (snd (@train K dataset config logevery attached))) /\
  (forall score,
     fst (@cross_validate K config folds MODEL_PATH attached) = Ok score ->
     fst (@cross_validate K config folds MODEL_PATH absent) = Ok score /\
     core (snd (@cross_validate K config folds MODEL_PATH absent))
     = core (snd (@cross_validate K config folds MODEL_PATH attached))) /\
  (SinkReturns K ->
   (fst (@train K dataset config logevery absent)
    = fst (@train K dataset config logevery attached) /\
    core (snd (@train K dataset config logevery absent))
    = core (snd (@train K dataset config logevery attached))) /\
   (fst (@cross_validate K config folds MODEL_PATH absent)
    = fst (@cross_validate K config folds MODEL_PATH attached) /\
    core (snd (@cross_validate K config folds MODEL_PATH absent))
    = core (snd (@cross_validate K config folds MODEL_PATH attached)))).
Proof.
  intros absent attached.
  assert (Hw : writer absent = None) by reflexivity.
  assert (Hc : core absent = core attached) by reflexivity.
  pose proof (@train_follows K dataset config logevery absent attached Hw Hc) as Ht.
  pose proof (@cross_validate_follows K config folds MODEL_PATH absent attached Hw Hc)
    as Hv.
  assert (Ht' : (fst (@train K dataset config logevery absent)
                 = fst (@train K dataset config logevery attached) /\
                 core (snd (@train K dataset config logevery absent))
                 = core (snd (@train K dataset config logevery attached))) \/
                exists e, fst (@train K dataset config logevery attached) = Raise e /\
                          drawing_raises K e).
  { destruct Ht as [(Ha & Hs & _)|He]; [left|right; exact He].
    split; [now apply alike_eq|exact Hs]. }
  assert (Hv' : (fst (@cross_validate K config folds MODEL_PATH absent)
                 = fst (@cross_validate K config folds MODEL_PATH attached) /\
                 core (snd (@cross_validate K config folds MODEL_PATH absent))
                 = core (snd (@cross_validate K config folds MODEL_PATH attached))) \/
                exists e, fst (@cross_validate K config folds MODEL_PATH attached)
                          = Raise e /\ drawing_raises K e).
  { destruct Hv as [(Ha & Hs & _)|He]; [left|right; exact He].
    split; [now apply alike_eq|exact Hs]. }
  split; [exact Ht'|]. split; [exact Hv'|]. split; [|split].
  - intros loss E. destruct Ht' as [[Ha Hs]|(e & He & _)]; [|congruence].
    split; [congruence|exact Hs].
  - intros score E. destruct Hv' as [[Ha Hs]|(e & He & _)]; [|congruence].
    split; [congruence|exact Hs].
  - intros S. split.
    + destruct Ht' as [H|(e & _ & He)]; [exact H|].
      destruct (@sink_returns_no_exception K S e He).
    + destruct Hv' as [H|(e & _ & He)]; [exact H|].
      destruct (@sink_returns_no_exception K S e He).
Qed.

Lemma sink_does_not_feed_back_witness :
  SinkReturns ToyLoop.collab /\
  fst (@train ToyLoop.collab 1%float (ToyLoop.config 3) 2 (ToyLoop.start 3 None))
  = fst (@train ToyLoop.collab 1%float (ToyLoop.config 3) 2
           (ToyLoop.start 3 (Some []))) /\
  fst (@cross_validate ToyLoop.collab (ToyLoop.config 3) ToyLoop.folds "model.pt"
         (ToyLoop.start 3 None))
  = fst (@cross_validate ToyLoop.collab (ToyLoop.config 3) ToyLoop.folds "model.pt"
           (ToyLoop.start 3 (Some []))) /\
  fst (@train ToyLoop.collab 1%float (ToyLoop.config 3) 2 (ToyLoop.start 3 None))
  = Ok 0x1.72e44p-1%float.
Proof.
  destruct (@sink_does_not_feed_back ToyLoop.collab 1%float (ToyLoop.config 3) 2
              ToyLoop.folds "model.pt" (ToyLoop.start 3 None) [])
    as (_ & _ & Hloss & _ & Hsame).
  destruct (Hsame toy_sink_returns) as [[Ht _] [Hv _]].
  split; [exact toy_sink_returns|]. split; [exact Ht|]. split; [exact Hv|].
  exact (proj1 (Hloss 0x1.72e44p-1%float ltac:(vm_compute; reflexivity))).
Defined.

(** What the sink has received in the run with a writer, and the loss
    both runs return. *)
Example train_with_and_without_writer :
  let absent := @train ToyLoop.collab 1%float (ToyLoop.config 3) 2
                  (ToyLoop.start 3 None) in
  let attached := @train ToyLoop.collab 1%float (ToyLoop.config 3) 2
                    (ToyLoop.start 3 (Some [])) in
  fst absent = Ok 0x1.72e44p-1%float /\
  fst attached = Ok 0x1.72e44p-1%float /\
  writer (snd absent) = None /\
  option_map (@length _) (writer (snd attached)) = Some 4%nat.
Proof. vm_compute. repeat split; reflexivity. Qed.

(** C9, as stated, fails: where no figure can be drawn, the run of
    [train] without a writer returns the loss, and the run with one is
    ended by the exception of the drawing, in its first iteration, before
    any gradient is computed; so is the run of [cross_validate].  And
    without a writer a run need not succeed: with no iteration configured it
    raises [UnboundLocalError]. *)
Lemma sink_attached_run_fails :
  fst (@train ToyLoop.headless 1%float (ToyLoop.config 3) 2
         (@mkState ToyLoop.headless (ToyLoop.mkPixel 3 0 false) 0.25%float None []))
  = Ok 0x1.72e44p-1%float /\
  @train ToyLoop.headless 1%float (ToyLoop.config 3) 2
    (@mkState ToyLoop.headless (ToyLoop.mkPixel 3 0 false) 0.25%float (Some []) [])
  = (Raise (RuntimeError "no display"),
     @mkState ToyLoop.headless (ToyLoop.mkPixel 3 0 true) 0.25%float
       (Some [add_scalar ToyLoop.headless "loss" 6.625%float (Some 0)])
       [ZeroGrad; ForwardEval; LossCompute; Log]) /\
  (exists score,
     fst (@cross_validate ToyLoop.headless (ToyLoop.config 3) ToyLoop.folds "model.pt"
            (@mkState ToyLoop.headless (ToyLoop.mkPixel 3 0 false) 0.25%float None []))
     = Ok score) /\
  fst (@cross_validate ToyLoop.headless (ToyLoop.config 3) ToyLoop.folds "model.pt"
         (@mkState ToyLoop.headless (ToyLoop.mkPixel 3 0 false) 0.25%float (Some []) []))
  = Raise (RuntimeError "no display") /\
  fst (@train ToyLoop.collab 1%float (ToyLoop.config 0) 2 (ToyLoop.start 3 None))
  = Raise (UnboundLocalError "loss").
Proof.
  split; [|split; [|split; [|split]]].
  - vm_compute. reflexivity.
  - vm_compute. reflexivity.
  - eexists. vm_compute. reflexivity.
  - vm_compute. reflexivity.
  - vm_compute. reflexivity.
Qed.

(** * Further properties of the image model *)

Import Accessors.

(** *** The quadrant shifts *)

Lemma half_le (n : nat) : (Nat.div n 2 <= n)%nat.
Proof. apply Nat.Div0.div_le_upper_bound. lia. Qed.

Lemma rotate_back {A} (l : list A) (k j : nat) :
  (k + j = length l)%nat ->
  skipn j (skipn k l ++ firstn k l) ++ firstn j (skipn k l ++ firstn k l) = l.
Proof.
  intros Hk.
  assert (Hs : length (skipn k l) = j) by (rewrite length_skipn; lia).
  rewrite skipn_app, firstn_app, Hs, Nat.sub_diag. simpl.
  rewrite (@skipn_all2 A j (skipn k l)), (@firstn_all2 A j (skipn k l)) by lia.
  rewrite app_nil_r. simpl. apply firstn_skipn.
Qed.

(** X1. [np.fft.ifftshift] undoes [np.fft.fftshift], and the other way
    round, on arrays of every length, odd ones included. *)
Theorem fftshift_round_trip {A} (l : list A) :
  ifftshift (Np.fftshift l) = l /\ Np.fftshift (ifftshift l) = l.
Proof.
  pose proof (half_le (length l)) as Hh. split.
  - unfold ifftshift. rewrite fftshift_length. unfold Np.fftshift.
    apply rotate_back. lia.
  - unfold Np.fftshift.
    assert (Hl : length (ifftshift l) = length l).
    { unfold ifftshift. rewrite length_app, length_skipn, length_firstn. lia. }
    rewrite Hl. unfold ifftshift. apply rotate_back. lia.
Qed.

Lemma ifftshift_length {A} (l : list A) : length (ifftshift l) = length l.
Proof.
  pose proof (half_le (length l)).
  unfold ifftshift. rewrite length_app, length_skipn, length_firstn. lia.
Qed.

Lemma ifftshift_nth {A} (l : list A) (i : nat) (d : A) :
  (i < length l)%nat ->
  nth i (ifftshift l) d = nth ((i + Nat.div (length l) 2) mod length l) l d.
Proof.
  intros Hi. pose proof (half_le (length l)) as Hh. unfold ifftshift.
  set (k := Nat.div (length l) 2) in *.
  destruct (Nat.lt_ge_cases i (length l - k)) as [Hlt|Hge].
  - rewrite app_nth1 by (rewrite length_skipn; lia).
    rewrite nth_skipn, Nat.mod_small by lia. f_equal. lia.
  - rewrite app_nth2 by (rewrite length_skipn; lia).
    rewrite length_skipn, nth_firstn.
    assert ((i - (length l - k) <? k)%nat = true) as -> by (apply Nat.ltb_lt; lia).
    f_equal.
    apply Nat.mod_unique with (q := 1%nat); lia.
Qed.

Lemma image_shape (n : nat) (x : matrix) :
  has_shape n n x -> has_shape n n (fliplr (ifftshift2 x)).
Proof.
  intros [Hl Hf]. unfold fliplr, ifftshift2. split.
  - now rewrite length_map, ifftshift_length, length_map.
  - apply Forall_forall. intros r Hr.
    apply in_map_iff in Hr. destruct Hr as (r1 & <- & Hr).
    unfold ifftshift in Hr. apply in_app_or in Hr.
    assert (Hin : In r1 (map ifftshift x)).
    { rewrite <- (firstn_skipn (Nat.div (length (map ifftshift x)) 2)).
      apply in_or_app. tauto. }
    apply in_map_iff in Hin. destruct Hin as (r2 & <- & Hin).
    rewrite length_rev, ifftshift_length.
    rewrite Forall_forall in Hf. now apply Hf.
Qed.

(** X2. The [image] accessor returns an array of the shape of the pixel
    array in which pixel [(i, j)] is the stored pixel of row
    [(i + n//2) mod n] and column [(n - 1 - j + n//2) mod n]: the quadrants
    swapped back and the columns mirrored. *)
Theorem image_pixel (m : MpolImage) (n i j : nat) :
  has_shape n n (_image m) -> (i < n)%nat -> (j < n)%nat ->
  has_shape n n (image m) /\
  nth j (nth i (image m) []) 0%Q
  = nth ((n - 1 - j + Nat.div n 2) mod n)
        (nth ((i + Nat.div n 2) mod n) (_image m) []) 0%Q.
Proof.
  intros Hs Hi Hj. split; [now apply image_shape|].
  destruct Hs as [Hl Hf]. unfold image, fliplr, ifftshift2.
  change (@nil Q) with (rev (@nil Q)) at 1. rewrite map_nth.
  rewrite ifftshift_nth by (rewrite length_map; lia).
  rewrite length_map, Hl.
  change (@nil Q) with (ifftshift (@nil Q)) at 1. rewrite map_nth.
  set (r := nth ((i + Nat.div n 2) mod n) (_image m) []).
  assert (Hr : length r = n).
  { rewrite Forall_forall in Hf. apply Hf. apply nth_In. rewrite Hl.
    apply Nat.mod_upper_bound. lia. }
  rewrite rev_nth by (rewrite ifftshift_length; lia).
  rewrite ifftshift_length, Hr.
  rewrite ifftshift_nth by lia. rewrite Hr. f_equal. f_equal. lia.
Qed.

Lemma image_pixel_witness :
  exists m,
    Toy.new 4 1 None = Some m /\ has_shape 4 4 (_image m) /\
    nth 3 (nth 1 (image m) []) 0%Q = nth 2 (nth 3 (_image m) []) 0%Q.
Proof.
  destruct (Toy.new 4 1 None) as [m|] eqn:E; [|vm_compute in E; discriminate E].
  exists m. split; [reflexivity|].
  assert (Hs : has_shape 4 4 (_image m)).
  { vm_compute in E. injection E as <-. simpl. apply (ones_shape 4). }
  split; [exact Hs|].
  exact (proj2 (@image_pixel m 4 1 3 Hs ltac:(lia) ltac:(lia))).
Defined.

(** *** The display bounds *)

Lemma fold_min_le (t : list Q) (x : Q) :
  (fold_left Qmin t x <= x)%Q /\ Forall (fun y => fold_left Qmin t x <= y)%Q t.
Proof.
  revert x. induction t as [|y t IH]; intros x; simpl.
  - split; [apply Qle_refl|constructor].
  - destruct (IH (Qmin x y)) as [H1 H2]. split.
    + eapply Qle_trans; [exact H1|apply Q.le_min_l].
    + constructor; [|exact H2]. eapply Qle_trans; [exact H1|apply Q.le_min_r].
Qed.

Lemma fold_max_ge (t : list Q) (x : Q) :
  (x <= fold_left Qmax t x)%Q /\ Forall (fun y => y <= fold_left Qmax t x)%Q t.
Proof.
  revert x. induction t as [|y t IH]; intros x; simpl.
  - split; [apply Qle_refl|constructor].
  - destruct (IH (Qmax x y)) as [H1 H2]. split.
    + eapply Qle_trans; [apply Q.le_max_l|exact H1].
    + constructor; [|exact H2]. eapply Qle_trans; [apply Q.le_max_r|exact H1].
Qed.

Lemma Qdiv_le_compat (a b c : Q) : (0 < c)%Q -> (a <= b)%Q -> (a / c <= b / c)%Q.
Proof.
  intros Hc Hab. unfold Qdiv. apply Qmult_le_compat_r; [exact Hab|].
  apply Qlt_le_weak. now apply Qinv_lt_0_compat.
Qed.

(** X3. On every constructed model [extent] returns four bounds
    [[high, low, low, high]], [low] and [high] being the least and the
    greatest entry of the image axis in arcseconds: every entry of the axis
    lies between them, so the horizontal pair runs from high to low (east to
    the left) and the vertical pair from low to high.  On an empty axis it
    raises the [ValueError] of [np.min]. *)
Theorem extent_bounds (G : Gridding) (L : GriddingLaws G) (npix : Z) (cs : Q)
  (ds : option UVDataset) (m : MpolImage) (out : list string) :
  __init__ G npix cs ds = Ok (m, out) ->
  (exists low high,
     extent G m = Ok [high; low; low; high] /\ (low <= high)%Q /\
     Forall (fun x => low <= x / arcsec G /\ x / arcsec G <= high)%Q (ll m)) /\
  (forall m', ll m' = [] -> exists e,
     extent G m' = Raise e /\ exn_class e = "ValueError"%string).
Proof.
  intros H. split.
  - pose proof (init_inv _ _ _ _ H) as (Hev & _ & Hpos & _).
    apply init_attributes in H. destruct H as (l & c & H). cbv zeta in H.
    destruct H as (El & _ & _ & _ & Ell & _).
    destruct (fftspace_length L (cs * arcsec G * inject_Z (npix / 2))%Q Hpos Hev)
      as (l' & El' & Hlen).
    rewrite El in El'. injection El' as <-.
    unfold extent. rewrite Ell.
    destruct l as [|x t]; [simpl in Hlen; lia|]. simpl.
    destruct (fold_min_le t x) as [Hm1 Hm2], (fold_max_ge t x) as [HM1 HM2].
    pose proof (arcsec_pos L) as Ha.
    eexists _, _. split; [reflexivity|]. split.
    + apply Qdiv_le_compat; [exact Ha|]. eapply Qle_trans; eassumption.
    + constructor.
      * split; apply Qdiv_le_compat; assumption.
      * rewrite Forall_forall in *. intros y Hy.
        split; apply Qdiv_le_compat; auto.
  - intros m' E. unfold extent. rewrite E. simpl. eexists. split; reflexivity.
Qed.

Lemma extent_bounds_witness :
  GriddingLaws Toy.gridding /\
  exists m out low high,
    __init__ Toy.gridding 4 1 None = Ok (m, out) /\
    extent Toy.gridding m = Ok [high; low; low; high] /\ (low <= high)%Q.
Proof.
  split; [exact toy_gridding_laws|].
  destruct (__init__ Toy.gridding 4 1 None) as [[m out]|e] eqn:E;
    [|vm_compute in E; discriminate E].
  destruct (proj1 (@extent_bounds Toy.gridding toy_gridding_laws 4 1 None m out E))
    as (low & high & He & Hle & _).
  exists m, out, low, high. repeat split; assumption.
Defined.

(** On the stand-in grid of four pixels of one arcsecond the bounds are
    one arcsecond to the east, two to the west. *)
Example extent_four_pixels :
  match Toy.new 4 1 None with
  | Some m => option_map (map Qred)
                (match extent Toy.gridding m with Ok e => Some e | Raise _ => None end)
              = Some [1; -2; -2; 1]%Q
  | None => False
  end.
Proof. vm_compute. reflexivity. Qed.

(** *** The sampled frequencies *)





(** *** Binding a dataset again *)

(** X5. [precache_interpolation] never touches the pixel array, the
    apodization matrix or the axes, whether it returns or raises.  When it
    returns, both operators are the matrices [calc_matrices] computed for
    the new dataset, both sized by the shape of the real one.  When it
    raises, the imaginary operator is the one the model had before, and the
    model is either unchanged or holds the new real operator already (the
    case where only the imaginary matrix is refused). *)
Theorem precache_interpolation_frame (G : Gridding) (d : UVDataset) (m : MpolImage) :
  let (r, m') := precache_interpolation G d m in
  (Images.npix m' = Images.npix m /\ cell_size m' = cell_size m /\ ll m' = ll m /\
   dll m' = dll m /\ us m' = us m /\ vs m' = vs m /\
   _image m' = _image m /\ corrfun m' = corrfun m) /\
  match r with
  | Ok _ =>
      exists Cre Cim,
        calc_matrices G (uu d) (vv d) (us m) (vs m) = Ok (Cre, Cim) /\
        C_re m' = Some (mkSparse (row Cre) (col Cre) (data Cre) (shape Cre)) /\
        C_im m' = Some (mkSparse (row Cim) (col Cim) (data Cim) (shape Cre))
  | Raise _ =>
      C_im m' = C_im m /\
      (m' = m \/
       exists Cre Cim,
         calc_matrices G (uu d) (vv d) (us m) (vs m) = Ok (Cre, Cim) /\
         C_re m' = Some (mkSparse (row Cre) (col Cre) (data Cre) (shape Cre)))
  end.
Proof.
  unfold precache_interpolation, Meth.bind, Meth.get, Meth.lift, set_C_re, set_C_im.
  destruct (calc_matrices G (uu d) (vv d) (us m) (vs m)) as [[Cre Cim]|e];
    [|now repeat split; auto].
  destruct (sparse_tensor (row Cre) (col Cre) (data Cre) (shape Cre)) as [sre|e] eqn:Ere;
    [|now repeat split; auto].
  apply sparse_tensor_inv in Ere. subst sre.
  destruct (sparse_tensor (row Cim) (col Cim) (data Cim) (shape Cre)) as [sim|e] eqn:Eim.
  - apply sparse_tensor_inv in Eim. subst sim. simpl.
    split; [repeat split|]. exists Cre, Cim. repeat split.
  - simpl. split; [repeat split|]. split; [reflexivity|].
    right. exists Cre, Cim. split; reflexivity.
Qed.

Lemma precache_fields (G : Gridding) (d : UVDataset) (m m' : MpolImage)
  (r : result unit) :
  precache_interpolation G d m = (r, m') ->
  Images.npix m' = Images.npix m /\ cell_size m' = cell_size m /\ ll m' = ll m /\
  dll m' = dll m /\ us m' = us m /\ vs m' = vs m /\
  _image m' = _image m /\ corrfun m' = corrfun m.
Proof.
  unfold precache_interpolation, Meth.bind, Meth.get, Meth.lift, set_C_re, set_C_im.
  destruct (calc_matrices G (uu d) (vv d) (us m) (vs m)) as [[Cre Cim]|e];
    [|intros [= <- <-]; repeat split].
  destruct (sparse_tensor (row Cre) (col Cre) (data Cre) (shape Cre)) as [sre|e];
    [|intros [= <- <-]; repeat split].
  destruct (sparse_tensor (row Cim) (col Cim) (data Cim) (shape Cre)) as [sim|e];
    intros [= <- <-]; repeat split.
Qed.

(** X17. The last dataset bound wins.  When [precache_interpolation]
    returns for a dataset on a model, it returns for that dataset, with the
    very same resulting model, on what an earlier call for any other dataset
    has left of that model, whether the earlier call returned or raised
    halfway: nothing of the earlier dataset is kept. *)
Theorem precache_interpolation_rebinds (G : Gridding) (d1 d2 : UVDataset)
  (m m2 : MpolImage) :
  precache_interpolation G d2 m = (Ok tt, m2) ->
  precache_interpolation G d2 (snd (precache_interpolation G d1 m)) = (Ok tt, m2).
Proof.
  intros H.
  destruct (precache_interpolation G d1 m) as [r1 m1] eqn:E1. cbn [snd].
  destruct (precache_fields _ _ _ E1) as (F1 & F2 & F3 & F4 & F5 & F6 & F7 & F8).
  unfold precache_interpolation, Meth.bind, Meth.get, Meth.lift, set_C_re, set_C_im
    in H |- *.
  rewrite F5, F6.
  destruct (calc_matrices G (uu d2) (vv d2) (us m) (vs m)) as [[Cre Cim]|e];
    [|discriminate H].
  destruct (sparse_tensor (row Cre) (col Cre) (data Cre) (shape Cre)) as [sre|e];
    [|discriminate H].
  destruct (sparse_tensor (row Cim) (col Cim) (data Cim) (shape Cre)) as [sim|e];
    [|discriminate H].
  injection H as <-. cbn. now rewrite F1, F2, F3, F4, F5, F6, F7, F8.
Qed.

Lemma precache_interpolation_rebinds_witness :
  exists m m2,
    Toy.new 2 1 None = Some m /\
    precache_interpolation Toy.gridding Toy.dataset3 m = (Ok tt, m2) /\
    let d1 := mkUVDataset [7]%Q [9]%Q [1]%Q [0]%Q [0]%Q in
    precache_interpolation Toy.gridding Toy.dataset3
      (snd (precache_interpolation Toy.gridding d1 m)) = (Ok tt, m2).
Proof.
  destruct (Toy.new 2 1 None) as [m|] eqn:E; [|vm_compute in E; discriminate E].
  assert (H : exists m2,
             precache_interpolation Toy.gridding Toy.dataset3 m = (Ok tt, m2)).
  { vm_compute in E. injection E as <-. eexists. vm_compute. reflexivity. }
  destruct H as (m2 & E2).
  exists m, m2. split; [reflexivity|]. split; [exact E2|]. cbv zeta.
  exact (@precache_interpolation_rebinds Toy.gridding _ Toy.dataset3 m m2 E2).
Defined.

(** *** When [forward] returns *)

Lemma has_shapeb_sound (n c : nat) (x : matrix) :
  has_shapeb n c x = true -> has_shape n c x.
Proof.
  revert n. induction x as [|r x IH]; intros n H; simpl in H.
  - destruct n; [split; [reflexivity|constructor]|discriminate].
  - destruct n as [|n]; [discriminate|].
    apply andb_true_iff in H. destruct H as [Hr Hx].
    apply Nat.eqb_eq in Hr. destruct (IH n Hx) as [Hl Hf].
    split; [simpl; now rewrite Hl|now constructor].
Qed.

Lemma sparse_mm_returns_iff (C : sparse) (v : list Q) :
  (exists r, sparse_mm C v = Ok r) <-> snd (sp_size C) = Z.of_nat (length v).
Proof.
  unfold sparse_mm. destruct (snd (sp_size C) =? Z.of_nat (length v)) eqn:E.
  - apply Z.eqb_eq in E. split; [intros _; exact E|intros _; eauto].
  - apply Z.eqb_neq in E. split; [intros (r & Hr); discriminate|contradiction].
Qed.

Lemma sparse_mm_sized (C : sparse) (v : list Q) (k : nat) :
  length v = k ->
  sparse_mm C v
  = if snd (sp_size C) =? Z.of_nat k
    then Ok (map (row_dot C v) (Np.arange (fst (sp_size C))))
    else Raise (RuntimeError "size mismatch in sparse.mm").
Proof. intros <-. reflexivity. Qed.

Lemma plane_length_rect {A} (f : cplx -> A) (s : Q) (tw : Z -> Z -> cplx)
  (r1 r2 : nat) (x : matrix) :
  (0 < r1)%nat -> has_shape r1 r2 x ->
  length (concat (map (map f) (map (map (cscale s)) (rfft tw x))))
  = (r1 * Z.to_nat (Z.of_nat r2 / 2 + 1))%nat.
Proof.
  intros Hn Hx. destruct (has_shape_first_row Hn Hx) as (Hl & Hh & _).
  destruct (rfft_rows tw x) as [Hr Hf]. rewrite Hh in Hf.
  rewrite concat_length_rows with (c := Z.to_nat (Z.of_nat r2 / 2 + 1)).
  - now rewrite !length_map, Hr, Hl.
  - apply Forall_forall. intros r Hin.
    apply in_map_iff in Hin. destruct Hin as (q1 & <- & Hin).
    apply in_map_iff in Hin. destruct Hin as (q2 & <- & Hin).
    rewrite !length_map. rewrite Forall_forall in Hf. now apply Hf.
Qed.

Lemma expand_to_shape {A} (k a : nat) (l : list A) :
  length l = a -> a = k \/ a = 1%nat -> length (expand_to k l) = k.
Proof.
  intros Hl [->| ->].
  - now rewrite <- Hl, expand_to_length.
  - destruct l as [|v [|w l]]; try discriminate Hl. simpl. apply repeat_length.
Qed.

Lemma expand_to_In {A} (k : nat) (l : list A) (v : A) :
  In v (expand_to k l) -> In v l.
Proof.
  destruct l as [|a [|b l]]; simpl; auto.
  intros H. apply repeat_spec in H. now left.
Qed.

Lemma expand_shape (a b r1 r2 : nat) (x : matrix) :
  has_shape a b x -> a = r1 \/ a = 1%nat -> b = r2 \/ b = 1%nat ->
  has_shape r1 r2 (expand r1 r2 x).
Proof.
  intros [Hl Hf] Ha Hb. unfold expand. split.
  - rewrite length_map. now apply expand_to_shape with (a := a).
  - apply Forall_forall. intros row Hin. apply in_map_iff in Hin.
    destruct Hin as (row0 & <- & Hin). apply expand_to_In in Hin.
    rewrite Forall_forall in Hf. apply expand_to_shape with (a := b); auto.
Qed.

Lemma broadcast_dim_some (a c r : nat) :
  broadcast_dim a c = Some r ->
  (c = a \/ c = 1%nat \/ a = 1%nat) /\ (a = r \/ a = 1%nat) /\ (c = r \/ c = 1%nat).
Proof.
  unfold broadcast_dim.
  destruct (Nat.eqb a c) eqn:E1; [apply Nat.eqb_eq in E1; intros [= <-]; auto|].
  destruct (Nat.eqb a 1) eqn:E2; [apply Nat.eqb_eq in E2; intros [= <-]; auto|].
  destruct (Nat.eqb c 1) eqn:E3; [apply Nat.eqb_eq in E3; intros [= <-]; auto|].
  discriminate.
Qed.

Lemma broadcast_dim_max (a c r : nat) :
  (0 < a)%nat -> (0 < c)%nat -> broadcast_dim a c = Some r -> r = Nat.max a c.
Proof.
  intros Ha Hc. unfold broadcast_dim.
  destruct (Nat.eqb a c) eqn:E1; [apply Nat.eqb_eq in E1; intros [= <-]; lia|].
  destruct (Nat.eqb a 1) eqn:E2; [apply Nat.eqb_eq in E2; intros [= <-]; lia|].
  destruct (Nat.eqb c 1) eqn:E3; [apply Nat.eqb_eq in E3; intros [= <-]; lia|].
  discriminate.
Qed.

Lemma broadcast_dim_none (a c : nat) :
  broadcast_dim a c = None -> ~ (c = a \/ c = 1%nat \/ a = 1%nat).
Proof.
  unfold broadcast_dim.
  destruct (Nat.eqb a c) eqn:E1; [discriminate|].
  destruct (Nat.eqb a 1) eqn:E2; [discriminate|].
  destruct (Nat.eqb c 1) eqn:E3; [discriminate|].
  apply Nat.eqb_neq in E1, E2, E3. intros _ [H|[H|H]]; congruence.
Qed.

Lemma broadcast_dim_compatible (a c : nat) :
  c = a \/ c = 1%nat \/ a = 1%nat -> exists r, broadcast_dim a c = Some r.
Proof.
  intros H. destruct (broadcast_dim a c) as [r|] eqn:E; [now exists r|].
  apply broadcast_dim_none in E. contradiction.
Qed.

(** The product of two tensors of positive sizes. *)
Lemma mul_broadcast (a b c d : nat) (x y : matrix) :
  (0 < a)%nat -> (0 < c)%nat -> has_shape a b x -> has_shape c d y ->
  mul x y
  = match broadcast_dim a c, broadcast_dim b d with
    | Some r1, Some r2 => Ok (Spec.apodize (expand r1 r2 x) (expand r1 r2 y))
    | _, _ =>
        Raise (RuntimeError "The size of tensor a must match the size of tensor b")
    end.
Proof.
  intros Ha Hc Hx Hy. unfold mul.
  rewrite (is_tensor_of Ha Hx), (is_tensor_of Hc Hy).
  rewrite (shape2_of Ha Hx), (shape2_of Hc Hy). reflexivity.
Qed.

(** X6. On a model with an [n] by [n] pixel array and a [c1] by [c2]
    apodization matrix, [forward] returns exactly when the two shapes
    broadcast (each size of the matrix is [n] or 1, or [n] is 1) and both
    operators are cached with as many columns as the flattened half plane
    of the product has cells.  Otherwise what it raises is a
    [RuntimeError] (shapes or sizes that do not fit) or an [AttributeError]
    (an operator that was never cached), nothing else. *)
Theorem forward_returns_iff (G : Gridding) (m : MpolImage) (n c1 c2 : nat) :
  (0 < n)%nat -> has_shape n n (_image m) ->
  (0 < c1)%nat -> (0 < c2)%nat -> has_shape c1 c2 (corrfun m) ->
  let cells :=
    Z.of_nat (Nat.max n c1 * Z.to_nat (Z.of_nat (Nat.max n c2) / 2 + 1)) in
  ((exists r, fst (forward G m) = Ok r) <->
   ((c1 = n \/ c1 = 1%nat \/ n = 1%nat) /\ (c2 = n \/ c2 = 1%nat \/ n = 1%nat) /\
    exists Cre Cim,
      C_re m = Some Cre /\ C_im m = Some Cim /\
      snd (sp_size Cre) = cells /\ snd (sp_size Cim) = cells)) /\
  (forall e, fst (forward G m) = Raise e ->
     exn_class e = "RuntimeError"%string \/ exn_class e = "AttributeError"%string).
Proof.
  intros Hn Hi Hc1 Hc2 Hc cells.
  unfold forward, Meth.bind, Meth.get, Meth.lift, Meth.ret, getattr.
  rewrite (mul_broadcast Hn Hc1 Hi Hc).
  destruct (broadcast_dim n c1) as [r1|] eqn:B1.
  2:{ apply broadcast_dim_none in B1.
      split; [|intros e [= <-]; now left].
      split; [intros (r & Hr'); discriminate|]. intros (H & _). contradiction. }
  destruct (broadcast_dim n c2) as [r2|] eqn:B2.
  2:{ apply broadcast_dim_none in B2.
      split; [|intros e [= <-]; now left].
      split; [intros (r & Hr'); discriminate|]. intros (_ & H & _). contradiction. }
  pose proof (broadcast_dim_max Hn Hc1 B1) as M1.
  pose proof (broadcast_dim_max Hn Hc2 B2) as M2.
  destruct (broadcast_dim_some _ _ B1) as (D1 & Ex1 & Ey1).
  destruct (broadcast_dim_some _ _ B2) as (D2 & Ex2 & Ey2).
  subst r1 r2.
  assert (Hr1 : (0 < Nat.max n c1)%nat) by lia.
  pose proof (apodize_shape (expand_shape Hi Ex1 Ex2) (expand_shape Hc Ey1 Ey2)) as Ha.
  cbv beta iota zeta.
  pose proof (plane_length_rect fst (dll m ^ 2) (twiddle G) Hr1 Ha) as Lre.
  pose proof (plane_length_rect snd (dll m ^ 2) (twiddle G) Hr1 Ha) as Lim.
  destruct (C_re m) as [Cre|]; cbv beta iota.
  2:{ split; [|intros e [= <-]; now right].
      split; [intros (r & Hr'); discriminate|].
      intros (_ & _ & ? & ? & [=] & _). }
  rewrite !(@sparse_mm_sized Cre _
              (Nat.max n c1 * Z.to_nat (Z.of_nat (Nat.max n c2) / 2 + 1)))
    by exact Lre.
  fold cells.
  destruct (snd (sp_size Cre) =? cells) eqn:E1; cbv beta iota.
  2:{ apply Z.eqb_neq in E1. split; [|intros e [= <-]; now left].
      split; [intros (r & Hr'); discriminate|].
      intros (_ & _ & q1 & q2 & [= <-] & _ & Hs & _). contradiction. }
  apply Z.eqb_eq in E1.
  destruct (C_im m) as [Cim|]; cbv beta iota.
  2:{ split; [|intros e [= <-]; now right].
      split; [intros (r & Hr'); discriminate|].
      intros (_ & _ & ? & ? & _ & [=] & _). }
  rewrite !(@sparse_mm_sized Cim _
              (Nat.max n c1 * Z.to_nat (Z.of_nat (Nat.max n c2) / 2 + 1)))
    by exact Lim.
  fold cells.
  destruct (snd (sp_size Cim) =? cells) eqn:E2; cbv beta iota.
  - apply Z.eqb_eq in E2. split; [|intros e [=]].
    split; [intros _|intros _; eexists; reflexivity].
    split; [exact D1|]. split; [exact D2|]. exists Cre, Cim. repeat split; assumption.
  - apply Z.eqb_neq in E2. split; [|intros e [= <-]; now left].
    split; [intros (r & Hr'); discriminate|].
    intros (_ & _ & q1 & q2 & _ & [= <-] & _ & Hs). contradiction.
Qed.

(** *** The prediction is linear in the brightness *)

Section Homogeneity.

Variable a : Q.

Lemma apodize_row_scaled (r rc : list Q) :
  Forall2 (Accessors.scaled a) (map2 Qmult (map (Qmult a) r) rc) (map2 Qmult r rc).
Proof.
  revert rc. induction r as [|p r IH]; intros [|q rc]; simpl; try constructor.
  - unfold Accessors.scaled. ring.
  - apply IH.
Qed.

Lemma apodize_scaled (x c : matrix) :
  Forall2 (Forall2 (Accessors.scaled a)) (Spec.apodize (brighten a x) c) (Spec.apodize x c).
Proof.
  unfold Spec.apodize, brighten. revert c.
  induction x as [|r x IH]; intros [|rc c]; simpl; try constructor.
  - apply apodize_row_scaled.
  - apply IH.
Qed.

Lemma combine_scaled {A B} (R : A -> A -> Prop) (idx : list B) (l' l : list A) :
  Forall2 R l' l ->
  Forall2 (fun p q => fst p = fst q /\ R (snd p) (snd q)) (combine idx l') (combine idx l).
Proof.
  intros H. revert idx. induction H as [|u v l' l Huv _ IH]; intros [|i idx]; simpl;
    constructor; auto.
Qed.

Lemma enumerate_scaled {A} (R : A -> A -> Prop) (l' l : list A) :
  Forall2 R l' l ->
  Forall2 (fun p q => fst p = fst q /\ R (snd p) (snd q)) (enumerate l') (enumerate l).
Proof.
  intros H. unfold enumerate. rewrite (Forall2_length H). now apply combine_scaled.
Qed.

Lemma csum_scaled (l' l : list cplx) :
  Forall2 (Accessors.cscaled a) l' l -> (Accessors.cscaled a) (csum l') (csum l).
Proof.
  induction 1 as [|u v l' l [H1 H2] _ [IH1 IH2]]; simpl.
  - split; unfold Accessors.scaled; simpl; ring.
  - unfold Accessors.cscaled, Accessors.scaled in *. simpl. rewrite H1, H2, IH1, IH2. split; ring.
Qed.

Lemma Forall2_map {A B C} (R : B -> C -> Prop) (P : A -> A -> Prop)
  (f : A -> B) (g : A -> C) (l' l : list A) :
  (forall x y, P x y -> R (f x) (g y)) ->
  Forall2 P l' l -> Forall2 R (map f l') (map g l).
Proof. intros H. induction 1; simpl; constructor; auto. Qed.

Lemma Forall2_same {A} (P : A -> A -> Prop) (l : list A) :
  (forall x, P x x) -> Forall2 P l l.
Proof. intros H. induction l; constructor; auto. Qed.

Lemma dft_bin_scaled (tw : Z -> Z -> cplx) (x' x : matrix) (N1 N2 k1 k2 : Z) :
  Forall2 (Forall2 (Accessors.scaled a)) x' x ->
  (Accessors.cscaled a) (dft_bin tw x' N1 N2 k1 k2) (dft_bin tw x N1 N2 k1 k2).
Proof.
  intros H. unfold dft_bin. apply csum_scaled.
  eapply Forall2_map; [|apply enumerate_scaled; exact H].
  intros [n1 r'] [n1' r] [Hn Hr]. simpl in Hn, Hr. subst n1'.
  apply csum_scaled.
  eapply Forall2_map; [|apply enumerate_scaled; exact Hr].
  intros [n2 u] [n2' v] [Hn Hv]. simpl in Hn, Hv. subst n2'.
  unfold Accessors.cscaled, Accessors.scaled, cscale in *. simpl. rewrite Hv. split; ring.
Qed.

Lemma rfft_scaled (tw : Z -> Z -> cplx) (x' x : matrix) :
  Forall2 (Forall2 (Accessors.scaled a)) x' x ->
  Forall2 (Forall2 (Accessors.cscaled a)) (rfft tw x') (rfft tw x).
Proof.
  intros H. unfold rfft. rewrite (Forall2_length H).
  assert (Hh : length (hd [] x') = length (hd [] x)).
  { destruct H as [|r' r ? ? Hr _]; [reflexivity|]. simpl. exact (Forall2_length Hr). }
  rewrite Hh.
  eapply Forall2_map; [|apply Forall2_same; intros k1; exact (eq_refl k1)].
  intros k1 ? <-.
  eapply Forall2_map; [|apply Forall2_same; intros k2; exact (eq_refl k2)].
  intros k2 ? <-. now apply dft_bin_scaled.
Qed.

Lemma concat_scaled {A} (R : A -> A -> Prop) (x' x : list (list A)) :
  Forall2 (Forall2 R) x' x -> Forall2 R (concat x') (concat x).
Proof. induction 1; simpl; [constructor|]. now apply Forall2_app. Qed.

Lemma plane_scaled (f : cplx -> Q) (s : Q) (tw : Z -> Z -> cplx) (x' x : matrix) :
  (forall u v, (Accessors.cscaled a) u v -> (Accessors.scaled a) (f u) (f v)) ->
  Forall2 (Forall2 (Accessors.scaled a)) x' x ->
  Forall2 (Accessors.scaled a)
    (concat (map (map f) (map (map (cscale s)) (rfft tw x'))))
    (concat (map (map f) (map (map (cscale s)) (rfft tw x)))).
Proof.
  intros Hf H. apply concat_scaled. rewrite !map_map.
  eapply Forall2_map; [|apply rfft_scaled; exact H].
  intros r' r Hr. rewrite !map_map.
  eapply Forall2_map; [|exact Hr].
  intros u v [H1 H2]. apply Hf. unfold Accessors.cscaled, Accessors.scaled, cscale in *. simpl.
  rewrite H1, H2. split; ring.
Qed.

Lemma nth_scaled (v' v : list Q) (c : nat) :
  Forall2 (Accessors.scaled a) v' v -> (Accessors.scaled a) (nth c v' 0%Q) (nth c v 0%Q).
Proof.
  intros H. revert c. induction H as [|p q v' v Hpq _ IH]; intros [|c]; simpl; auto;
    unfold Accessors.scaled; ring.
Qed.

Lemma row_dot_scaled (C : sparse) (v' v : list Q) (r : Z) :
  Forall2 (Accessors.scaled a) v' v -> (Accessors.scaled a) (row_dot C v' r) (row_dot C v r).
Proof.
  intros H. unfold row_dot.
  induction (combine (sp_rows C) (combine (sp_cols C) (sp_values C)))
    as [|[i [c x]] l IH]; simpl.
  - unfold Accessors.scaled. ring.
  - unfold Accessors.scaled, qsum in *. simpl. rewrite IH.
    destruct (i =? r); [|ring].
    pose proof (nth_scaled (Z.to_nat c) H) as Hn. unfold Accessors.scaled in Hn.
    rewrite Hn. ring.
Qed.

Lemma interpolate_scaled (C : sparse) (x' x : list (list Q)) :
  Forall2 (Accessors.scaled a) (concat x') (concat x) ->
  Forall2 (Accessors.scaled a) (Spec.interpolate C x') (Spec.interpolate C x).
Proof.
  intros H. unfold Spec.interpolate.
  eapply Forall2_map; [|apply Forall2_same; intros r; exact (eq_refl r)].
  intros r ? <-. now apply row_dot_scaled.
Qed.

End Homogeneity.

Lemma brighten_shape (a : Q) (n : nat) (x : matrix) :
  has_shape n n x -> has_shape n n (brighten a x).
Proof.
  intros [Hl Hf]. unfold brighten. split; [now rewrite length_map|].
  apply Forall_forall. intros r Hr. apply in_map_iff in Hr.
  destruct Hr as (r0 & <- & Hr). rewrite length_map.
  rewrite Forall_forall in Hf. now apply Hf.
Qed.

(** X7. The prediction is homogeneous in the brightness: on a model that
    is ready for its dataset, multiplying every pixel by [a] multiplies
    every entry of both predicted vectors by [a], and the brightened model
    is still ready. *)
Theorem forward_homogeneous (G : Gridding) (d : UVDataset) (m : MpolImage) (a : Q) :
  precached d m ->
  let m' := with_image (brighten a (_image m)) m in
  precached d m' /\
  exists re im re' im',
    fst (forward G m) = Ok (re, im) /\
    fst (forward G m') = Ok (re', im') /\
    Forall2 (fun p q => p == a * q)%Q re' re /\
    Forall2 (fun p q => p == a * q)%Q im' im.
Proof.
  intros P m'.
  destruct P as (n & Cre & Cim & Hn & Hi & Hc & Ere & Eim & Hs & Hs').
  pose proof (brighten_shape a Hi) as Hi'.
  split.
  { exists n, Cre, Cim. split; [exact Hn|].
    split; [exact Hi'|]. split; [exact Hc|].
    split; [exact Ere|]. split; [exact Eim|]. split; assumption. }
  assert (Hcols : snd (sp_size Cre) = Z.of_nat (n * Z.to_nat (Z.of_nat n / 2 + 1)))
    by now rewrite Hs.
  pose proof (@forward_precached G m n Cre Cim Hn Hi Hc Ere Eim Hcols Hs') as E.
  pose proof (@forward_precached G m' n Cre Cim Hn Hi' Hc Ere Eim Hcols Hs') as E'.
  rewrite E, E'. simpl fst. unfold Spec.forward_spec.
  eexists _, _, _, _. split; [reflexivity|]. split; [reflexivity|].
  unfold Spec.scaled_transform, Spec.real_plane, Spec.imag_plane. simpl.
  split; apply interpolate_scaled; apply plane_scaled;
    try apply apodize_scaled; intros u v [H1 H2]; assumption.
Qed.

Lemma forward_homogeneous_witness :
  exists m,
    Toy.new 2 1 (Some Toy.dataset3) = Some m /\ precached Toy.dataset3 m /\
    exists re im re' im',
      fst (forward Toy.gridding m) = Ok (re, im) /\
      fst (forward Toy.gridding (with_image (brighten (3 # 2) (_image m)) m))
      = Ok (re', im') /\
      Forall2 (fun p q => p == (3 # 2) * q)%Q re' re.
Proof.
  destruct (Toy.new 2 1 (Some Toy.dataset3)) as [m|] eqn:E; [|discriminate E].
  exists m. split; [reflexivity|].
  assert (P : precached Toy.dataset3 m).
  { unfold Toy.new in E.
    destruct (__init__ Toy.gridding 2 1 (Some Toy.dataset3)) as [[m' out]|e] eqn:Ei;
      [|discriminate E].
    injection E as ->. eapply init_precached; [exact toy_gridding_laws|exact Ei]. }
  split; [exact P|].
  destruct (proj2 (@forward_homogeneous Toy.gridding Toy.dataset3 m (3 # 2) P))
    as (re & im & re' & im' & E1 & E2 & H1 & _).
  exists re, im, re', im'. repeat split; assumption.
Defined.

Lemma forward_returns_iff_witness :
  exists m,
    Toy.new 2 1 (Some Toy.dataset3) = Some m /\
    (0 < 2)%nat /\ has_shape 2 2 (_image m) /\ has_shape 2 2 (corrfun m) /\
    (exists r, fst (forward Toy.gridding m) = Ok r) /\
    exists Cre Cim,
      C_re m = Some Cre /\ C_im m = Some Cim /\
      snd (sp_size Cre) = 4 /\ snd (sp_size Cim) = 4.
Proof.
  destruct (Toy.new 2 1 (Some Toy.dataset3)) as [m|] eqn:E;
    [|vm_compute in E; discriminate E].
  exists m. split; [reflexivity|]. split; [lia|].
  assert (Hs : has_shape 2 2 (_image m)).
  { vm_compute in E. injection E as <-. simpl. apply (ones_shape 2). }
  assert (Hc : has_shape 2 2 (corrfun m)).
  { vm_compute in E. injection E as <-. simpl.
    split; [reflexivity|]. repeat constructor. }
  split; [exact Hs|]. split; [exact Hc|].
  assert (Hr : exists r, fst (forward Toy.gridding m) = Ok r).
  { vm_compute in E. injection E as <-. eexists. vm_compute. reflexivity. }
  split; [exact Hr|].
  destruct (proj1 (proj1 (@forward_returns_iff Toy.gridding m 2 2 2
                            ltac:(lia) Hs ltac:(lia) ltac:(lia) Hc)) Hr)
    as (_ & _ & H).
  exact H.
Defined.

(** A correction of one entry is broadcast over the pixels: the model of
    two pixels per side returns its prediction with [corrfun] replaced by
    the 1 by 1 matrix of the same value. *)
Example forward_broadcasts_correction :
  match Toy.new 2 1 (Some Toy.dataset3) with
  | Some m =>
      let m1 := mkMpolImage (Images.npix m) (cell_size m) (ll m) (dll m) (us m)
                  (vs m) (_image m) [[2]]%Q (C_re m) (C_im m) in
      fst (forward Toy.gridding m1) = fst (forward Toy.gridding m) /\
      exists r, fst (forward Toy.gridding m) = Ok r
  | None => False
  end.
Proof. vm_compute. split; [reflexivity|]. eexists. reflexivity. Qed.

(** *** Construction with a size that is not positive *)

(** X8. What stops a construction with an even [npix] that is not
    positive (and a positive [cell_size]) is not an assertion.  With
    [npix = 0] it is the division by [npix] in the pixel spacing, a
    [ZeroDivisionError]; with a negative [npix] it is numpy refusing the
    negative length in [fftfreq], a [ValueError], or, for a cell size whose
    value in radians underflows, the division by zero in [rfftfreq] before
    it; unless [gridding.fftspace], called first, has raised already. *)
Theorem construction_nonpositive_npix (G : Gridding) (npix : Z) (cs : Q)
  (ds : option UVDataset) :
  (0 < arcsec G)%Q -> (0 < cs)%Q -> npix mod 2 = 0 -> npix <= 0 ->
  exists e,
    __init__ G npix cs ds = Raise e /\
    (fftspace G (fmul cs (arcsec G) * inject_Z (npix / 2))%Q npix = Raise e \/
     (exn_class e = "ZeroDivisionError"%string /\
      (npix = 0 \/ underflows (cs * arcsec G) = true)) \/
     (npix < 0 /\ underflows (cs * arcsec G) = false /\
      exn_class e = "ValueError"%string)).
Proof.
  intros Ha Hc He Hn.
  destruct (underflows (cs * arcsec G)) eqn:Hu.
  { destruct (init_tiny_cell_size G npix ds He Hc Hu) as (e & E & [H|H]).
    - exists e. split; [exact E|]. left. unfold fmul. rewrite Hu. exact H.
    - exists e. split; [exact E|]. right. left. subst e. split; [reflexivity|].
      now right. }
  unfold __init__, fmul, assert. rewrite Hu.
  apply Z.eqb_eq in He. rewrite He. simpl.
  assert (Qle_bool cs 0 = false) as ->.
  { destruct (Qle_bool cs 0) eqn:E; [|reflexivity].
    apply Qle_bool_iff in E. exfalso. eapply Qlt_not_le; eassumption. }
  simpl.
  destruct (fftspace G (cs * arcsec G * inject_Z (npix / 2))%Q npix) as [l|e];
    [|exists e; split; [reflexivity|now left]].
  simpl. apply Z.eqb_eq in He.
  destruct (Z.eq_dec npix 0) as [->|Hz].
  - exists ZeroDivisionError. split; [reflexivity|]. right. left.
    split; [reflexivity|now left].
  - assert (Hneg : npix < 0) by lia.
    assert (HN : ~ (inject_Z npix == 0)%Q) by (apply inject_Z_nonzero; lia).
    assert (Hh : ~ (inject_Z (npix / 2) == 0)%Q).
    { apply inject_Z_nonzero. apply Z.div_exact in He; lia. }
    pose proof (sample_spacing_nonzero HN Hh (underflows_nonzero Hu)) as Hd.
    rewrite !(truediv_nz _ HN). simpl. unfold Np.rfftfreq, Np.fftfreq.
    rewrite !(truediv_nz _ Hd). simpl.
    apply Z.ltb_lt in Hneg. rewrite Hneg. simpl.
    eexists. split; [reflexivity|]. right. right. apply Z.ltb_lt in Hneg.
    split; [exact Hneg|]. split; reflexivity.
Qed.

Lemma construction_nonpositive_npix_witness :
  (0 < arcsec Toy.gridding)%Q /\ (0 < 1)%Q /\ (-2) mod 2 = 0 /\ -2 <= 0 /\
  exists e,
    __init__ Toy.gridding (-2) 1 None = Raise e /\
    exn_class e = "ValueError"%string.
Proof.
  split; [reflexivity|]. split; [reflexivity|]. split; [reflexivity|].
  split; [discriminate|].
  destruct (@construction_nonpositive_npix Toy.gridding (-2) 1 None
              eq_refl eq_refl eq_refl ltac:(discriminate))
    as (e & E & H).
  exists e. split; [exact E|].
  destruct H as [H|[[_ [H|H]]|(_ & _ & H)]];
    [|discriminate H|vm_compute in H; discriminate H|exact H].
  vm_compute in H. discriminate H.
Defined.

(** *** The prediction of a sum of images *)

Section Additivity.

Lemma Forall3_length {A B C} (R : A -> B -> C -> Prop) (l : list A) (l1 : list B)
  (l2 : list C) :
  Forall3 R l l1 l2 -> length l = length l1 /\ length l = length l2.
Proof. induction 1 as [|? ? ? ? ? ? _ _ [IH1 IH2]]; simpl; split; congruence. Qed.

Lemma Forall3_map {A B C D} (R : B -> C -> D -> Prop) (P : A -> A -> A -> Prop)
  (f : A -> B) (g : A -> C) (h : A -> D) (l l1 l2 : list A) :
  (forall x y z, P x y z -> R (f x) (g y) (h z)) ->
  Forall3 P l l1 l2 -> Forall3 R (map f l) (map g l1) (map h l2).
Proof. intros H. induction 1; simpl; constructor; auto. Qed.

Lemma Forall3_same {A} (l : list A) : Forall3 (fun x y z => x = y /\ x = z) l l l.
Proof. induction l; constructor; auto. Qed.

Lemma Forall3_app {A B C} (R : A -> B -> C -> Prop) (l l' : list A)
  (l1 l1' : list B) (l2 l2' : list C) :
  Forall3 R l l1 l2 -> Forall3 R l' l1' l2' ->
  Forall3 R (l ++ l') (l1 ++ l1') (l2 ++ l2').
Proof. induction 1; simpl; [auto|]. intros H'. constructor; auto. Qed.

Lemma Forall3_concat {A B C} (R : A -> B -> C -> Prop) (x : list (list A))
  (x1 : list (list B)) (x2 : list (list C)) :
  Forall3 (Forall3 R) x x1 x2 -> Forall3 R (concat x) (concat x1) (concat x2).
Proof. induction 1; simpl; [constructor|]. now apply Forall3_app. Qed.

Lemma superpose_row_sum (r1 r2 : list Q) :
  length r1 = length r2 -> Forall3 sum_of (map2 Qplus r1 r2) r1 r2.
Proof.
  revert r2. induction r1 as [|p r1 IH]; intros [|q r2] H; simpl in *;
    try discriminate H; constructor.
  - unfold sum_of. reflexivity.
  - apply IH. congruence.
Qed.

Lemma superpose_sum (n c : nat) (x y : matrix) :
  has_shape n c x -> has_shape n c y ->
  Forall3 (Forall3 sum_of) (superpose x y) x y.
Proof.
  unfold superpose. revert n y.
  induction x as [|r x IH]; intros n [|r' y] [Hl Hf] [Hl' Hf']; simpl in *;
    try (subst n; discriminate Hl'); constructor.
  - inversion Hf as [|? ? Hr Hx]. inversion Hf' as [|? ? Hr' Hy].
    apply superpose_row_sum. congruence.
  - inversion Hf as [|? ? Hr Hx]. inversion Hf' as [|? ? Hr' Hy].
    apply (IH (length x) y); split; auto. congruence.
Qed.

Lemma superpose_shape (n c : nat) (x y : matrix) :
  has_shape n c x -> has_shape n c y -> has_shape n c (superpose x y).
Proof.
  intros Hx Hy. pose proof (superpose_sum Hx Hy) as H. destruct Hx as [Hl Hf].
  split.
  - now rewrite (proj1 (Forall3_length H)).
  - clear Hl Hy. induction H as [|r r1 r2 ? ? ? Hr _ IH]; constructor.
    + inversion Hf as [|? ? Hr1 _]. now rewrite (proj1 (Forall3_length Hr)).
    + apply IH. now inversion Hf.
Qed.

Lemma apodize_row_sum (r r1 r2 rc : list Q) :
  Forall3 sum_of r r1 r2 ->
  Forall3 sum_of (map2 Qmult r rc) (map2 Qmult r1 rc) (map2 Qmult r2 rc).
Proof.
  intros H. revert rc. induction H as [|p p1 p2 ? ? ? Hp _ IH]; intros [|q rc]; simpl;
    constructor.
  - unfold sum_of in *. rewrite Hp. ring.
  - apply IH.
Qed.

Lemma apodize_sum (x x1 x2 c : matrix) :
  Forall3 (Forall3 sum_of) x x1 x2 ->
  Forall3 (Forall3 sum_of) (Spec.apodize x c) (Spec.apodize x1 c) (Spec.apodize x2 c).
Proof.
  unfold Spec.apodize. intros H. revert c.
  induction H as [|r r1 r2 ? ? ? Hr _ IH]; intros [|rc c]; simpl; constructor.
  - now apply apodize_row_sum.
  - apply IH.
Qed.

Lemma combine_sum {A B} (R : A -> A -> A -> Prop) (idx : list B) (l l1 l2 : list A) :
  Forall3 R l l1 l2 ->
  Forall3 (fun p q r => (fst p = fst q /\ fst p = fst r) /\ R (snd p) (snd q) (snd r))
    (combine idx l) (combine idx l1) (combine idx l2).
Proof.
  intros H. revert idx. induction H; intros [|i idx]; simpl; constructor; auto.
Qed.

Lemma enumerate_sum {A} (R : A -> A -> A -> Prop) (l l1 l2 : list A) :
  Forall3 R l l1 l2 ->
  Forall3 (fun p q r => (fst p = fst q /\ fst p = fst r) /\ R (snd p) (snd q) (snd r))
    (enumerate l) (enumerate l1) (enumerate l2).
Proof.
  intros H. unfold enumerate. destruct (Forall3_length H) as [<- <-].
  now apply combine_sum.
Qed.

Lemma csum_sum (l l1 l2 : list cplx) :
  Forall3 csum_of l l1 l2 -> csum_of (csum l) (csum l1) (csum l2).
Proof.
  induction 1 as [|u v w ? ? ? [H1 H2] _ [IH1 IH2]]; simpl.
  - split; unfold sum_of; simpl; ring.
  - unfold csum_of, sum_of in *. simpl. rewrite H1, H2, IH1, IH2. split; ring.
Qed.

Lemma dft_bin_sum (tw : Z -> Z -> cplx) (x x1 x2 : matrix) (N1 N2 k1 k2 : Z) :
  Forall3 (Forall3 sum_of) x x1 x2 ->
  csum_of (dft_bin tw x N1 N2 k1 k2) (dft_bin tw x1 N1 N2 k1 k2)
          (dft_bin tw x2 N1 N2 k1 k2).
Proof.
  intros H. unfold dft_bin. apply csum_sum.
  eapply Forall3_map; [|apply enumerate_sum; exact H].
  intros [n r] [n1 r1] [n2 r2] [[Hn Hn'] Hr]. simpl in Hn, Hn', Hr. subst n1 n2.
  apply csum_sum.
  eapply Forall3_map; [|apply enumerate_sum; exact Hr].
  intros [j u] [j1 v] [j2 w] [[Hj Hj'] Hu]. simpl in Hj, Hj', Hu. subst j1 j2.
  unfold csum_of, sum_of, cscale in *. simpl. rewrite Hu. split; ring.
Qed.

Lemma rfft_sum (tw : Z -> Z -> cplx) (x x1 x2 : matrix) :
  Forall3 (Forall3 sum_of) x x1 x2 ->
  Forall3 (Forall3 csum_of) (rfft tw x) (rfft tw x1) (rfft tw x2).
Proof.
  intros H. unfold rfft. destruct (Forall3_length H) as [<- <-].
  assert (Hh : length (hd [] x) = length (hd [] x1)
               /\ length (hd [] x) = length (hd [] x2)).
  { destruct H as [|r r1 r2 ? ? ? Hr _]; [now split|]. simpl.
    exact (Forall3_length Hr). }
  destruct Hh as [<- <-].
  eapply Forall3_map; [|apply Forall3_same].
  intros k1 ? ? [<- <-].
  eapply Forall3_map; [|apply Forall3_same].
  intros k2 ? ? [<- <-]. now apply dft_bin_sum.
Qed.

Lemma plane_sum (f : cplx -> Q) (s : Q) (tw : Z -> Z -> cplx) (x x1 x2 : matrix) :
  (forall u v w, csum_of u v w -> sum_of (f u) (f v) (f w)) ->
  Forall3 (Forall3 sum_of) x x1 x2 ->
  Forall3 sum_of
    (concat (map (map f) (map (map (cscale s)) (rfft tw x))))
    (concat (map (map f) (map (map (cscale s)) (rfft tw x1))))
    (concat (map (map f) (map (map (cscale s)) (rfft tw x2)))).
Proof.
  intros Hf H. apply Forall3_concat. rewrite !map_map.
  eapply Forall3_map; [|apply rfft_sum; exact H].
  intros r r1 r2 Hr. rewrite !map_map.
  eapply Forall3_map; [|exact Hr].
  intros u v w [H1 H2]. apply Hf. unfold csum_of, sum_of, cscale in *. simpl.
  rewrite H1, H2. split; ring.
Qed.

Lemma nth_sum (v v1 v2 : list Q) (c : nat) :
  Forall3 sum_of v v1 v2 -> sum_of (nth c v 0%Q) (nth c v1 0%Q) (nth c v2 0%Q).
Proof.
  intros H. revert c. induction H as [|p p1 p2 ? ? ? Hp _ IH]; intros [|c]; simpl; auto;
    unfold sum_of; ring.
Qed.

Lemma row_dot_sum (C : sparse) (v v1 v2 : list Q) (r : Z) :
  Forall3 sum_of v v1 v2 -> sum_of (row_dot C v r) (row_dot C v1 r) (row_dot C v2 r).
Proof.
  intros H. unfold row_dot.
  induction (combine (sp_rows C) (combine (sp_cols C) (sp_values C)))
    as [|[i [c x]] l IH]; simpl.
  - unfold sum_of. ring.
  - unfold sum_of, qsum in *. simpl. rewrite IH.
    destruct (i =? r); [|ring].
    pose proof (nth_sum (Z.to_nat c) H) as Hn. unfold sum_of in Hn.
    rewrite Hn. ring.
Qed.

Lemma interpolate_sum (C : sparse) (x x1 x2 : list (list Q)) :
  Forall3 sum_of (concat x) (concat x1) (concat x2) ->
  Forall3 sum_of (Spec.interpolate C x) (Spec.interpolate C x1) (Spec.interpolate C x2).
Proof.
  intros H. unfold Spec.interpolate.
  eapply Forall3_map; [|apply Forall3_same].
  intros r ? ? [<- <-]. now apply row_dot_sum.
Qed.

End Additivity.

(** X16. The prediction is additive in the image: on a model ready for
    its dataset, with the pixel array [x], with [y], and with their
    pixel-wise sum, the three predictions have one length and every entry of
    the prediction of the sum is the sum of the entries of the other two,
    in the real and in the imaginary vector. *)
Theorem forward_additive (G : Gridding) (d : UVDataset) (m : MpolImage)
  (x y : matrix) :
  precached d (with_image x m) -> precached d (with_image y m) ->
  precached d (with_image (superpose x y) m) /\
  exists re im re1 im1 re2 im2,
    fst (forward G (with_image (superpose x y) m)) = Ok (re, im) /\
    fst (forward G (with_image x m)) = Ok (re1, im1) /\
    fst (forward G (with_image y m)) = Ok (re2, im2) /\
    Forall3 (fun p q r => p == q + r)%Q re re1 re2 /\
    Forall3 (fun p q r => p == q + r)%Q im im1 im2.
Proof.
  intros (n & Cre & Cim & Hn & Hx & Hc & Ere & Eim & Hs & Hs')
         (n' & Cre' & Cim' & Hn' & Hy & Hc' & Ere' & Eim' & _).
  simpl in *.
  assert (n' = n) by (destruct Hc as [<- _]; destruct Hc' as [<- _]; reflexivity).
  subst n'. clear Cre' Cim' Ere' Eim' Hc' Hn'.
  pose proof (superpose_shape Hx Hy) as Hxy.
  split.
  { exists n, Cre, Cim. simpl. repeat split; try assumption;
      try apply Hxy; try apply Hc. }
  assert (Hcols : snd (sp_size Cre) = Z.of_nat (n * Z.to_nat (Z.of_nat n / 2 + 1)))
    by now rewrite Hs.
  rewrite (@forward_precached G (with_image (superpose x y) m) n Cre Cim
             Hn Hxy Hc Ere Eim Hcols Hs').
  rewrite (@forward_precached G (with_image x m) n Cre Cim Hn Hx Hc Ere Eim Hcols Hs').
  rewrite (@forward_precached G (with_image y m) n Cre Cim Hn Hy Hc Ere Eim Hcols Hs').
  simpl fst. unfold Spec.forward_spec.
  eexists _, _, _, _, _, _. do 3 (split; [reflexivity|]).
  unfold Spec.scaled_transform, Spec.real_plane, Spec.imag_plane. simpl.
  pose proof (superpose_sum Hx Hy) as Hsum.
  split; apply interpolate_sum; apply plane_sum;
    try (apply apodize_sum; exact Hsum); intros u v w [H1 H2]; assumption.
Qed.

Lemma forward_additive_witness :
  exists m,
    Toy.new 2 1 (Some Toy.dataset3) = Some m /\
    let x := [[1; 2]; [3; 4]]%Q in
    let y := [[5; 0]; [-1; 1 # 2]]%Q in
    precached Toy.dataset3 (with_image x m) /\
    precached Toy.dataset3 (with_image y m) /\
    exists re im re1 im1 re2 im2,
      fst (forward Toy.gridding (with_image (superpose x y) m)) = Ok (re, im) /\
      fst (forward Toy.gridding (with_image x m)) = Ok (re1, im1) /\
      fst (forward Toy.gridding (with_image y m)) = Ok (re2, im2) /\
      Forall3 (fun p q r => p == q + r)%Q re re1 re2.
Proof.
  destruct (Toy.new 2 1 (Some Toy.dataset3)) as [m|] eqn:E; [|discriminate E].
  exists m. split; [reflexivity|]. cbv zeta.
  assert (P : precached Toy.dataset3 m).
  { unfold Toy.new in E.
    destruct (__init__ Toy.gridding 2 1 (Some Toy.dataset3)) as [[m' out]|e] eqn:Ei;
      [|discriminate E].
    injection E as ->. eapply init_precached; [exact toy_gridding_laws|exact Ei]. }
  assert (Q2 : forall x, has_shape 2 2 x -> precached Toy.dataset3 (with_image x m)).
  { intros x Hx. destruct P as (n & Cre & Cim & Hn & Hi & Hc & Ere & Eim & Hs & Hs').
    assert (n = 2%nat).
    { vm_compute in E. injection E as <-. destruct Hi as [Hl _]. simpl in Hl.
      now subst n. }
    subst n. exists 2%nat, Cre, Cim. split; [exact Hn|]. split; [exact Hx|].
    split; [exact Hc|]. split; [exact Ere|]. split; [exact Eim|]. split; assumption. }
  assert (Px : precached Toy.dataset3 (with_image [[1; 2]; [3; 4]]%Q m)).
  { apply Q2. split; [reflexivity|]. repeat constructor. }
  assert (Py : precached Toy.dataset3 (with_image [[5; 0]; [-1; 1 # 2]]%Q m)).
  { apply Q2. split; [reflexivity|]. repeat constructor. }
  split; [exact Px|]. split; [exact Py|].
  destruct (proj2 (@forward_additive Toy.gridding Toy.dataset3 m _ _ Px Py))
    as (re & im & re1 & im1 & re2 & im2 & E0 & E1 & E2 & H & _).
  exists re, im, re1, im1, re2, im2. repeat split; assumption.
Defined.

(** * Further properties of the training loop and of cross-validation *)

Import SinkLog.

Section WheneverItReturns.

Variable K : Collab.

Ltac split_call H :=
  match type of H with
  | context [if ?b then _ else _] =>
      let E := fresh "Eif" in destruct b eqn:E; try discriminate H
  | context [match ?r with Ok _ => _ | Raise _ => _ end] =>
      let E := fresh "E" in destruct r eqn:E; try discriminate H
  | context [let (_, _) := ?p in _] => destruct p
  end;
  cbv beta iota in H; cbn [model optimizer writer trace fst snd option_map andb] in H.

Lemma received_logs (s s' : State K) (extra : list (string * option Z)) :
  received s' = option_map (fun w => w ++ extra) (received s) ->
  forall logevery j, @logs K (writer s') logevery j = @logs K (writer s) logevery j.
Proof.
  unfold received, logs. intros H logevery j.
  destruct (writer s), (writer s'); simpl in H; try discriminate H; reflexivity.
Qed.

(** An iteration that returns has divided by a [logevery] that is not
    zero, has computed a loss, and has written its two records when its
    index is a multiple of [logevery] and there is a writer. *)
Lemma train_body_returned (dataset : Dataset K) (config : Config.t (Scalar K))
  (logevery iteration : Z) (locals locals' : option (Tensor K) * Connector K)
  (s s' : State K) :
  @train_body K dataset config logevery iteration locals s = (Ok locals', s') ->
  logevery <> 0 /\
  (exists loss, fst locals' = Some loss /\ @is_loss K dataset config loss) /\
  trace s' = trace s ++ iteration_phases (@logs K (writer s) logevery iteration) /\
  received s' = option_map (fun w => w ++ stride_labels logevery [iteration])
                  (received s).
Proof.
  intros H. unfold train_body, log_figure in H. cbv zeta in H.
  unfold Meth.bind, enter, gets, set_model, set_optimizer, emit, Meth.lift,
    Meth.ret, mod_ in H.
  cbn [model optimizer writer trace fst snd] in H.
  repeat split_call H.
  all: injection H as <- <-.
  all: split; [intros Hz; rewrite Hz in Eif; discriminate Eif|].
  all: split; [eexists; split; [reflexivity|];
               do 7 eexists; repeat split; eassumption|].
  all: unfold logs, received, stride_labels;
    cbn [model optimizer writer trace fst snd flat_map]; rewrite Eif0;
    (split; [simpl; rewrite <- ?app_assoc; reflexivity|]).
  all: destruct (iteration mod logevery =? 0), (writer s);
    simpl in Eif0 |- *; try discriminate Eif0;
    rewrite ?app_nil_r, ?map_app, <- ?app_assoc; reflexivity.
Qed.

Lemma stride_labels_app (logevery : Z) (xs ys : list Z) :
  stride_labels logevery (xs ++ ys)
  = stride_labels logevery xs ++ stride_labels logevery ys.
Proof. unfold stride_labels. apply flat_map_app. Qed.

Lemma option_map_app {A} (o : option (list A)) (l1 l2 : list A) :
  option_map (fun w => w ++ l2) (option_map (fun w => w ++ l1) o)
  = option_map (fun w => w ++ l1 ++ l2) o.
Proof. destruct o; simpl; [now rewrite <- app_assoc|reflexivity]. Qed.

Lemma train_phases_cons (w : option (list (record K))) (logevery i : Z)
  (rest : list Z) :
  @train_phases K w logevery (i :: rest)
  = iteration_phases (@logs K w logevery i) ++ @train_phases K w logevery rest.
Proof. reflexivity. Qed.

(** The loop of [train], when it returns. *)
Lemma train_loop_returned (dataset : Dataset K) (config : Config.t (Scalar K))
  (logevery : Z) (iterations : list Z) :
  forall (locals locals' : option (Tensor K) * Connector K) (s s' : State K),
    for_each iterations (@train_body K dataset config logevery) locals s
    = (Ok locals', s') ->
    (iterations <> [] ->
     logevery <> 0 /\
     exists loss, fst locals' = Some loss /\ @is_loss K dataset config loss) /\
    (iterations = [] -> locals' = locals) /\
    trace s' = trace s ++ @train_phases K (writer s) logevery iterations /\
    received s' = option_map (fun w => w ++ stride_labels logevery iterations)
                    (received s).
Proof.
  induction iterations as [|i rest IH]; intros locals locals' s s' H.
  - injection H as <- <-. split; [intros N; now elim N|]. split; [reflexivity|].
    split; [simpl; now rewrite app_nil_r|].
    unfold received. destruct (writer s); simpl; [now rewrite app_nil_r|reflexivity].
  - cbn [for_each] in H. unfold Meth.bind in H.
    destruct (@train_body K dataset config logevery i locals s) as [[l1|e] s1] eqn:Eb;
      [|discriminate H].
    destruct (@train_body_returned _ _ _ _ _ _ _ _ Eb) as (Hl & Hloss & Ht & Hr).
    destruct (IH _ _ _ _ H) as (Hne & Hnil & Ht' & Hr').
    split; [|split; [discriminate|split]].
    + intros _. split; [exact Hl|].
      destruct rest as [|j rest']; [rewrite (Hnil eq_refl); exact Hloss|].
      apply Hne. discriminate.
    + rewrite Ht', Ht, train_phases_cons, <- app_assoc. f_equal. f_equal.
      apply (@train_phases_ext K (writer s) (writer s1) logevery rest).
      intros j. apply (@received_logs s s1 _ Hr).
    + rewrite Hr', Hr, option_map_app.
      change (i :: rest) with ([i] ++ rest). now rewrite stride_labels_app.
Qed.

(** [train], when it returns. *)
Lemma train_returned (dataset : Dataset K) (config : Config.t (Scalar K))
  (logevery : Z) (s s' : State K) (l : Scalar K) :
  @train K dataset config logevery s = (Ok l, s') ->
  0 < Config.epochs config /\ logevery <> 0 /\
  (exists loss, l = item K loss /\ @is_loss K dataset config loss) /\
  trace s' = trace s ++ @train_phases K (writer s) logevery
                          (Np.arange (Config.epochs config)) /\
  received s' = option_map
                  (fun w => w ++ stride_labels logevery (Np.arange (Config.epochs config)))
                  (received s).
Proof.
  intros H. unfold train in H.
  unfold Meth.bind at 1 2 3 4, gets, set_model, Meth.lift in H.
  cbn [model optimizer writer trace] in H.
  destruct (GriddedResidualConnector K (model_train K (model s)) dataset) as [r|e];
    [|discriminate H].
  cbv beta iota in H. unfold Meth.bind in H.
  match type of H with context [for_each ?xs ?b ?l ?st] =>
    destruct (for_each xs b l st) as [[[loss r'] | e] s1] eqn:Ef; [|discriminate H] end.
  destruct (@train_loop_returned _ _ _ _ _ _ _ _ Ef) as (Hne & Hnil & Ht & Hr).
  cbn [fst] in H. destruct loss as [loss|]; [|discriminate H].
  injection H as <- <-.
  assert (Hn : 0 < Config.epochs config).
  { destruct (Z_lt_le_dec 0 (Config.epochs config)) as [Hn|Hn]; [exact Hn|].
    exfalso. assert (E0 : Np.arange (Config.epochs config) = []).
    { unfold Np.arange. now replace (Z.to_nat (Config.epochs config)) with O by lia. }
    specialize (Hnil E0). discriminate Hnil. }
  split; [exact Hn|].
  destruct Hne as (Hl & loss' & El & Hloss).
  { intros E0. apply (f_equal (@length Z)) in E0. rewrite arange_length in E0.
    simpl in E0. lia. }
  cbn [fst] in El. injection El as <-.
  split; [exact Hl|]. split; [now exists loss|]. split; [exact Ht|exact Hr].
Qed.

(** [test], however it ends. *)
Lemma test_outcome (dataset : Dataset K) (s s' : State K) (r : result (Scalar K)) :
  @test K dataset s = (r, s') ->
  optimizer s' = optimizer s /\ writer s' = writer s /\
  trace s' = trace s ++ [Evaluate] /\
  forall score, r = Ok score -> @is_held_out_nll K dataset score.
Proof.
  intros H. unfold test in H.
  unfold Meth.bind, enter, gets, set_model, Meth.lift, Meth.ret in H.
  cbn [model optimizer writer trace] in H.
  destruct (model_forward K (model_eval K (model s))) as [[vis m]|e] eqn:Ef;
    cbv beta iota in H; cbn [model optimizer writer trace] in H.
  - destruct (nll_gridded K vis dataset) as [t|e] eqn:En; injection H as <- <-;
      repeat split; try discriminate.
    intros score [= <-]. now exists vis, t.
  - injection H as <- <-. repeat split. discriminate.
Qed.

(** One fold of [cross_validate], when it returns. *)
Lemma cross_validate_body_returned (config : Config.t (Scalar K))
  (MODEL_PATH : string) (fold : Dataset K * Dataset K)
  (scores scores' : list (Scalar K)) (s s' : State K) :
  @cross_validate_body K config MODEL_PATH fold scores s = (Ok scores', s') ->
  0 < Config.epochs config /\
  (exists score, scores' = scores ++ [score] /\ @is_held_out_nll K (snd fold) score) /\
  received s' = option_map
                  (fun w => w ++ stride_labels 50 (Np.arange (Config.epochs config)))
                  (received s).
Proof.
  intros H. destruct fold as [tr te]. unfold cross_validate_body in H.
  unfold Meth.bind, enter, gets, set_model, set_optimizer, Meth.lift, Meth.ret in H.
  cbn [model optimizer writer trace] in H.
  destruct (torch_load K MODEL_PATH) as [sd|e]; [|discriminate H].
  cbv beta iota in H.
  destruct (load_state_dict K (model s) sd) as [m|e]; [|discriminate H].
  cbv beta iota in H. cbn [model optimizer writer trace] in H.
  match type of H with context [@train K tr config 50 ?st] =>
    destruct (@train K tr config 50 st) as [[l|e] s1] eqn:Et; [|discriminate H] end.
  destruct (@test K te s1) as [[score|e] s2] eqn:Ee; [|discriminate H].
  injection H as <- <-.
  destruct (@train_returned _ _ _ _ _ _ Et) as (Hn & _ & _ & _ & Hr).
  destruct (@test_outcome _ _ _ _ Ee) as (_ & Hw & _ & Hs).
  split; [exact Hn|]. split; [exists score; split; [reflexivity|now apply Hs]|].
  unfold received in *. rewrite Hw. exact Hr.
Qed.

Lemma repeat_snoc {A} (x : A) (n : nat) : repeat x n ++ [x] = x :: repeat x n.
Proof. induction n as [|n IH]; [reflexivity|]. simpl. now rewrite IH. Qed.

(** The loop of [cross_validate], when it returns. *)
Lemma cross_validate_loop_returned (config : Config.t (Scalar K))
  (MODEL_PATH : string) (folds : list (Dataset K * Dataset K)) :
  forall (scores scores' : list (Scalar K)) (s s' : State K),
    for_each folds (@cross_validate_body K config MODEL_PATH) scores s
    = (Ok scores', s') ->
    (folds <> [] -> 0 < Config.epochs config) /\
    (exists new,
       scores' = scores ++ new /\
       Forall2 (fun fold score => @is_held_out_nll K (snd fold) score) folds new) /\
    received s'
    = option_map
        (fun w => w ++ concat (repeat (stride_labels 50 (Np.arange (Config.epochs config)))
                                 (length folds)))
        (received s).
Proof.
  induction folds as [|f rest IH]; intros scores scores' s s' H.
  - injection H as <- <-. split; [intros N; now elim N|].
    split; [exists []; split; [now rewrite app_nil_r|constructor]|].
    unfold received. destruct (writer s); simpl; [now rewrite app_nil_r|reflexivity].
  - cbn [for_each] in H. unfold Meth.bind in H.
    destruct (@cross_validate_body K config MODEL_PATH f scores s) as [[l1|e] s1] eqn:Eb;
      [|discriminate H].
    destruct (@cross_validate_body_returned _ _ _ _ _ _ _ Eb)
      as (Hn & (score & -> & Hs) & Hr).
    destruct (IH _ _ _ _ H) as (_ & (new & -> & Hf) & Hr').
    split; [intros _; exact Hn|]. split.
    + exists (score :: new). split; [now rewrite <- app_assoc|]. now constructor.
    + rewrite Hr', Hr, option_map_app. reflexivity.
Qed.

(** [cross_validate], when it returns. *)
Lemma cross_validate_returned (config : Config.t (Scalar K))
  (folds : list (Dataset K * Dataset K)) (MODEL_PATH : string)
  (s s' : State K) (total : Scalar K) :
  @cross_validate K config folds MODEL_PATH s = (Ok total, s') ->
  (folds <> [] -> 0 < Config.epochs config) /\
  (exists scores,
     total = np_sum K scores /\
     Forall2 (fun fold score => @is_held_out_nll K (snd fold) score) folds scores) /\
  received s' = option_map
                  (fun w => w ++ cross_validation_labels (Config.epochs config)
                                   (length folds))
                  (received s) /\
  (forall w, writer s = Some w ->
     exists w', writer s' = Some (w' ++ [add_scalar K "Cross Validation" total None])).
Proof.
  intros H. unfold cross_validate in H. unfold Meth.bind at 1 in H.
  destruct (for_each folds (@cross_validate_body K config MODEL_PATH) [] s)
    as [[scores|e] s1] eqn:Ef; [|discriminate H].
  destruct (@cross_validate_loop_returned _ _ _ _ _ _ _ Ef)
    as (Hn & (new & -> & Hf) & Hr).
  unfold Meth.bind, gets, emit, Meth.ret in H.
  split; [exact Hn|].
  unfold received, cross_validation_labels in *.
  destruct (writer s1) as [w1|] eqn:Ew1; injection H as <- <-;
    (split; [exists new; split; [reflexivity|exact Hf]|]);
    cbn [model optimizer writer trace option_map];
    destruct (writer s) as [w|]; simpl in Hr |- *; try discriminate Hr.
  - injection Hr as Hr. split.
    + rewrite Ew1. simpl. now rewrite map_app, Hr, <- app_assoc.
    + intros w0 _. rewrite Ew1. now exists w1.
  - split; [now rewrite Ew1|]. intros w0 N. discriminate N.
Qed.

End WheneverItReturns.

Section WhenItRaises.

Variable K : Collab.

(** With [logevery = 0] an iteration whose forward evaluation and losses
    return stops at [iteration % logevery], with the model as the forward
    evaluation returned it. *)
Lemma train_body_zero_stride (dataset : Dataset K) (config : Config.t (Scalar K))
  (iteration : Z) (locals : option (Tensor K) * Connector K) (s : State K)
  (vis : Vis K) (forwarded : Model K) (nll l_sparsity l_TV l_entropy l_TSV : Tensor K) :
  model_forward K (zero_grad K (optimizer s) (model s)) = Ok (vis, forwarded) ->
  nll_gridded K vis dataset = Ok nll ->
  sparsity K (sky_cube K forwarded) = Ok l_sparsity ->
  TV_image K (sky_cube K forwarded) = Ok l_TV ->
  entropy K (sky_cube K forwarded) (Config.prior_intensity config) = Ok l_entropy ->
  TSV K (sky_cube K forwarded) = Ok l_TSV ->
  @train_body K dataset config 0 iteration locals s
  = (Raise (mkExn "ZeroDivisionError" "integer division or modulo by zero"),
     mkState forwarded (optimizer s) (writer s)
       (trace s ++ [ZeroGrad; ForwardEval; LossCompute])).
Proof.
  intros Hf H1 H2 H3 H4 H5. unfold train_body. cbv zeta.
  unfold Meth.bind, enter, gets, set_model, Meth.lift, Meth.ret.
  cbn [model optimizer writer trace fst snd].
  rewrite Hf. cbv beta iota. cbn [model optimizer writer trace fst snd].
  rewrite H1, H2, H3, H4, H5.
  cbv beta iota. simpl. now rewrite <- !app_assoc.
Qed.

Lemma arange_last (n x : Z) (xs : list Z) :
  Np.arange n = xs ++ [x] -> x = n - 1.
Proof.
  unfold Np.arange. intros H.
  destruct (Z.to_nat n) as [|k] eqn:E.
  - destruct xs; discriminate H.
  - rewrite seq_S, map_app in H. simpl in H.
    apply app_inj_tail in H. destruct H as [_ H]. lia.
Qed.

End WhenItRaises.

(** *** When [train] returns *)

(** X9. Whatever the collaborators do on other inputs, [train] returns
    only with a positive [epochs] and a [logevery] that is not zero, and
    whenever it returns, every iteration of [range(epochs)] has been gone
    through in full, each from the model and the optimizer the one before
    has left; the value returned is that of the loss of the last of them,
    the one of index [epochs - 1], and the model and the optimizer are
    those of its update. *)
Theorem train_returns_only_after_iterations (K : Collab) (dataset : Dataset K)
  (config : Config.t (Scalar K)) (logevery : Z) (s s' : State K) (l : Scalar K) :
  @train K dataset config logevery s = (Ok l, s') ->
  0 < Config.epochs config /\ logevery <> 0 /\
  (exists r0 passes final,
     GriddedResidualConnector K (model_train K (model s)) dataset = Ok r0 /\
     @iterations K dataset config (Np.arange (Config.epochs config))
       (model_train K (model s)) (optimizer s) (passes ++ [final])
       (model s') (optimizer s') /\
     pass_index final = Config.epochs config - 1 /\
     l = item K (pass_loss final)) /\
  trace s' = trace s ++ @train_phases K (writer s) logevery
                          (Np.arange (Config.epochs config)).
Proof.
  intros H.
  destruct (@train_returned K dataset config logevery s s' l H)
    as (Hn & Hl & _ & Ht & _).
  destruct (@train_run K dataset config logevery s s' l H)
    as (_ & _ & r0 & passes & final & Er & Hits & Hloss & _).
  split; [exact Hn|]. split; [exact Hl|]. split; [|exact Ht].
  exists r0, passes, final. repeat split; try assumption.
  pose proof (iterations_indices Hits) as Hi. rewrite map_app in Hi. simpl in Hi.
  symmetry in Hi. exact (@arange_last _ _ _ Hi).
Qed.

Lemma train_returns_only_after_iterations_witness :
  exists l s',
    @train ToyLoop.collab 1%float (ToyLoop.config 3) 2 (ToyLoop.start 3 (Some []))
    = (Ok l, s') /\
    0 < Config.epochs (ToyLoop.config 3) /\ 2 <> 0 /\
    (exists passes final,
       @iterations ToyLoop.collab 1%float (ToyLoop.config 3) [0; 1; 2]
         (ToyLoop.mkPixel 3 0 true) 0.25%float (passes ++ [final])
         (model s') (optimizer s') /\
       pass_index final = 2 /\ l = item ToyLoop.collab (pass_loss final)) /\
    length (trace s') = 17%nat.
Proof.
  destruct (@train ToyLoop.collab 1%float (ToyLoop.config 3) 2
              (ToyLoop.start 3 (Some []))) as [[l|e] s'] eqn:E;
    [|vm_compute in E; discriminate E].
  exists l, s'. split; [reflexivity|].
  destruct (@train_returns_only_after_iterations ToyLoop.collab 1%float
              (ToyLoop.config 3) 2 (ToyLoop.start 3 (Some [])) s' l E)
    as (Hn & Hl & (r0 & passes & final & _ & Hits & Hi & Hloss) & Ht).
  split; [exact Hn|]. split; [exact Hl|]. split.
  - exists passes, final. split; [exact Hits|]. split; [exact Hi|exact Hloss].
  - rewrite Ht. reflexivity.
Defined.

(** *** A stride of zero *)

(** X10. With [logevery = 0] and a positive [epochs], [train] never
    reaches a gradient or an update, with or without a writer: when the
    residual connector is built and the forward evaluation and the five
    losses of iteration 0 return, [iteration % logevery] raises
    [ZeroDivisionError], and [train] ends there: the model is the one the
    forward evaluation returned, on which no gradient has been computed
    and no update made, and the optimizer and the writer are as they
    were. *)
Theorem train_zero_stride (K : Collab) (dataset : Dataset K)
  (config : Config.t (Scalar K)) (s : State K) (r0 : Connector K) (vis : Vis K)
  (forwarded : Model K) (nll l_sparsity l_TV l_entropy l_TSV : Tensor K) :
  0 < Config.epochs config ->
  GriddedResidualConnector K (model_train K (model s)) dataset = Ok r0 ->
  model_forward K (zero_grad K (optimizer s) (model_train K (model s)))
  = Ok (vis, forwarded) ->
  nll_gridded K vis dataset = Ok nll ->
  sparsity K (sky_cube K forwarded) = Ok l_sparsity ->
  TV_image K (sky_cube K forwarded) = Ok l_TV ->
  entropy K (sky_cube K forwarded) (Config.prior_intensity config) = Ok l_entropy ->
  TSV K (sky_cube K forwarded) = Ok l_TSV ->
  @train K dataset config 0 s
  = (Raise (mkExn "ZeroDivisionError" "integer division or modulo by zero"),
     mkState forwarded (optimizer s) (writer s)
       (trace s ++ [ZeroGrad; ForwardEval; LossCompute])).
Proof.
  intros Hn Er Hf H1 H2 H3 H4 H5. unfold train.
  unfold Meth.bind at 1 2 3 4, gets, set_model, Meth.lift.
  cbn [model optimizer writer trace]. rewrite Er. cbv beta iota.
  destruct (@arange_split (Config.epochs config) 0 ltac:(lia)) as (rest & ->).
  cbn [Np.arange Z.to_nat seq map app for_each]. unfold Meth.bind.
  rewrite (@train_body_zero_stride K dataset config 0 (None, r0)
             (mkState (model_train K (model s)) (optimizer s) (writer s) (trace s))
             vis forwarded nll l_sparsity l_TV l_entropy l_TSV Hf H1 H2 H3 H4 H5).
  reflexivity.
Qed.

Lemma train_zero_stride_witness :
  0 < Config.epochs (ToyLoop.config 3) /\
  @train ToyLoop.collab 1%float (ToyLoop.config 3) 0 (ToyLoop.start 3 (Some []))
  = (Raise (mkExn "ZeroDivisionError" "integer division or modulo by zero"),
     @mkState ToyLoop.collab (ToyLoop.mkPixel 3 0 true) 0.25%float (Some [])
       [ZeroGrad; ForwardEval; LossCompute]).
Proof.
  split; [reflexivity|].
  exact (@train_zero_stride ToyLoop.collab 1%float (ToyLoop.config 3)
           (ToyLoop.start 3 (Some [])) _ _ _ _ _ _ _ _
           eq_refl eq_refl eq_refl eq_refl eq_refl eq_refl eq_refl eq_refl).
Defined.

(** *** What [train] writes to the sink *)

(** X11. Whenever [train] returns, what the writer has received during
    the run is, at each iteration whose index is a multiple of [logevery]
    and in the order of the iterations, a scalar tagged loss whose value is
    that of the loss of the iteration, and then a figure tagged image, the
    one drawn from the model of that iteration before its gradient is
    computed, both with the iteration as their step, and nothing else;
    without a writer there is still none. *)
Theorem train_sink_labels (K : Collab) (dataset : Dataset K)
  (config : Config.t (Scalar K)) (logevery : Z) (s s' : State K) (l : Scalar K) :
  @train K dataset config logevery s = (Ok l, s') ->
  (exists r0 passes,
     GriddedResidualConnector K (model_train K (model s)) dataset = Ok r0 /\
     @iterations K dataset config (Np.arange (Config.epochs config))
       (model_train K (model s)) (optimizer s) passes (model s') (optimizer s') /\
     match writer s with
     | None => writer s' = None
     | Some w =>
         exists records,
           @drawn K logevery r0 passes records /\ writer s' = Some (w ++ records)
     end) /\
  received s'
  = option_map
      (fun w => w ++ stride_labels logevery (Np.arange (Config.epochs config)))
      (received s).
Proof.
  intros H. split.
  - destruct (@train_run K dataset config logevery s s' l H)
      as (_ & _ & r0 & passes & final & Er & Hits & _ & Hw).
    exists r0, (passes ++ [final]). split; [exact Er|]. split; [exact Hits|].
    exact Hw.
  - now destruct (@train_returned K dataset config logevery s s' l H)
      as (_ & _ & _ & _ & Hr).
Qed.

Lemma train_sink_labels_witness :
  exists l s',
    @train ToyLoop.collab 1%float (ToyLoop.config 5) 2 (ToyLoop.start 3 (Some []))
    = (Ok l, s') /\
    (exists passes records,
       @drawn ToyLoop.collab 2 (1, -2)%float passes records /\
       writer s' = Some records) /\
    received s'
    = Some [("loss"%string, Some 0); ("image"%string, Some 0);
            ("loss"%string, Some 2); ("image"%string, Some 2);
            ("loss"%string, Some 4); ("image"%string, Some 4)].
Proof.
  destruct (@train ToyLoop.collab 1%float (ToyLoop.config 5) 2
              (ToyLoop.start 3 (Some []))) as [[l|e] s'] eqn:E;
    [|vm_compute in E; discriminate E].
  exists l, s'. split; [reflexivity|].
  destruct (@train_sink_labels ToyLoop.collab 1%float (ToyLoop.config 5) 2
              (ToyLoop.start 3 (Some [])) s' l E)
    as ((r0 & passes & Er & _ & records & Hd & Hw) & Hr).
  split.
  - exists passes, records. injection Er as <-. split; [exact Hd|exact Hw].
  - rewrite Hr. reflexivity.
Defined.

(** *** A fold that fails *)

(** X12. [cross_validate] catches nothing: when a fold raises, after the
    folds before it have returned, [cross_validate] raises the same
    exception from the state that fold left; the folds after it are not
    run, and the score is neither summed nor written. *)
Theorem cross_validate_stops_at_first_failure (K : Collab)
  (config : Config.t (Scalar K)) (MODEL_PATH : string)
  (done : list (Dataset K * Dataset K)) (fold : Dataset K * Dataset K)
  (rest : list (Dataset K * Dataset K)) (scores : list (Scalar K))
  (s s1 s2 : State K) (e : exn) :
  for_each done (@cross_validate_body K config MODEL_PATH) [] s = (Ok scores, s1) ->
  @cross_validate_body K config MODEL_PATH fold scores s1 = (Raise e, s2) ->
  @cross_validate K config (done ++ fold :: rest) MODEL_PATH s = (Raise e, s2).
Proof.
  intros Hdone Hraise. unfold cross_validate. unfold Meth.bind at 1.
  rewrite for_each_app, Hdone. cbn [for_each]. unfold Meth.bind at 1.
  now rewrite Hraise.
Qed.

Lemma cross_validate_stops_at_first_failure_witness :
  exists e s2,
    @cross_validate_body ToyLoop.collab (ToyLoop.config 0) "model.pt"
      (1%float, 2%float) [] (ToyLoop.start 7 None) = (Raise e, s2) /\
    @cross_validate ToyLoop.collab (ToyLoop.config 0) ToyLoop.folds "model.pt"
      (ToyLoop.start 7 None) = (Raise e, s2).
Proof.
  destruct (@cross_validate_body ToyLoop.collab (ToyLoop.config 0) "model.pt"
              (1%float, 2%float) [] (ToyLoop.start 7 None)) as [[x|e] s2] eqn:E;
    [vm_compute in E; discriminate E|].
  exists e, s2. split; [reflexivity|].
  exact (@cross_validate_stops_at_first_failure ToyLoop.collab (ToyLoop.config 0)
           "model.pt" [] (1%float, 2%float) [(2%float, 1%float)] []
           (ToyLoop.start 7 None) (ToyLoop.start 7 None) s2 e eq_refl E).
Defined.



(** *** Evaluation *)


(** *** What [cross_validate] writes to the sink *)

(** X15. Whenever [cross_validate] returns, what the writer has received
    is, fold after fold, the records of that fold's training run (loss and
    image at iterations 0, 50, 100, ...), and then one last record: a
    scalar tagged Cross Validation, without a step, whose value is the
    score returned.  Without a writer there is still none. *)
Theorem cross_validate_sink_contents (K : Collab) (config : Config.t (Scalar K))
  (folds : list (Dataset K * Dataset K)) (MODEL_PATH : string)
  (s s' : State K) (total : Scalar K) :
  @cross_validate K config folds MODEL_PATH s = (Ok total, s') ->
  received s'
  = option_map
      (fun w => w ++ cross_validation_labels (Config.epochs config) (length folds))
      (received s) /\
  (forall w, writer s = Some w ->
     exists w', writer s' = Some (w' ++ [add_scalar K "Cross Validation" total None])).
Proof.
  intros H.
  destruct (@cross_validate_returned K config folds MODEL_PATH s s' total H)
    as (_ & _ & Hr & Hw).
  split; assumption.
Qed.

Lemma cross_validate_sink_contents_witness :
  exists total s',
    @cross_validate ToyLoop.collab (ToyLoop.config 60) ToyLoop.folds "model.pt"
      (ToyLoop.start 7 (Some [])) = (Ok total, s') /\
    received s'
    = Some [("loss"%string, Some 0); ("image"%string, Some 0);
            ("loss"%string, Some 50); ("image"%string, Some 50);
            ("loss"%string, Some 0); ("image"%string, Some 0);
            ("loss"%string, Some 50); ("image"%string, Some 50);
            ("Cross Validation"%string, None)].
Proof.
  destruct (@cross_validate ToyLoop.collab (ToyLoop.config 60) ToyLoop.folds
              "model.pt" (ToyLoop.start 7 (Some []))) as [[total|e] s'] eqn:E;
    [|vm_compute in E; discriminate E].
  exists total, s'. split; [reflexivity|].
  rewrite (proj1 (@cross_validate_sink_contents ToyLoop.collab (ToyLoop.config 60)
                    ToyLoop.folds "model.pt" (ToyLoop.start 7 (Some [])) s' total E)).
  vm_compute. reflexivity.
Defined.
